(** * The work distribution engine of [numbapro/vectorize/parallel.py]

    The Python module emits, through llvm_cbuilder, a thread dispatcher
    ([ParallelUFunc.body]) and a worker routine ([UFuncCore.body]) with a
    spin-lock protected work queue per thread and a work-stealing phase.
    This development embeds the emitted program and proves its properties.

    What is modelled, and how:
    - [C.intp] is a signed 64-bit integer and [C.int] a signed 32-bit one;
      every arithmetic result of the emitted code goes through the
      wrap-around of its type ([to_intp], [to_int]); byte pointers are
      64-bit addresses.
    - The module constants are taken at their values in the source:
      [ENABLE_WORK_STEALING = True], [CHECK_RACE_CONDITION = True],
      [GRANULARITY = 256].
    - The dispatcher's stack arrays are lists; an access through an index
      outside the allocation is a fault ([OutOfBounds]).
    - Each worker is a program counter with its live locals; one step is
      one CAS on a lock word, or the straight line of code between [Lock]
      and [Unlock], or one iteration of the element loop of [_do_work], or
      one block of thread-local control. Threads interleave under an
      arbitrary schedule and memory is sequentially consistent; the
      [acquire] and [release] orderings are carried as arguments of the CAS.
    - Thread creation and join are assumed to succeed.
    - Memory is a map from byte addresses to bytes; what a byte holds is
      left open ([V]). The kernel comes with the sizes in bytes of its
      argument types and of its return type: a load of argument [i] reads
      [arg_size i] consecutive addresses, the store of a result writes the
      bytes of the result at consecutive addresses, all modulo [2^64].
    - The state carries a history of the ranges taken out of the queues;
      the program never reads it. *)

From Stdlib Require Import ZArith Lia List Bool.
From stdpp Require Import base tactics option list numbers.

Open Scope Z_scope.

(** ** Machine integers: [C.intp] is 64 bits wide, [C.int] is 32 bits wide *)

Definition wrap (bits x : Z) : Z :=
  (x + 2 ^ (bits - 1)) mod 2 ^ bits - 2 ^ (bits - 1).

Definition to_intp (x : Z) : Z := wrap 64 x.
Definition to_int (x : Z) : Z := wrap 32 x.

Definition intp_max : Z := 2 ^ 63 - 1.
Definition int_max : Z := 2 ^ 31 - 1.

(** Byte pointers are 64-bit addresses; indexing a [char*] adds modulo 2^64. *)
Definition ptr_add (p off : Z) : Z := (p + off) mod 2 ^ 64.

Arguments wrap : simpl never.
Arguments to_intp : simpl never.
Arguments to_int : simpl never.
Arguments ptr_add : simpl never.

(** [GRANULARITY = 256] *)
Definition GRANULARITY : Z := 256.

(** ** The structs *)

(** [class WorkQueue(CStruct)] *)
Record WorkQueue : Type := mkWorkQueue {
  next : Z;   (* C.intp, next index of work item *)
  last : Z;   (* C.intp, last index of work item (exclusive) *)
  lock : Z    (* C.int, for locking the workqueue *)
}.

(** [class ContextCommon(CStruct)]; its [workqueues] field points at the
    dispatcher's queue array, which the machine state holds once. *)
Record ContextCommon : Type := mkContextCommon {
  args : list Z;        (* one byte pointer per argument, then the output *)
  dimensions : list Z;
  steps : list Z;
  data : Z;
  num_thread : Z        (* C.int *)
}.

(** [class Context(CStruct)]; its [common] field points at the one
    [ContextCommon] of the batch. *)
Record Context : Type := mkContext {
  id : Z;          (* C.int *)
  completed : Z    (* C.intp *)
}.

(** ** The lock protocol *)

Inductive ordering : Type := Acquire | Release.

(** [atomic_cmpxchg(old, new, ordering)] on the lock word: the word is
    replaced when it holds [old]; the previous content is returned. *)
Definition atomic_cmpxchg (q : WorkQueue) (old new : Z) (o : ordering)
  : Z * WorkQueue :=
  (lock q, if lock q =? old then mkWorkQueue (next q) (last q) new else q).

(** One evaluation of the loop condition of [WorkQueue.Lock]: the CAS
    0 -> 1 and the flag [res != unlocked] that keeps the loop going. *)
Definition Lock (q : WorkQueue) : bool * WorkQueue :=
  let unlocked := 0 in
  let locked := 1 in
  let '(res, q') := atomic_cmpxchg q unlocked locked Acquire in
  (negb (res =? unlocked), q').

(** [WorkQueue.Unlock]: the CAS 1 -> 0; the flag is [res != locked], under
    which the emitted code runs into [unreachable]. *)
Definition Unlock (q : WorkQueue) : bool * WorkQueue :=
  let unlocked := 0 in
  let locked := 1 in
  let '(res, q') := atomic_cmpxchg q locked unlocked Release in
  (negb (res =? locked), q').

(** ** Arrays on the dispatcher's frame *)

Inductive result (A : Type) : Type :=
| Ok (a : A)
| OutOfBounds (index : Z) (len : nat).
Arguments Ok {A} a.
Arguments OutOfBounds {A} index len.

Definition bind {A B : Type} (r : result A) (k : A → result B) : result B :=
  match r with
  | Ok a => k a
  | OutOfBounds i n => OutOfBounds i n
  end.

(** Element [i] of an array indexed by a machine integer. *)
Definition lookupZ {A : Type} (l : list A) (i : Z) : option A :=
  if 0 <=? i then l !! Z.to_nat i else None.

(** A write through [arr[i]]: outside the allocation it is a fault. *)
Definition update_at {A : Type} (l : list A) (i : Z) (f : A → A)
  : result (list A) :=
  match lookupZ l i with
  | Some x => Ok (<[Z.to_nat i := f x]> l)
  | None => OutOfBounds i (length l)
  end.

(** [for_range(stop)]: the indices 0, 1, ..., stop - 1 in order. *)
Definition for_range (stop : Z) : list Z := seqZ 0 stop.

Fixpoint for_each {S : Type} (idx : list Z) (body : Z → S → result S) (s : S)
  : result S :=
  match idx with
  | [] => Ok s
  | i :: rest => bind (body i s) (for_each rest body)
  end.

(** ** The dispatcher: [ParallelUFunc.body] up to the spawn *)

(** [_populate_workqueues] *)
Definition populate_workqueues (workqueues : list WorkQueue)
    (N ChunkSize num_thread : Z) : result (list WorkQueue) :=
  let ONE := 1 in
  bind
    (for_each (for_range num_thread)
       (λ i wqs,
          update_at wqs i
            (λ _, mkWorkQueue (to_intp (to_intp i * ChunkSize))
                              (to_intp (to_intp (to_int (i + ONE)) * ChunkSize))
                              0))
       workqueues)
    (λ wqs,
       update_at wqs (to_int (num_thread - ONE))
         (λ last_wq, mkWorkQueue (next last_wq) N (lock last_wq))).

(** [_populate_context] *)
Definition populate_context (contexts : list Context) (num_thread : Z)
  : result (list Context) :=
  for_each (for_range num_thread)
    (λ i ctxs, update_at ctxs i (λ _, mkContext i 0))
    contexts.

(** The chunk size and the thread count the dispatcher settles on:
    [ChunkSize = N / num_thread], and when that is zero, [ChunkSize = 1]
    and [num_thread = N]. *)
Definition chunk_and_threads (ThreadCount N : Z) : Z * Z :=
  let num_thread := to_int ThreadCount in
  let ChunkSize := to_intp (Z.quot N (to_intp num_thread)) in
  if ChunkSize =? 0 then (1, to_int N) else (ChunkSize, num_thread).

(** What the dispatcher has built when it reaches the spawn. *)
Record Setup : Type := mkSetup {
  su_common : ContextCommon;
  su_workqueues : list WorkQueue;
  su_contexts : list Context
}.

(** The body of the dispatcher from its entry to [_dispatch_worker];
    [junk_wq] and [junk_ctx] are what the fresh stack arrays hold. *)
Definition setup (ThreadCount : Z) (a d s : list Z) (dat : Z)
    (junk_wq : WorkQueue) (junk_ctx : Context) : result Setup :=
  let N := d !!! 0%nat in
  let '(ChunkSize, nthr) := chunk_and_threads ThreadCount N in
  let workqueues := replicate (Z.to_nat nthr) junk_wq in
  let contexts := replicate (Z.to_nat nthr) junk_ctx in
  let common := mkContextCommon a d s dat (to_int nthr) in
  bind (populate_workqueues workqueues N ChunkSize nthr) (λ wqs,
  bind (populate_context contexts nthr) (λ ctxs,
  Ok (mkSetup common wqs ctxs))).

(** ** The worker: [UFuncCore.body] as a program counter per thread *)

(** The two call sites of [_do_work]. *)
Inductive Kont : Type :=
| KDrain             (* from [_do_workqueue] *)
| KSteal (i : Z).    (* from [_do_work_stealing_check] on peer [i] *)

Inductive TrapReason : Type :=
| LockCorrupted      (* the [unreachable] of [Unlock] *)
| BadIndex.          (* an access outside the queue array *)

(** Where a worker stands, with the locals live at that point. *)
Inductive Pc : Type :=
| DrainLock                               (* [workqueue.Lock()], one CAS per step *)
| DrainCrit                               (* critical section of [_do_workqueue] *)
| DrainUnlock (item AMT lst : Z)          (* [workqueue.Unlock()], then [item >= last] *)
| Work (k : Kont) (item count j : Z) (arg_ptrs : list Z)
                                          (* [for_range(count)] of [_do_work] at index [j] *)
| StealCond (steal_continue : Z)          (* loop condition of [_do_work_stealing] *)
| StealFor (i steal_continue : Z)         (* [for_range(common.num_thread)] at index [i] *)
| StealLock (i steal_continue : Z)        (* [otherqueue.Lock()], one CAS per step *)
| StealCrit (i steal_continue : Z)        (* the test under the peer's lock *)
| StealUnlockThen (i steal_continue item : Z)
| StealUnlockElse (i steal_continue : Z)
| Done                                    (* [self.ret()] *)
| Trap (why : TrapReason).

Record Thread : Type := mkThread {
  th_ctx : Context;
  th_pc : Pc
}.

(** Ranges taken out of a queue, in the order they were taken. *)
Inductive Event : Type :=
| EvDrain (tid item amt : Z)           (* owner [tid] took [item, item+amt) from the front *)
| EvSteal (tid peer item : Z).         (* [tid] took [item, item+256) from the back of [peer] *)

(** The worker function [self.WORKER] as [_do_work] uses it: the sizes in
    bytes of its argument types and of its return type ([fnty.args],
    [fnty.return_type]), which are the widths of the loads and of the
    store, and what a call returns. A value is given by its bytes; [V] is
    what one byte holds. *)
Record Kernel (V : Type) : Type := mkKernel {
  arg_size : nat → Z;
  ret_size : Z;
  call :> list (list V) → list V
}.
Arguments mkKernel {V} arg_size ret_size call.
Arguments arg_size {V} k i.
Arguments ret_size {V} k.
Arguments call {V} k args.

Section Engine.

(** The bytes of memory, the kernel's arity and the kernel. *)
Context {V : Type}.
Variable A : nat.
Variable kernel : Kernel V.

Record State : Type := mkState {
  st_common : ContextCommon;        (* the dispatcher's [common] *)
  st_workqueues : list WorkQueue;   (* the dispatcher's [workqueues] array *)
  st_threads : list Thread;         (* [contexts], with each worker's position *)
  st_mem : Z → V;                   (* memory, byte by byte *)
  st_log : list Event               (* history of the ranges taken *)
}.

Definition set_pc (t : nat) (c : Context) (pc : Pc) (st : State) : State :=
  mkState (st_common st) (st_workqueues st)
          (<[t := mkThread c pc]> (st_threads st)) (st_mem st) (st_log st).

Definition set_wq (i : Z) (q : WorkQueue) (st : State) : State :=
  mkState (st_common st) (<[Z.to_nat i := q]> (st_workqueues st))
          (st_threads st) (st_mem st) (st_log st).

Definition set_mem (m : Z → V) (st : State) : State :=
  mkState (st_common st) (st_workqueues st) (st_threads st) m (st_log st).

Definition emit (e : Event) (st : State) : State :=
  mkState (st_common st) (st_workqueues st) (st_threads st) (st_mem st)
          (st_log st ++ [e]).

(** One byte written at address [p]. *)
Definition poke (m : Z → V) (p : Z) (b : V) : Z → V :=
  λ a, if a =? p then b else m a.

(** A load of [n] bytes through the byte pointer [p]. *)
Definition load (m : Z → V) (p n : Z) : list V :=
  (λ j, m (ptr_add p j)) <$> seqZ 0 n.

Fixpoint store_from (m : Z → V) (p j : Z) (bs : list V) : Z → V :=
  match bs with
  | [] => m
  | b :: bs' => store_from (poke m (ptr_add p j) b) p (j + 1) bs'
  end.

(** A store of the bytes [bs] through the byte pointer [p]: byte [j] goes
    to address [p + j]. *)
Definition store (m : Z → V) (p : Z) (bs : list V) : Z → V :=
  store_from m p 0 bs.

(** The head of [_do_work]: [arg_ptrs[i] = args[i][item * steps[i]:]]. *)
Definition init_arg_ptrs (common : ContextCommon) (item : Z) : list Z :=
  (λ i, ptr_add (args common !!! i) (to_intp (item * (steps common !!! i))))
    <$> seq 0 (S A).

(** [arg_steps[i] = steps[i]] *)
Definition arg_steps (common : ContextCommon) : list Z :=
  (λ i, steps common !!! i) <$> seq 0 (S A).

(** One iteration of the loop of [_do_work]: load each input at the
    width of its type, call the kernel, store the result through the last
    pointer, advance all pointers by their steps. *)
Definition do_work_iter (common : ContextCommon) (arg_ptrs : list Z)
    (m : Z → V) : list Z * (Z → V) :=
  let callargs := imap (λ i p, load m p (arg_size kernel i)) (take A arg_ptrs) in
  let res := kernel callargs in
  let m' := store m (arg_ptrs !!! A) res in
  (zip_with ptr_add arg_ptrs (arg_steps common), m').

(** One step of thread [t]. A thread that has returned or trapped has no
    step. A failed CAS of [Lock] is a step that changes nothing. *)
Definition step (t : nat) (st : State) : option State :=
  th ← st_threads st !! t;
  let c := th_ctx th in
  let tid := id c in
  let common := st_common st in
  match th_pc th with
  | DrainLock =>
      match lookupZ (st_workqueues st) tid with
      | None => Some (set_pc t c (Trap BadIndex) st)
      | Some q =>
          let '(again, q') := Lock q in
          Some (set_pc t c (if again then DrainLock else DrainCrit)
                  (set_wq tid q' st))
      end
  | DrainCrit =>
      match lookupZ (st_workqueues st) tid with
      | None => Some (set_pc t c (Trap BadIndex) st)
      | Some q =>
          let item := next q in
          let AMT := Z.min GRANULARITY (to_intp (last q - next q)) in
          let q' := mkWorkQueue (to_intp (next q + AMT)) (last q) (lock q) in
          let lst := last q' in
          Some (emit (EvDrain tid item AMT)
                  (set_pc t c (DrainUnlock item AMT lst) (set_wq tid q' st)))
      end
  | DrainUnlock item AMT lst =>
      match lookupZ (st_workqueues st) tid with
      | None => Some (set_pc t c (Trap BadIndex) st)
      | Some q =>
          let '(bad, q') := Unlock q in
          if bad then Some (set_pc t c (Trap LockCorrupted) (set_wq tid q' st))
          else if lst <=? item
          then Some (set_pc t c (StealCond 1) (set_wq tid q' st))
          else Some (set_pc t c (Work KDrain item AMT 0 (init_arg_ptrs common item))
                       (set_wq tid q' st))
      end
  | Work k item count j arg_ptrs =>
      if j <? count then
        let '(ptrs', m') := do_work_iter common arg_ptrs (st_mem st) in
        Some (set_pc t c (Work k item count (to_intp (j + 1)) ptrs')
                (set_mem m' st))
      else
        let c' := mkContext (id c) (to_intp (completed c + count)) in
        match k with
        | KDrain => Some (set_pc t c' DrainLock st)
        | KSteal i => Some (set_pc t c' (StealFor (to_int (i + 1)) 1) st)
        end
  | StealCond steal_continue =>
      if steal_continue =? 0 then Some (set_pc t c Done st)
      else Some (set_pc t c (StealFor 0 0) st)
  | StealFor i steal_continue =>
      if i <? num_thread common then
        if i =? tid then Some (set_pc t c (StealFor (to_int (i + 1)) steal_continue) st)
        else Some (set_pc t c (StealLock i steal_continue) st)
      else Some (set_pc t c (StealCond steal_continue) st)
  | StealLock i steal_continue =>
      match lookupZ (st_workqueues st) i with
      | None => Some (set_pc t c (Trap BadIndex) st)
      | Some q =>
          let '(again, q') := Lock q in
          Some (set_pc t c (if again then StealLock i steal_continue
                            else StealCrit i steal_continue)
                  (set_wq i q' st))
      end
  | StealCrit i steal_continue =>
      match lookupZ (st_workqueues st) i with
      | None => Some (set_pc t c (Trap BadIndex) st)
      | Some q =>
          let STEAL_AMT := GRANULARITY in
          if next q <=? to_intp (last q - STEAL_AMT) then
            let q' := mkWorkQueue (next q) (to_intp (last q - STEAL_AMT)) (lock q) in
            let item := last q' in
            Some (emit (EvSteal tid i item)
                    (set_pc t c (StealUnlockThen i steal_continue item)
                       (set_wq i q' st)))
          else Some (set_pc t c (StealUnlockElse i steal_continue) st)
      end
  | StealUnlockThen i steal_continue item =>
      match lookupZ (st_workqueues st) i with
      | None => Some (set_pc t c (Trap BadIndex) st)
      | Some q =>
          let '(bad, q') := Unlock q in
          if bad then Some (set_pc t c (Trap LockCorrupted) (set_wq i q' st))
          else Some (set_pc t c
                       (Work (KSteal i) item GRANULARITY 0 (init_arg_ptrs common item))
                       (set_wq i q' st))
      end
  | StealUnlockElse i steal_continue =>
      match lookupZ (st_workqueues st) i with
      | None => Some (set_pc t c (Trap BadIndex) st)
      | Some q =>
          let '(bad, q') := Unlock q in
          if bad then Some (set_pc t c (Trap LockCorrupted) (set_wq i q' st))
          else Some (set_pc t c (StealFor (to_int (i + 1)) steal_continue)
                       (set_wq i q' st))
      end
  | Done => None
  | Trap _ => None
  end.

(** A schedule names the thread that moves at each tick; a tick given to
    a thread without a step leaves the state alone. *)
Definition tick (st : State) (t : nat) : State := default st (step t st).

Definition run (sched : list nat) (st : State) : State := foldl tick st sched.

(** All workers have returned: the joins of [_dispatch_worker] complete. *)
Definition all_done (st : State) : bool :=
  forallb (λ th, match th_pc th with Done => true | _ => false end) (st_threads st).

(** The state at the spawn: every worker at the head of its drain loop. *)
Definition spawn (su : Setup) (m : Z → V) : State :=
  mkState (su_common su) (su_workqueues su)
          ((λ c, mkThread c DrainLock) <$> su_contexts su) m [].

(** [ParallelUFunc.body] from its entry to the running workers. *)
Definition body (ThreadCount : Z) (a d s : list Z) (dat : Z)
    (junk_wq : WorkQueue) (junk_ctx : Context) (m : Z → V) : result State :=
  bind (setup ThreadCount a d s dat junk_wq junk_ctx) (λ su, Ok (spawn su m)).

(** The audit after the joins ([CHECK_RACE_CONDITION]): the sum of the
    [completed] counters, accumulated in a [C.intp]. *)
Definition total_completed (st : State) : Z :=
  foldl (λ acc th, to_intp (acc + completed (th_ctx th))) 0 (st_threads st).

(** [true] when the audit takes its [unreachable] branch. *)
Definition race_detected (st : State) : bool :=
  negb (total_completed st =? dimensions (st_common st) !!! 0%nat).

End Engine.

(** * Properties *)

(** ** Machine arithmetic inside its range *)

Lemma intp_max_eq : intp_max = 9223372036854775807.
Proof. reflexivity. Qed.

Lemma int_max_eq : int_max = 2147483647.
Proof. reflexivity. Qed.

Lemma to_intp_id x : -9223372036854775808 ≤ x ≤ intp_max → to_intp x = x.
Proof.
  rewrite intp_max_eq. intros Hx. unfold to_intp, wrap.
  change (2 ^ (64 - 1)) with 9223372036854775808.
  change (2 ^ 64) with 18446744073709551616.
  rewrite Z.mod_small; lia.
Qed.

Lemma to_int_id x : -2147483648 ≤ x ≤ int_max → to_int x = x.
Proof.
  rewrite int_max_eq. intros Hx. unfold to_int, wrap.
  change (2 ^ (32 - 1)) with 2147483648.
  change (2 ^ 32) with 4294967296.
  rewrite Z.mod_small; lia.
Qed.

Lemma int_max_le_intp_max : int_max ≤ intp_max.
Proof. rewrite int_max_eq, intp_max_eq. lia. Qed.

Lemma to_intp_mod x : to_intp x mod 2 ^ 64 = x mod 2 ^ 64.
Proof.
  unfold to_intp, wrap.
  change (2 ^ (64 - 1)) with 9223372036854775808.
  change (2 ^ 64) with 18446744073709551616.
  pose proof (Z.div_mod (x + 9223372036854775808) 18446744073709551616
                ltac:(lia)) as Hd.
  set (k := (x + 9223372036854775808) / 18446744073709551616) in *.
  clearbody k.
  replace ((x + 9223372036854775808) mod 18446744073709551616 - 9223372036854775808)
    with (x + (- k) * 18446744073709551616) by lia.
  apply Z_mod_plus_full.
Qed.

(** ** Arrays *)

Lemma lookupZ_Some {X : Type} (l : list X) (i : Z) (x : X) :
  lookupZ l i = Some x ↔ 0 ≤ i ∧ l !! Z.to_nat i = Some x.
Proof.
  unfold lookupZ. destruct (Z.leb_spec 0 i) as [Hi|Hi].
  - split; [by intros ? | by intros [_ ?]].
  - split; [discriminate | intros [? _]; lia].
Qed.

Lemma lookupZ_of_nat {X : Type} (l : list X) (i : nat) :
  lookupZ l (Z.of_nat i) = l !! i.
Proof.
  unfold lookupZ. destruct (Z.leb_spec 0 (Z.of_nat i)); [|lia].
  by rewrite Nat2Z.id.
Qed.

Lemma update_at_Ok {X : Type} (l : list X) (i : Z) (f : X → X) (x : X) :
  0 ≤ i → l !! Z.to_nat i = Some x →
  update_at l i f = Ok (<[Z.to_nat i := f x]> l).
Proof.
  intros Hi Hx. unfold update_at.
  assert (lookupZ l i = Some x) as -> by (by apply lookupZ_Some). done.
Qed.

(** A loop that assigns [g i] to slot [i] for [i] from [a] on, [k] times. *)
Lemma for_each_fill {X : Type} (g : Z → X) (k : nat) :
  ∀ (a : nat) (l : list X),
    (a + k ≤ length l)%nat →
    ∃ l', for_each (seqZ (Z.of_nat a) (Z.of_nat k))
            (λ i s, update_at s i (λ _, g i)) l = Ok l'
          ∧ length l' = length l
          ∧ ∀ j : nat, l' !! j =
              if decide (a ≤ j < a + k)%nat then Some (g (Z.of_nat j)) else l !! j.
Proof.
  induction k as [|k IH]; intros a l Hlen.
  - exists l. split; [done|]. split; [done|].
    intros j. destruct (decide _); [lia|done].
  - rewrite seqZ_cons by lia. simpl.
    destruct (lookup_lt_is_Some_2 l a) as [x Hx]; [lia|].
    rewrite (update_at_Ok _ _ _ x); [| lia | by rewrite Nat2Z.id].
    simpl. rewrite Nat2Z.id.
    replace (Z.succ (Z.of_nat a)) with (Z.of_nat (S a)) by lia.
    replace (Z.pred (Z.of_nat (S k))) with (Z.of_nat k) by lia.
    destruct (IH (S a) (<[a := g (Z.of_nat a)]> l)) as (l' & Hrun & Hl' & Hget).
    { rewrite length_insert. lia. }
    exists l'. split; [done|]. split.
    { by rewrite Hl', length_insert. }
    intros j. rewrite Hget.
    destruct (decide (S a ≤ j < S a + k)%nat), (decide (a ≤ j < a + S k)%nat);
      try done; try lia.
    + destruct (decide (j = a)) as [->|Hne].
      * rewrite list_lookup_insert_eq; [done | lia].
      * lia.
    + rewrite list_lookup_insert_ne; [done | lia].
Qed.

(** ** The dispatcher's setup in closed form *)

Definition initial_queues (ChunkSize nthr N : Z) : list WorkQueue :=
  ((λ i, mkWorkQueue (i * ChunkSize) ((i + 1) * ChunkSize) 0) <$> seqZ 0 (nthr - 1))
  ++ [mkWorkQueue ((nthr - 1) * ChunkSize) N 0].

Definition initial_contexts (nthr : Z) : list Context :=
  (λ i, mkContext i 0) <$> seqZ 0 nthr.

Lemma chunk_and_threads_spec (T N : Z) :
  1 ≤ T ≤ int_max → 0 ≤ N ≤ intp_max →
  chunk_and_threads T N = if N <? T then (1, N) else (N / T, T).
Proof.
  intros HT HN. unfold chunk_and_threads.
  pose proof int_max_le_intp_max as Hmm.
  rewrite (to_int_id T) by lia.
  rewrite (to_intp_id T) by lia.
  rewrite Z.quot_div_nonneg by lia.
  assert (0 ≤ N / T ≤ N) as Hq.
  { split; [apply Z.div_pos; lia|]. apply Z.div_le_upper_bound; nia. }
  rewrite (to_intp_id (N / T)) by lia.
  destruct (Z.ltb_spec N T) as [Hlt|Hge].
  - rewrite Z.div_small by lia. simpl. rewrite to_int_id by lia. done.
  - assert (1 ≤ N / T) by (apply Z.div_le_lower_bound; lia).
    destruct (Z.eqb_spec (N / T) 0); [lia|done].
Qed.

Lemma populate_workqueues_spec (junk : WorkQueue) (N ChunkSize nthr : Z) :
  1 ≤ nthr ≤ int_max → 0 ≤ ChunkSize → nthr * ChunkSize ≤ N ≤ intp_max →
  populate_workqueues (replicate (Z.to_nat nthr) junk) N ChunkSize nthr
  = Ok (initial_queues ChunkSize nthr N).
Proof.
  intros Hn Hc HN. unfold populate_workqueues, for_range. cbv zeta.
  pose proof int_max_le_intp_max as Hmm.
  set (g := λ i, mkWorkQueue (to_intp (to_intp i * ChunkSize))
                   (to_intp (to_intp (to_int (i + 1)) * ChunkSize)) 0).
  destruct (for_each_fill g (Z.to_nat nthr) 0 (replicate (Z.to_nat nthr) junk))
    as (l' & Hrun & Hlen & Hget).
  { rewrite length_replicate. lia. }
  rewrite Z2Nat.id in Hrun by lia. change (Z.of_nat 0) with 0 in Hrun.
  unfold g in Hrun. cbv beta in Hrun. rewrite Hrun. simpl.
  rewrite length_replicate in Hlen.
  rewrite (to_int_id (nthr - 1)) by lia.
  assert (Hg : ∀ i, 0 ≤ i < nthr →
            g i = mkWorkQueue (i * ChunkSize) ((i + 1) * ChunkSize) 0).
  { intros i Hi. unfold g.
    rewrite (to_int_id (i + 1)) by lia.
    rewrite (to_intp_id i), (to_intp_id (i + 1)) by lia.
    rewrite !to_intp_id by nia. done. }
  rewrite (update_at_Ok _ _ _ (g (nthr - 1))); [| lia |].
  2:{ rewrite Hget. destruct (decide _) as [_|Hno]; [|lia].
      by rewrite Z2Nat.id by lia. }
  f_equal. apply list_eq. intros j. unfold initial_queues.
  destruct (decide (j = Z.to_nat (nthr - 1))) as [->|Hne].
  - rewrite list_lookup_insert_eq by lia.
    rewrite lookup_app_r; rewrite length_fmap, length_seqZ; [|lia].
    rewrite Nat.sub_diag, Hg by lia. simpl. done.
  - rewrite list_lookup_insert_ne by lia. rewrite Hget.
    destruct (decide (0 ≤ j < 0 + Z.to_nat nthr)%nat) as [Hj|Hj].
    + rewrite lookup_app_l by (rewrite length_fmap, length_seqZ; lia).
      rewrite list_lookup_fmap, lookup_seqZ_lt by lia. simpl.
      rewrite Hg by lia. done.
    + rewrite (proj1 (lookup_replicate_None _ _ _)) by lia.
      symmetry. apply lookup_ge_None.
      rewrite length_app, length_fmap, length_seqZ. simpl. lia.
Qed.

Lemma populate_context_spec (junk : Context) (nthr : Z) :
  0 ≤ nthr →
  populate_context (replicate (Z.to_nat nthr) junk) nthr
  = Ok (initial_contexts nthr).
Proof.
  intros Hn. unfold populate_context, for_range.
  destruct (for_each_fill (λ i, mkContext i 0) (Z.to_nat nthr) 0
              (replicate (Z.to_nat nthr) junk)) as (l' & Hrun & Hlen & Hget).
  { rewrite length_replicate. lia. }
  rewrite Z2Nat.id in Hrun by lia. change (Z.of_nat 0) with 0 in Hrun.
  rewrite Hrun.
  f_equal. apply list_eq. intros j. rewrite Hget. unfold initial_contexts.
  rewrite list_lookup_fmap.
  destruct (decide (0 ≤ j < 0 + Z.to_nat nthr)%nat) as [Hj|Hj].
  - rewrite lookup_seqZ_lt by lia. simpl. done.
  - rewrite (proj1 (lookup_replicate_None _ _ _)) by lia.
    rewrite lookup_seqZ_ge by lia. done.
Qed.

(** For a batch of at least one element the setup succeeds. *)
Lemma setup_spec (T N : Z) (a d s : list Z) (dat : Z)
    (junk_wq : WorkQueue) (junk_ctx : Context) :
  1 ≤ T ≤ int_max → 1 ≤ N ≤ intp_max → d !! 0%nat = Some N →
  let ChunkSize := if N <? T then 1 else N / T in
  let nthr := if N <? T then N else T in
  setup T a d s dat junk_wq junk_ctx
  = Ok (mkSetup (mkContextCommon a d s dat nthr)
          (initial_queues ChunkSize nthr N) (initial_contexts nthr)).
Proof.
  intros HT HN Hd. simpl. unfold setup.
  rewrite (list_lookup_total_correct _ _ _ Hd).
  rewrite chunk_and_threads_spec by lia.
  destruct (Z.ltb_spec N T) as [Hlt|Hge].
  - rewrite populate_workqueues_spec by lia. simpl.
    rewrite populate_context_spec by lia. simpl.
    rewrite to_int_id by lia. done.
  - assert (1 ≤ N / T) by (apply Z.div_le_lower_bound; lia).
    assert (T * (N / T) ≤ N) by (apply Z.mul_div_le; lia).
    rewrite populate_workqueues_spec by lia. simpl.
    rewrite populate_context_spec by lia. simpl.
    rewrite to_int_id by lia. done.
Qed.

(** ** Sums over arrays *)

Fixpoint sumZ {X : Type} (f : X → Z) (l : list X) : Z :=
  match l with
  | [] => 0
  | x :: l' => f x + sumZ f l'
  end.

Lemma sumZ_app {X : Type} (f : X → Z) (l1 l2 : list X) :
  sumZ f (l1 ++ l2) = sumZ f l1 + sumZ f l2.
Proof. induction l1 as [|x l1 IH]; simpl; lia. Qed.

Lemma sumZ_insert {X : Type} (f : X → Z) (l : list X) (i : nat) (x y : X) :
  l !! i = Some x → sumZ f (<[i := y]> l) = sumZ f l - f x + f y.
Proof.
  revert i. induction l as [|z l IH]; intros [|i] Hx; simplify_eq/=.
  - lia.
  - rewrite (IH i) by done. lia.
Qed.

Lemma sumZ_nonneg {X : Type} (f : X → Z) (l : list X) :
  (∀ x, x ∈ l → 0 ≤ f x) → 0 ≤ sumZ f l.
Proof.
  induction l as [|x l IH]; intros Hf; simpl; [lia|].
  assert (0 ≤ f x) by (apply Hf; left).
  assert (0 ≤ sumZ f l) by (apply IH; intros; apply Hf; by right). lia.
Qed.

Lemma sumZ_elem_le {X : Type} (f : X → Z) (l : list X) (i : nat) (x : X) :
  (∀ y, y ∈ l → 0 ≤ f y) → l !! i = Some x → f x ≤ sumZ f l.
Proof.
  revert i. induction l as [|z l IH]; intros [|i] Hf Hx; simplify_eq/=.
  - assert (0 ≤ sumZ f l) by (apply sumZ_nonneg; intros; apply Hf; by right). lia.
  - assert (0 ≤ f z) by (apply Hf; left).
    assert (f x ≤ sumZ f l) by (apply (IH i); [intros; apply Hf; by right | done]).
    lia.
Qed.

Lemma sumZ_ext {X : Type} (f g : X → Z) (l : list X) :
  (∀ x, x ∈ l → f x = g x) → sumZ f l = sumZ g l.
Proof.
  induction l as [|x l IH]; intros Hfg; simpl; [done|].
  rewrite Hfg by left. rewrite IH; [done|]. intros; apply Hfg; by right.
Qed.

Lemma sumZ_zero {X : Type} (f : X → Z) (l : list X) :
  (∀ x, x ∈ l → f x = 0) → sumZ f l = 0.
Proof.
  induction l as [|x l IH]; intros Hf; simpl; [done|].
  rewrite Hf by left. rewrite IH; [done|]. intros; apply Hf; by right.
Qed.

(** ** Claimed ranges and queue ranges *)

Definition ev_item (e : Event) : Z :=
  match e with EvDrain _ item _ => item | EvSteal _ _ item => item end.

Definition ev_amt (e : Event) : Z :=
  match e with EvDrain _ _ amt => amt | EvSteal _ _ _ => GRANULARITY end.

(** The thread that took the range. *)
Definition ev_tid (e : Event) : Z :=
  match e with EvDrain tid _ _ => tid | EvSteal tid _ _ => tid end.

(** Index [k] lies in the range an event took. *)
Definition covers (k : Z) (e : Event) : bool :=
  (ev_item e <=? k) && (k <? ev_item e + ev_amt e).

(** Index [k] is still waiting in queue [q]. *)
Definition queued (k : Z) (q : WorkQueue) : bool :=
  (next q <=? k) && (k <? last q).

Definition ind (b : bool) : Z := if b then 1 else 0.

Definition count_ev (k : Z) (log : list Event) : Z := sumZ (λ e, ind (covers k e)) log.
Definition count_q (k : Z) (qs : list WorkQueue) : Z := sumZ (λ q, ind (queued k q)) qs.
Definition claimed (log : list Event) : Z := sumZ ev_amt log.
Definition waiting (qs : list WorkQueue) : Z := sumZ (λ q, last q - next q) qs.

(** ** Addresses of the strided slots *)

(** The address of element [k] of argument [i] (the output is argument [A]). *)
Definition addr (common : ContextCommon) (i : nat) (k : Z) : Z :=
  (args common !!! i + k * (steps common !!! i)) mod 2 ^ 64.

Lemma ptr_add_offset (common : ContextCommon) (i : nat) (item : Z) :
  ptr_add (args common !!! i) (to_intp (item * (steps common !!! i)))
  = addr common i item.
Proof.
  unfold ptr_add, addr.
  rewrite Zplus_mod, to_intp_mod, <- Zplus_mod. done.
Qed.

Lemma ptr_add_step (common : ContextCommon) (i : nat) (k : Z) :
  ptr_add (addr common i k) (steps common !!! i) = addr common i (k + 1).
Proof.
  unfold ptr_add, addr. rewrite Zplus_mod_idemp_l. f_equal. lia.
Qed.

Lemma zip_with_fmap_same {X Y Z' W : Type} (h : Y → Z' → W) (f : X → Y)
    (g : X → Z') (l : list X) :
  zip_with h (f <$> l) (g <$> l) = (λ x, h (f x) (g x)) <$> l.
Proof. induction l as [|x l IH]; [done|]. rewrite !fmap_cons. simpl. by rewrite IH. Qed.

Section Verification.

Context {V : Type}.
Variable A : nat.
Variable kernel : Kernel V.

#[local] Abbreviation State := (@State V).

(** All [A + 1] pointers of [_do_work] when it stands at element [k]. *)
Definition ptrs_at (common : ContextCommon) (k : Z) : list Z :=
  (λ i, addr common i k) <$> seq 0 (S A).

(** The values the kernel is called with at element [k]: for each input
    the bytes of its slot. *)
Definition inputs (common : ContextCommon) (m : Z → V) (k : Z) : list (list V) :=
  (λ i, load m (addr common i k) (arg_size kernel i)) <$> seq 0 A.

Lemma init_arg_ptrs_eq (common : ContextCommon) (item : Z) :
  init_arg_ptrs A common item = ptrs_at common item.
Proof.
  unfold init_arg_ptrs, ptrs_at. apply list_fmap_ext.
  intros _ i _. apply ptr_add_offset.
Qed.

Lemma do_work_iter_eq (common : ContextCommon) (m : Z → V) (k : Z) :
  do_work_iter A kernel common (ptrs_at common k) m
  = (ptrs_at common (k + 1),
     store m (addr common A k) (kernel (inputs common m k))).
Proof.
  unfold do_work_iter, ptrs_at, arg_steps. f_equal.
  - rewrite zip_with_fmap_same. apply list_fmap_ext.
    intros _ i _. apply ptr_add_step.
  - f_equal.
    + apply list_lookup_total_correct.
      rewrite list_lookup_fmap, lookup_seq_lt by lia. done.
    + f_equal. unfold inputs.
      rewrite <- fmap_take, take_seq, Nat.min_l by lia.
      apply list_eq. intros i.
      rewrite list_lookup_imap, !list_lookup_fmap.
      destruct (seq 0 A !! i) as [i'|] eqn:Hi; [|done].
      apply lookup_seq in Hi as [-> _]. done.
Qed.

(** ** Transitions in closed form *)

Definition locked_as (v : Z) (q : WorkQueue) : WorkQueue :=
  mkWorkQueue (next q) (last q) v.

(** What one step of thread [t] does, free of wrap-around and faults: from
    context [c] at [pc], reading queue [i] as [q] and leaving it as [q']
    ([touch = Some (i, q, q')]), to [c'] at [pc'], with an optional store
    [w] of a value at an address and the ranges [evs] taken. *)
Inductive Trans (common : ContextCommon) (t : nat) (m : Z → V) :
    Context → Pc → option (nat * WorkQueue * WorkQueue) →
    Context → Pc → option (Z * list V) → list Event → Prop :=
| T_drain_spin c q :
    lock q = 1 →
    Trans common t m c DrainLock (Some (t, q, q)) c DrainLock None []
| T_drain_lock c q :
    lock q = 0 →
    Trans common t m c DrainLock (Some (t, q, locked_as 1 q)) c DrainCrit None []
| T_drain_crit c q amt :
    amt = Z.min GRANULARITY (last q - next q) →
    Trans common t m c DrainCrit
      (Some (t, q, mkWorkQueue (next q + amt) (last q) (lock q)))
      c (DrainUnlock (next q) amt (last q)) None
      [EvDrain (Z.of_nat t) (next q) amt]
| T_drain_break c q item amt lst :
    lock q = 1 → lst ≤ item →
    Trans common t m c (DrainUnlock item amt lst) (Some (t, q, locked_as 0 q))
      c (StealCond 1) None []
| T_drain_work c q item amt lst :
    lock q = 1 → item < lst →
    Trans common t m c (DrainUnlock item amt lst) (Some (t, q, locked_as 0 q))
      c (Work KDrain item amt 0 (ptrs_at common item)) None []
| T_work_iter c k item count j :
    j < count →
    Trans common t m c (Work k item count j (ptrs_at common (item + j))) None
      c (Work k item count (j + 1) (ptrs_at common (item + j + 1)))
      (Some (addr common A (item + j), kernel (inputs common m (item + j)))) []
| T_work_end_drain c item count j ptrs :
    count ≤ j →
    Trans common t m c (Work KDrain item count j ptrs) None
      (mkContext (id c) (to_intp (completed c + count))) DrainLock None []
| T_work_end_steal c i item count j ptrs :
    count ≤ j →
    Trans common t m c (Work (KSteal i) item count j ptrs) None
      (mkContext (id c) (to_intp (completed c + count))) (StealFor (i + 1) 1)
      None []
| T_cond_stop c :
    Trans common t m c (StealCond 0) None c Done None []
| T_cond_again c sc :
    sc ≠ 0 →
    Trans common t m c (StealCond sc) None c (StealFor 0 0) None []
| T_for_self c i sc :
    i < num_thread common → i = Z.of_nat t →
    Trans common t m c (StealFor i sc) None c (StealFor (i + 1) sc) None []
| T_for_peer c i sc :
    i < num_thread common → i ≠ Z.of_nat t →
    Trans common t m c (StealFor i sc) None c (StealLock i sc) None []
| T_for_end c i sc :
    num_thread common ≤ i →
    Trans common t m c (StealFor i sc) None c (StealCond sc) None []
| T_steal_spin c i sc q :
    lock q = 1 →
    Trans common t m c (StealLock i sc) (Some (Z.to_nat i, q, q))
      c (StealLock i sc) None []
| T_steal_lock c i sc q :
    lock q = 0 →
    Trans common t m c (StealLock i sc) (Some (Z.to_nat i, q, locked_as 1 q))
      c (StealCrit i sc) None []
| T_steal_take c i sc q :
    next q ≤ last q - GRANULARITY →
    Trans common t m c (StealCrit i sc)
      (Some (Z.to_nat i, q, mkWorkQueue (next q) (last q - GRANULARITY) (lock q)))
      c (StealUnlockThen i sc (last q - GRANULARITY)) None
      [EvSteal (Z.of_nat t) i (last q - GRANULARITY)]
| T_steal_leave c i sc q :
    last q - GRANULARITY < next q →
    Trans common t m c (StealCrit i sc) (Some (Z.to_nat i, q, q))
      c (StealUnlockElse i sc) None []
| T_steal_unlock_then c i sc item q :
    lock q = 1 →
    Trans common t m c (StealUnlockThen i sc item)
      (Some (Z.to_nat i, q, locked_as 0 q))
      c (Work (KSteal i) item GRANULARITY 0 (ptrs_at common item)) None []
| T_steal_unlock_else c i sc q :
    lock q = 1 →
    Trans common t m c (StealUnlockElse i sc)
      (Some (Z.to_nat i, q, locked_as 0 q))
      c (StealFor (i + 1) sc) None [].

Definition touch_queues (touch : option (nat * WorkQueue * WorkQueue))
    (qs : list WorkQueue) : list WorkQueue :=
  match touch with
  | Some (i, _, q') => <[i := q']> qs
  | None => qs
  end.

Definition touch_reads (touch : option (nat * WorkQueue * WorkQueue))
    (qs : list WorkQueue) : Prop :=
  match touch with
  | Some (i, q, _) => qs !! i = Some q
  | None => True
  end.

Definition write_mem (w : option (Z * list V)) (m : Z → V) : Z → V :=
  match w with
  | Some (p, v) => store m p v
  | None => m
  end.

(** The state after a transition of thread [t]. *)
Definition after (t : nat) (st : State) (touch : option (nat * WorkQueue * WorkQueue))
    (c' : Context) (pc' : Pc) (w : option (Z * list V)) (evs : list Event) : State :=
  mkState (st_common st) (touch_queues touch (st_workqueues st))
          (<[t := mkThread c' pc']> (st_threads st))
          (write_mem w (st_mem st)) (st_log st ++ evs).

Inductive Step (t : nat) (st : State) : State → Prop :=
| Step_intro c pc touch c' pc' w evs :
    st_threads st !! t = Some (mkThread c pc) →
    touch_reads touch (st_workqueues st) →
    Trans (st_common st) t (st_mem st) c pc touch c' pc' w evs →
    Step t st (after t st touch c' pc' w evs).

(** ** Well-formed states *)

(** The batch size [N = dimensions[0]]. *)
Definition batch (st : State) : Z := dimensions (st_common st) !!! 0%nat.

(** The queue whose lock a thread at [pc] holds. *)
Definition holds (t : nat) (pc : Pc) : option nat :=
  match pc with
  | DrainCrit | DrainUnlock _ _ _ => Some t
  | StealCrit i _ | StealUnlockThen i _ _ | StealUnlockElse i _ => Some (Z.to_nat i)
  | _ => None
  end.

(** The thread has left its drain loop, or is about to. *)
Definition drained (pc : Pc) : bool :=
  match pc with
  | DrainLock | DrainCrit => false
  | DrainUnlock item _ lst => lst <=? item
  | Work KDrain _ _ _ _ => false
  | _ => true
  end.

(** What the locals at [pc] satisfy. *)
Definition pc_ok (common : ContextCommon) (N n : Z) (pc : Pc) : Prop :=
  match pc with
  | DrainUnlock item amt lst => 0 ≤ item ∧ 0 ≤ amt ∧ item + amt ≤ N
  | Work k item count j ptrs =>
      0 ≤ item ∧ 0 ≤ j ≤ count ∧ item + count ≤ N
      ∧ ptrs = ptrs_at common (item + j)
      ∧ match k with KDrain => True | KSteal i => 0 ≤ i < n end
  | StealFor i _ => 0 ≤ i ≤ n
  | StealLock i _ | StealCrit i _ | StealUnlockElse i _ => 0 ≤ i < n
  | StealUnlockThen i _ item => 0 ≤ i < n ∧ 0 ≤ item ∧ item + GRANULARITY ≤ N
  | Trap _ => False
  | _ => True
  end.

Definition queue_ok (N : Z) (q : WorkQueue) : Prop :=
  0 ≤ next q ≤ last q ∧ last q ≤ N ∧ (lock q = 0 ∨ lock q = 1).

Record WF (st : State) : Prop := mkWF {
  wf_len : length (st_workqueues st) = length (st_threads st);
  wf_nthr : num_thread (st_common st) = Z.of_nat (length (st_threads st));
  wf_nmax : Z.of_nat (length (st_threads st)) ≤ int_max;
  wf_N : 0 ≤ batch st ≤ intp_max;
  wf_id : ∀ t th, st_threads st !! t = Some th → id (th_ctx th) = Z.of_nat t;
  wf_queue : ∀ i q, st_workqueues st !! i = Some q → queue_ok (batch st) q;
  wf_pc : ∀ t th, st_threads st !! t = Some th →
          pc_ok (st_common st) (batch st) (Z.of_nat (length (st_threads st))) (th_pc th);
  wf_held : ∀ t th i, st_threads st !! t = Some th → holds t (th_pc th) = Some i →
            ∃ q, st_workqueues st !! i = Some q ∧ lock q = 1;
  wf_excl : ∀ t1 t2 th1 th2 i,
            st_threads st !! t1 = Some th1 → st_threads st !! t2 = Some th2 →
            holds t1 (th_pc th1) = Some i → holds t2 (th_pc th2) = Some i → t1 = t2;
  wf_owner : ∀ i q, st_workqueues st !! i = Some q → lock q = 1 →
             ∃ t th, st_threads st !! t = Some th ∧ holds t (th_pc th) = Some i;
  wf_drained : ∀ t th q, st_threads st !! t = Some th → st_workqueues st !! t = Some q →
               drained (th_pc th) = true → next q = last q
}.

Lemma after_same (t : nat) (st : State) (i : nat) (q : WorkQueue) (c : Context) (pc : Pc) :
  st_threads st !! t = Some (mkThread c pc) →
  st_workqueues st !! i = Some q →
  after t st (Some (i, q, q)) c pc None [] = st.
Proof.
  intros Ht Hq. destruct st as [cm qs ths m lg]. unfold after. simpl in *.
  rewrite !list_insert_id by done. by rewrite app_nil_r.
Qed.

Lemma queue_of_peer (st : State) (i : Z) :
  WF st → 0 ≤ i < Z.of_nat (length (st_threads st)) →
  ∃ q, lookupZ (st_workqueues st) i = Some q
       ∧ st_workqueues st !! Z.to_nat i = Some q
       ∧ queue_ok (batch st) q.
Proof.
  intros Hwf Hi.
  destruct (lookup_lt_is_Some_2 (st_workqueues st) (Z.to_nat i)) as [q Hq].
  { rewrite (wf_len _ Hwf). lia. }
  exists q. split; [|split; [done|]].
  - apply lookupZ_Some. split; [lia|done].
  - by apply (wf_queue _ Hwf) in Hq.
Qed.

Ltac state_eq :=
  unfold after, set_pc, set_wq, set_mem, emit, touch_queues, write_mem; simpl;
  rewrite ?app_nil_r, ?Nat2Z.id; try done.

(** Under [WF] every step of the machine is one of the closed-form
    transitions: no access leaves the queue array, no [Unlock] traps, and
    no arithmetic wraps (except possibly the [completed] counter, which
    [Trans] keeps under [to_intp]). *)
Lemma step_sound (t : nat) (st st' : State) :
  WF st → step A kernel t st = Some st' → Step t st st'.
Proof.
  intros Hwf Hstep. unfold step in Hstep.
  destruct (st_threads st !! t) as [[c pc]|] eqn:Hth; simpl in Hstep; [|done].
  pose proof (wf_id _ Hwf _ _ Hth) as Hid. simpl in Hid.
  pose proof (wf_pc _ Hwf _ _ Hth) as Hpc. simpl in Hpc.
  pose proof (wf_N _ Hwf) as HN.
  pose proof (wf_nmax _ Hwf) as Hnmax.
  pose proof int_max_le_intp_max as Hmm.
  assert (Ht : 0 ≤ Z.of_nat t < Z.of_nat (length (st_threads st))).
  { apply lookup_lt_Some in Hth. lia. }
  rewrite Hid in Hstep.
  destruct pc as [| |item amt lst|k item count j ptrs|sc|i sc|i sc|i sc
                  |i sc item|i sc| |why]; simpl in Hpc.
  - (* DrainLock *)
    destruct (queue_of_peer st _ Hwf Ht) as (q & Hq & Hq' & Hqok).
    rewrite Nat2Z.id in Hq'. rewrite Hq in Hstep.
    unfold Lock, atomic_cmpxchg in Hstep.
    destruct Hqok as (_ & _ & [Hl|Hl]); rewrite Hl in Hstep; simpl in Hstep;
      simplify_eq.
    + replace (set_pc _ _ _ _)
        with (after t st (Some (t, q, locked_as 1 q)) c DrainCrit None [])
        by state_eq.
      econstructor; [done|done|]. by constructor.
    + replace (set_pc _ _ _ _)
        with (after t st (Some (t, q, q)) c DrainLock None []).
      2:{ state_eq. }
      econstructor; [done|done|]. by constructor.
  - (* DrainCrit *)
    destruct (queue_of_peer st _ Hwf Ht) as (q & Hq & Hq' & Hqok).
    rewrite Nat2Z.id in Hq'. rewrite Hq in Hstep. simplify_eq.
    destruct Hqok as (Hnl & HlN & _).
    rewrite (to_intp_id (last q - next q)) by lia.
    set (amt := Z.min GRANULARITY (last q - next q)).
    assert (0 ≤ amt ≤ last q - next q) by (unfold amt, GRANULARITY; lia).
    rewrite (to_intp_id (next q + amt)) by lia.
    replace (emit _ _)
      with (after t st (Some (t, q, mkWorkQueue (next q + amt) (last q) (lock q)))
              c (DrainUnlock (next q) amt (last q)) None
              [EvDrain (Z.of_nat t) (next q) amt]) by state_eq.
    econstructor; [done|done|]. by constructor.
  - (* DrainUnlock *)
    destruct (wf_held _ Hwf t _ t Hth eq_refl) as (q & Hq' & Hl).
    assert (lookupZ (st_workqueues st) (Z.of_nat t) = Some q) as Hq
      by (by rewrite lookupZ_of_nat).
    rewrite Hq in Hstep. unfold Unlock, atomic_cmpxchg in Hstep.
    rewrite Hl in Hstep. simpl in Hstep.
    destruct (Z.leb_spec lst item); simplify_eq.
    + replace (set_pc _ _ _ _)
        with (after t st (Some (t, q, locked_as 0 q)) c (StealCond 1) None [])
        by state_eq.
      econstructor; [done|done|]. by constructor.
    + rewrite init_arg_ptrs_eq.
      replace (set_pc _ _ _ _)
        with (after t st (Some (t, q, locked_as 0 q)) c
                (Work KDrain item amt 0 (ptrs_at (st_common st) item)) None [])
        by state_eq.
      econstructor; [done|done|]. by constructor.
  - (* Work *)
    destruct Hpc as (Hitem & Hj & Hcount & -> & Hk).
    destruct (Z.ltb_spec j count).
    + pose proof (do_work_iter_eq (st_common st) (st_mem st) (item + j)) as Hiter.
      unfold do_work_iter in Hiter.
      pose proof (f_equal fst Hiter) as Hptrs.
      pose proof (f_equal snd Hiter) as Hmem.
      cbn [fst snd] in Hptrs, Hmem.
      rewrite Hptrs, Hmem in Hstep. simplify_eq.
      rewrite (to_intp_id (j + 1)) by lia.
      replace (set_pc _ _ _ _)
        with (after t st None c
                (Work k item count (j + 1) (ptrs_at (st_common st) (item + j + 1)))
                (Some (addr (st_common st) A (item + j),
                       kernel (inputs (st_common st) (st_mem st) (item + j)))) [])
        by state_eq.
      econstructor; [done|done|]. by constructor.
    + destruct k as [|i]; simplify_eq.
      * rewrite <- Hid.
        replace (set_pc _ _ _ _)
          with (after t st None (mkContext (id c) (to_intp (completed c + count)))
                  DrainLock None []) by state_eq.
        econstructor; [done|done|]. by constructor.
      * rewrite <- Hid. rewrite (to_int_id (i + 1)) by lia.
        replace (set_pc _ _ _ _)
          with (after t st None (mkContext (id c) (to_intp (completed c + count)))
                  (StealFor (i + 1) 1) None []) by state_eq.
        econstructor; [done|done|]. by constructor.
  - (* StealCond *)
    destruct (Z.eqb_spec sc 0); simplify_eq.
    + replace (set_pc _ _ _ _) with (after t st None c Done None []) by state_eq.
      econstructor; [done|done|]. by constructor.
    + replace (set_pc _ _ _ _) with (after t st None c (StealFor 0 0) None [])
        by state_eq.
      econstructor; [done|done|]. by constructor.
  - (* StealFor *)
    pose proof (wf_nthr _ Hwf) as Hn.
    destruct (Z.ltb_spec i (num_thread (st_common st))).
    + destruct (Z.eqb_spec i (Z.of_nat t)); simplify_eq.
      * rewrite (to_int_id (Z.of_nat t + 1)) by lia.
        replace (set_pc _ _ _ _)
          with (after t st None c (StealFor (Z.of_nat t + 1) sc) None []) by state_eq.
        econstructor; [done|done|]. by constructor.
      * replace (set_pc _ _ _ _)
          with (after t st None c (StealLock i sc) None []) by state_eq.
        econstructor; [done|done|]. by constructor.
    + simplify_eq.
      replace (set_pc _ _ _ _)
        with (after t st None c (StealCond sc) None []) by state_eq.
      econstructor; [done|done|]. by constructor.
  - (* StealLock *)
    destruct (queue_of_peer st _ Hwf Hpc) as (q & Hq & Hq' & Hqok).
    rewrite Hq in Hstep. unfold Lock, atomic_cmpxchg in Hstep.
    destruct Hqok as (_ & _ & [Hl|Hl]); rewrite Hl in Hstep; simpl in Hstep;
      simplify_eq.
    + replace (set_pc _ _ _ _)
        with (after t st (Some (Z.to_nat i, q, locked_as 1 q)) c (StealCrit i sc) None [])
        by state_eq.
      econstructor; [done|done|]. by constructor.
    + replace (set_pc _ _ _ _)
        with (after t st (Some (Z.to_nat i, q, q)) c (StealLock i sc) None [])
        by state_eq.
      econstructor; [done|done|]. by constructor.
  - (* StealCrit *)
    destruct (queue_of_peer st _ Hwf Hpc) as (q & Hq & Hq' & Hqok).
    rewrite Hq in Hstep. destruct Hqok as (Hnl & HlN & _).
    unfold GRANULARITY in Hstep.
    rewrite (to_intp_id (last q - 256)) in Hstep by lia.
    destruct (Z.leb_spec (next q) (last q - 256)); simplify_eq.
    + replace (emit _ _)
        with (after t st
                (Some (Z.to_nat i, q, mkWorkQueue (next q) (last q - GRANULARITY) (lock q)))
                c (StealUnlockThen i sc (last q - GRANULARITY)) None
                [EvSteal (Z.of_nat t) i (last q - GRANULARITY)]) by state_eq.
      econstructor; [done|done|]. by constructor.
    + replace (set_pc _ _ _ _)
        with (after t st (Some (Z.to_nat i, q, q)) c (StealUnlockElse i sc) None []).
      2:{ state_eq. by rewrite (list_insert_id _ _ _ Hq'). }
      econstructor; [done|done|]. constructor. unfold GRANULARITY. lia.
  - (* StealUnlockThen *)
    destruct Hpc as (Hi & Hitem & Hend).
    destruct (wf_held _ Hwf t _ (Z.to_nat i) Hth eq_refl) as (q & Hq' & Hl).
    assert (lookupZ (st_workqueues st) i = Some q) as Hq
      by (apply lookupZ_Some; split; [lia|done]).
    rewrite Hq in Hstep. unfold Unlock, atomic_cmpxchg in Hstep.
    rewrite Hl in Hstep. simpl in Hstep. simplify_eq.
    rewrite init_arg_ptrs_eq.
    replace (set_pc _ _ _ _)
      with (after t st (Some (Z.to_nat i, q, locked_as 0 q)) c
              (Work (KSteal i) item GRANULARITY 0 (ptrs_at (st_common st) item))
              None []) by state_eq.
    econstructor; [done|done|]. by constructor.
  - (* StealUnlockElse *)
    destruct (wf_held _ Hwf t _ (Z.to_nat i) Hth eq_refl) as (q & Hq' & Hl).
    assert (lookupZ (st_workqueues st) i = Some q) as Hq
      by (apply lookupZ_Some; split; [lia|done]).
    rewrite Hq in Hstep. unfold Unlock, atomic_cmpxchg in Hstep.
    rewrite Hl in Hstep. simpl in Hstep. simplify_eq.
    rewrite (to_int_id (i + 1)) by lia.
    replace (set_pc _ _ _ _)
      with (after t st (Some (Z.to_nat i, q, locked_as 0 q)) c
              (StealFor (i + 1) sc) None []) by state_eq.
    econstructor; [done|done|]. by constructor.
  - done.
  - done.
Qed.

(** ** What a transition does to its thread and to the queue it touches *)

Section Local.

Variables (cm : ContextCommon) (t : nat) (m : Z → V).
Variables (c : Context) (pc : Pc) (touch : option (nat * WorkQueue * WorkQueue)).
Variables (c' : Context) (pc' : Pc) (w : option (Z * list V)) (evs : list Event).
Hypothesis Htrans : Trans cm t m c pc touch c' pc' w evs.

Lemma trans_id : id c' = id c.
Proof. by destruct Htrans. Qed.

Lemma trans_queue_ok (N : Z) (i : nat) (q q' : WorkQueue) :
  touch = Some (i, q, q') → queue_ok N q → queue_ok N q'.
Proof.
  unfold queue_ok.
  destruct Htrans; intros ? (Hnl & HlN & Hlk); simplify_eq; simpl;
    unfold GRANULARITY in *;
    try (split; [|split]; (lia || tauto)).
Qed.

Lemma trans_pc_ok (N n : Z) :
  num_thread cm = n → 0 ≤ n → pc_ok cm N n pc →
  (∀ i q q', touch = Some (i, q, q') → queue_ok N q) →
  pc_ok cm N n pc'.
Proof.
  intros Hn Hn0 Hpc Hq. unfold queue_ok in *.
  destruct Htrans; simpl in *; unfold GRANULARITY in *; try done; try lia.
  - specialize (Hq _ _ _ eq_refl). lia.
  - rewrite Z.add_0_r. intuition lia.
  - destruct Hpc as (? & ? & ? & ? & ?).
    rewrite <- Z.add_assoc. intuition lia.
  - specialize (Hq _ _ _ eq_refl). lia.
  - rewrite Z.add_0_r. intuition lia.
Qed.

(** A transition keeps the lock it holds, or takes a free one, or gives
    back the one it holds. *)
Lemma trans_lock_class :
  match touch with
  | None => holds t pc' = holds t pc
  | Some (i, q, q') =>
      (lock q' = lock q ∧ holds t pc' = holds t pc)
      ∨ (lock q = 0 ∧ lock q' = 1 ∧ holds t pc = None ∧ holds t pc' = Some i)
      ∨ (lock q = 1 ∧ lock q' = 0 ∧ holds t pc = Some i ∧ holds t pc' = None)
  end.
Proof. destruct Htrans; simpl; try done; try (by left); try (by right; left); by right; right. Qed.

Lemma trans_empty (i : nat) (q q' : WorkQueue) :
  touch = Some (i, q, q') → next q = last q → next q' = last q'.
Proof.
  destruct Htrans; intros; simplify_eq; simpl; unfold GRANULARITY in *;
    try done; lia.
Qed.

Lemma trans_drained :
  drained pc' = true →
  drained pc = true
  ∨ ∃ q q', touch = Some (t, q, q') ∧ (next q ≤ last q → next q' = last q').
Proof.
  destruct Htrans; simpl; intros Hd; unfold GRANULARITY in *;
    try done; try (by left).
  - right. do 2 eexists. split; [done|]. simpl. lia.
  - left. lia.
Qed.

(** The queue only shrinks, from the front by its owner and from the back
    by a peer. *)
Lemma trans_monotone (N : Z) (i : nat) (q q' : WorkQueue) :
  touch = Some (i, q, q') → queue_ok N q →
  next q ≤ next q' ∧ last q' ≤ last q.
Proof.
  unfold queue_ok.
  destruct Htrans; intros ? (Hnl & HlN & Hlk); simplify_eq; simpl;
    unfold GRANULARITY in *; lia.
Qed.

End Local.

(** ** Steps keep states well-formed *)

Lemma touch_queues_length touch (qs : list WorkQueue) :
  length (touch_queues touch qs) = length qs.
Proof. destruct touch as [[[i q] q']|]; simpl; [apply length_insert|done]. Qed.

(** A queue after a transition is the one written, or an untouched one. *)
Lemma touch_queues_lookup touch (qs : list WorkQueue) (j : nat) (q : WorkQueue) :
  touch_queues touch qs !! j = Some q →
  (∃ q0, touch = Some (j, q0, q))
  ∨ ((∀ q0 q1, touch ≠ Some (j, q0, q1)) ∧ qs !! j = Some q).
Proof.
  destruct touch as [[[i q0] q1]|]; simpl.
  - intros [(-> & <- & _)|(Hne & Hl)]%list_lookup_insert_Some.
    + left. by eexists.
    + right. split; [|done]. intros ?? [=]. done.
  - intros Hl. right. split; [|done]. intros ?? [=].
Qed.

Lemma touch_queues_written (qs : list WorkQueue) (i : nat) (q q' : WorkQueue) :
  qs !! i = Some q → touch_queues (Some (i, q, q')) qs !! i = Some q'.
Proof. intros Hq. simpl. apply list_lookup_insert_eq. by eapply lookup_lt_Some. Qed.

Lemma touch_queues_other touch (qs : list WorkQueue) (j : nat) :
  (∀ q0 q1, touch ≠ Some (j, q0, q1)) →
  touch_queues touch qs !! j = qs !! j.
Proof.
  destruct touch as [[[i q0] q1]|]; simpl; [|done].
  intros Hne. apply list_lookup_insert_ne. intros ->. by eapply Hne.
Qed.

Lemma step_WF (t : nat) (st st' : State) : WF st → Step t st st' → WF st'.
Proof.
  intros Hwf [c pc touch c' pc' w evs Hth Hreads Htr].
  pose proof (trans_lock_class _ _ _ _ _ _ _ _ _ _ Htr) as Hcls.
  assert (Htlt : (t < length (st_threads st))%nat) by (by eapply lookup_lt_Some).
  assert (Hnew : <[t := mkThread c' pc']> (st_threads st) !! t
                 = Some (mkThread c' pc')) by (by apply list_lookup_insert_eq).
  constructor; unfold after; cbn [st_common st_workqueues st_threads st_mem st_log];
    change (batch (mkState (st_common st) _ _ _ _)) with (batch st).
  - rewrite touch_queues_length, length_insert. apply Hwf.
  - rewrite length_insert. apply Hwf.
  - rewrite length_insert. apply Hwf.
  - apply Hwf.
  - intros t' th' [(-> & <- & _)|(Hne & Hl)]%list_lookup_insert_Some.
    + simpl. rewrite (trans_id _ _ _ _ _ _ _ _ _ _ Htr).
      apply (wf_id _ Hwf _ _ Hth).
    + by apply (wf_id _ Hwf _ _ Hl).
  - intros i q [[q0 ->]|[_ Hl]]%touch_queues_lookup.
    + eapply trans_queue_ok; [done..|]. by apply (wf_queue _ Hwf i).
    + by apply (wf_queue _ Hwf i).
  - intros t' th' [(-> & <- & _)|(Hne & Hl)]%list_lookup_insert_Some;
      rewrite length_insert.
    + simpl. eapply trans_pc_ok; [done| apply Hwf | lia | |].
      * apply (wf_pc _ Hwf _ _ Hth).
      * intros i q q' ->. by apply (wf_queue _ Hwf i).
    + by apply (wf_pc _ Hwf _ _ Hl).
  - (* a held lock reads 1 *)
    intros t' th' i [(-> & <- & _)|(Hne & Hl)]%list_lookup_insert_Some Hh.
    + simpl in Hh. destruct touch as [[[i0 q0] q0']|]; simpl in Hreads.
      * destruct Hcls as [(Hlk & Hsame)|[(Hl0 & Hl1 & Hnone & Hsome)|(_ & _ & _ & Hnone)]].
        -- rewrite Hsame in Hh.
           destruct (wf_held _ Hwf _ _ _ Hth Hh) as (q & Hq & Hq1).
           destruct (decide (i = i0)) as [->|Hne].
           ++ exists q0'. split; [by apply touch_queues_written|]. simplify_eq. lia.
           ++ exists q. split; [|done]. rewrite touch_queues_other; [done|].
              intros ?? [=]. done.
        -- rewrite Hsome in Hh. simplify_eq.
           exists q0'. split; [by apply touch_queues_written|done].
        -- rewrite Hnone in Hh. done.
      * rewrite Hcls in Hh. by apply (wf_held _ Hwf _ _ _ Hth).
    + destruct (wf_held _ Hwf _ _ _ Hl Hh) as (q & Hq & Hq1).
      destruct touch as [[[i0 q0] q0']|]; simpl in Hreads; [|by exists q].
      destruct (decide (i = i0)) as [->|Hnei].
      * exists q0'. split; [by apply touch_queues_written|]. simplify_eq.
        destruct Hcls as [(Hlk & _)|[(Hl0 & _)|(_ & _ & Hheld & _)]]; [lia|lia|].
        exfalso. apply Hne. by apply (wf_excl _ Hwf _ _ _ _ _ Hth Hl Hheld Hh).
      * exists q. split; [|done]. rewrite touch_queues_other; [done|].
        intros ?? [=]. done.
  - (* at most one holder *)
    assert (Hone : ∀ t2 th2 i, st_threads st !! t2 = Some th2 → t2 ≠ t →
               holds t pc' = Some i → holds t2 (th_pc th2) = Some i → False).
    { intros t2 th2 i Hl2 Hne Hh Hh2.
      destruct touch as [[[i0 q0] q0']|]; simpl in Hreads.
      - destruct Hcls as [(_ & Hsame)|[(Hl0 & _ & _ & Hsome)|(_ & _ & _ & Hnone)]].
        + rewrite Hsame in Hh. apply Hne.
          by apply (wf_excl _ Hwf _ _ _ _ _ Hl2 Hth Hh2 Hh).
        + rewrite Hsome in Hh. simplify_eq.
          destruct (wf_held _ Hwf _ _ _ Hl2 Hh2) as (q & Hq & Hq1). simplify_eq. lia.
        + rewrite Hnone in Hh. done.
      - rewrite Hcls in Hh. apply Hne.
        by apply (wf_excl _ Hwf _ _ _ _ _ Hl2 Hth Hh2 Hh). }
    intros t1 t2 th1 th2 i
      [(-> & <- & _)|(Hne1 & Hl1)]%list_lookup_insert_Some
      [(-> & <- & _)|(Hne2 & Hl2)]%list_lookup_insert_Some Hh1 Hh2; simpl in *.
    + done.
    + exfalso. by eapply (Hone t2 th2 i).
    + exfalso. by eapply (Hone t1 th1 i).
    + by apply (wf_excl _ Hwf _ _ _ _ _ Hl1 Hl2 Hh1 Hh2).
  - (* a lock that reads 1 has a holder *)
    assert (Hkeep : ∀ i t0 th0, st_threads st !! t0 = Some th0 →
               holds t0 (th_pc th0) = Some i →
               (t0 = t → holds t pc' = Some i) →
               ∃ t1 th1, <[t := mkThread c' pc']> (st_threads st) !! t1 = Some th1
                         ∧ holds t1 (th_pc th1) = Some i).
    { intros i t0 th0 Hl0 Hh0 Hself. destruct (decide (t0 = t)) as [->|Hne].
      - exists t, (mkThread c' pc'). split; [done|]. by apply Hself.
      - exists t0, th0. split; [|done]. by rewrite list_lookup_insert_ne. }
    intros i q [[q0 ->]|[Hno Hl]]%touch_queues_lookup Hq1.
    + simpl in Hreads.
      destruct Hcls as [(Hlk & Hsame)|[(_ & _ & _ & Hsome)|(_ & Hl0 & _)]]; [| |lia].
      * destruct (wf_owner _ Hwf _ _ Hreads ltac:(lia)) as (t0 & th0 & Hl0 & Hh0).
        apply (Hkeep i t0 th0 Hl0 Hh0). intros ->. simplify_eq/=. congruence.
      * exists t, (mkThread c' pc'). split; [done|]. done.
    + destruct (wf_owner _ Hwf _ _ Hl Hq1) as (t0 & th0 & Hl0 & Hh0).
      apply (Hkeep i t0 th0 Hl0 Hh0). intros ->. simplify_eq/=.
      destruct touch as [[[i0 q0] q0']|]; [|congruence].
      destruct Hcls as [(_ & Hsame)|[(_ & _ & Hnone & _)|(_ & _ & Hheld & _)]];
        [congruence|congruence|].
      exfalso. apply (Hno q0 q0'). congruence.
  - (* an owner past its drain loop leaves an empty queue *)
    intros t' th' q' [(<- & <- & _)|(Hne & Hl)]%list_lookup_insert_Some Hq' Hd.
    + simpl in Hd.
      destruct (trans_drained _ _ _ _ _ _ _ _ _ _ Htr Hd)
        as [Hold|(q & qn & -> & Hemp)].
      * destruct (lookup_lt_is_Some_2 (st_workqueues st) t) as [qt Hqt].
        { rewrite (wf_len _ Hwf). done. }
        pose proof (wf_drained _ Hwf _ _ _ Hth Hqt Hold) as Hempty.
        apply touch_queues_lookup in Hq' as [[q0 ->]|[_ Hq']].
        -- simpl in Hreads. simplify_eq.
           by eapply (trans_empty _ _ _ _ _ _ _ _ _ _ Htr).
        -- by simplify_eq.
      * simpl in Hreads. rewrite (touch_queues_written _ _ _ _ Hreads) in Hq'.
        simplify_eq. apply Hemp.
        destruct (wf_queue _ Hwf _ _ Hreads) as (? & _). lia.
    + apply touch_queues_lookup in Hq' as [[q0 ->]|[_ Hq']].
      * simpl in Hreads.
        eapply (trans_empty _ _ _ _ _ _ _ _ _ _ Htr); [done|].
        by apply (wf_drained _ Hwf _ _ _ Hl Hreads).
      * by apply (wf_drained _ Hwf _ _ _ Hl Hq').
Qed.

(** ** The state at the spawn *)

Lemma initial_queues_length (ChunkSize nthr N : Z) :
  1 ≤ nthr → length (initial_queues ChunkSize nthr N) = Z.to_nat nthr.
Proof.
  intros Hn. unfold initial_queues.
  rewrite length_app, length_fmap, length_seqZ. simpl. lia.
Qed.

Lemma initial_queues_lookup (ChunkSize nthr N : Z) (i : nat) (q : WorkQueue) :
  1 ≤ nthr → initial_queues ChunkSize nthr N !! i = Some q →
  Z.of_nat i < nthr
  ∧ q = mkWorkQueue (Z.of_nat i * ChunkSize)
          (if decide (Z.of_nat i = nthr - 1) then N else (Z.of_nat i + 1) * ChunkSize) 0.
Proof.
  intros Hn. unfold initial_queues.
  intros [Hl|[Hge Hl]]%lookup_app_Some.
  - rewrite list_lookup_fmap in Hl.
    destruct (seqZ 0 (nthr - 1) !! i) as [z|] eqn:Hz; simplify_eq/=.
    apply lookup_seqZ in Hz as [-> Hlt].
    split; [lia|]. destruct (decide _); [lia|]. f_equal; lia.
  - rewrite length_fmap, length_seqZ in Hge, Hl.
    apply list_lookup_singleton_Some in Hl as [Hi <-].
    assert (Z.of_nat i = nthr - 1) as Hi' by lia.
    split; [lia|]. destruct (decide _); [|lia]. by rewrite Hi'.
Qed.

Lemma initial_contexts_lookup (nthr : Z) (t : nat) (c : Context) :
  initial_contexts nthr !! t = Some c → c = mkContext (Z.of_nat t) 0.
Proof.
  unfold initial_contexts. rewrite list_lookup_fmap.
  destruct (seqZ 0 nthr !! t) as [z|] eqn:Hz; intros; simplify_eq/=.
  apply lookup_seqZ in Hz as [-> _]. done.
Qed.

Lemma spawn_lookup (su : Setup) (m : Z → V) (t : nat) (th : Thread) :
  st_threads (spawn su m) !! t = Some th →
  ∃ c, su_contexts su !! t = Some c ∧ th = mkThread c DrainLock.
Proof.
  unfold spawn. simpl. rewrite list_lookup_fmap.
  destruct (su_contexts su !! t) as [c|]; intros; simplify_eq/=. by exists c.
Qed.

(** The initial ranges: blocks of [ChunkSize], the last one up to [N]. *)
Definition chunks_ok (ChunkSize nthr N : Z) : Prop :=
  1 ≤ nthr ≤ int_max ∧ 0 ≤ ChunkSize ∧ (nthr - 1) * ChunkSize ≤ N ≤ intp_max.

Lemma spawn_WF (cm : ContextCommon) (ChunkSize nthr N : Z) (m : Z → V) :
  chunks_ok ChunkSize nthr N →
  num_thread cm = nthr → dimensions cm !! 0%nat = Some N →
  WF (spawn (mkSetup cm (initial_queues ChunkSize nthr N) (initial_contexts nthr)) m).
Proof.
  intros (Hn & Hc & HN) Hnt Hd.
  assert (HlenC : length (initial_contexts nthr) = Z.to_nat nthr).
  { unfold initial_contexts. rewrite length_fmap, length_seqZ. done. }
  assert (Hb : ∀ x, batch (spawn (mkSetup cm (initial_queues ChunkSize nthr N) x) m) = N).
  { intros x. unfold batch. simpl. by apply list_lookup_total_correct. }
  constructor; rewrite ?Hb.
  - simpl. rewrite length_fmap, HlenC. apply initial_queues_length. lia.
  - simpl. rewrite length_fmap, HlenC. lia.
  - simpl. rewrite length_fmap, HlenC. lia.
  - nia.
  - intros t th (c & Hc' & ->)%spawn_lookup. simpl in *.
    by apply initial_contexts_lookup in Hc' as ->.
  - intros i q Hq. apply initial_queues_lookup in Hq as [Hi ->]; [|lia].
    unfold queue_ok. simpl. destruct (decide _); (split; [|split]; [nia | nia | by left]).
  - intros t th (c & _ & ->)%spawn_lookup. done.
  - intros t th i (c & _ & ->)%spawn_lookup. done.
  - intros t1 t2 th1 th2 i (c & _ & ->)%spawn_lookup. done.
  - intros i q Hq. apply initial_queues_lookup in Hq as [Hi ->]; [|lia]. done.
  - intros t th q (c & _ & ->)%spawn_lookup. done.
Qed.

(** The dispatcher on a batch of at least one element. *)
Lemma body_spec (T N : Z) (a d s : list Z) (dat : Z)
    (junk_wq : WorkQueue) (junk_ctx : Context) (m : Z → V) :
  1 ≤ T ≤ int_max → 1 ≤ N ≤ intp_max → d !! 0%nat = Some N →
  let ChunkSize := if N <? T then 1 else N / T in
  let nthr := if N <? T then N else T in
  body T a d s dat junk_wq junk_ctx m
  = Ok (spawn (mkSetup (mkContextCommon a d s dat nthr)
                 (initial_queues ChunkSize nthr N) (initial_contexts nthr)) m)
  ∧ chunks_ok ChunkSize nthr N ∧ 1 ≤ ChunkSize ∧ nthr * ChunkSize ≤ N.
Proof.
  intros HT HN Hd. simpl. unfold body.
  rewrite (setup_spec T N) by done. simpl. split; [done|].
  unfold chunks_ok. destruct (Z.ltb_spec N T).
  - lia.
  - assert (1 ≤ N / T) by (apply Z.div_le_lower_bound; lia).
    assert (T * (N / T) ≤ N) by (apply Z.mul_div_le; lia). nia.
Qed.

(** The dispatcher on an empty batch: the store to
    [workqueues[num_thread - 1]] lands before an array of length zero. *)
Lemma body_empty (T : Z) (a d s : list Z) (dat : Z)
    (junk_wq : WorkQueue) (junk_ctx : Context) (m : Z → V) :
  1 ≤ T ≤ int_max → d !! 0%nat = Some 0 →
  body T a d s dat junk_wq junk_ctx m = OutOfBounds (-1) 0.
Proof.
  intros HT Hd. unfold body, setup.
  rewrite (list_lookup_total_correct _ _ _ Hd).
  rewrite chunk_and_threads_spec by (rewrite ?intp_max_eq; lia).
  destruct (Z.ltb_spec 0 T); [|lia]. reflexivity.
Qed.

(** ** Running a schedule *)

Lemma tick_cases (t : nat) (st : State) :
  WF st → tick A kernel st t = st ∨ Step t st (tick A kernel st t).
Proof.
  intros Hwf. unfold tick.
  destruct (step A kernel t st) as [st'|] eqn:Hs; simpl; [|by left].
  right. by apply step_sound.
Qed.

Lemma tick_WF (t : nat) (st : State) : WF st → WF (tick A kernel st t).
Proof.
  intros Hwf. destruct (tick_cases t st Hwf) as [->|Hs]; [done|].
  by eapply step_WF.
Qed.

Lemma run_WF (sched : list nat) (st : State) : WF st → WF (run A kernel sched st).
Proof.
  revert st. induction sched as [|t sched IH]; intros st Hwf; [done|].
  simpl. apply IH. by apply tick_WF.
Qed.

Lemma run_app (s1 s2 : list nat) (st : State) :
  run A kernel (s1 ++ s2) st = run A kernel s2 (run A kernel s1 st).
Proof. unfold run. apply foldl_app. Qed.

(** ** Counting with indicators *)

Lemma ind_range (b : bool) : 0 ≤ ind b ≤ 1.
Proof. destruct b; simpl; lia. Qed.

Lemma ind_sum_nonneg {X : Type} (p : X → bool) (l : list X) :
  0 ≤ sumZ (λ x, ind (p x)) l.
Proof. apply sumZ_nonneg. intros x _. apply ind_range. Qed.

Lemma ind_sum_unique {X : Type} (p : X → bool) (l : list X) (i j : nat) (x y : X) :
  sumZ (λ x, ind (p x)) l ≤ 1 →
  l !! i = Some x → l !! j = Some y → p x = true → p y = true → i = j.
Proof.
  revert i j. induction l as [|z l IH]; intros i j Hsum Hi Hj Hx Hy; [done|].
  simpl in Hsum. pose proof (ind_sum_nonneg p l) as Hnn.
  destruct i as [|i], j as [|j]; simplify_eq/=; try done.
  - rewrite Hx in Hsum. simpl in Hsum.
    assert (ind (p y) ≤ sumZ (λ x, ind (p x)) l) as Hle.
    { apply (sumZ_elem_le (λ x, ind (p x)) l j); [|done].
      intros; apply ind_range. }
    rewrite Hy in Hle. simpl in Hle. lia.
  - rewrite Hy in Hsum. simpl in Hsum.
    assert (ind (p x) ≤ sumZ (λ x, ind (p x)) l) as Hle.
    { apply (sumZ_elem_le (λ x, ind (p x)) l i); [|done].
      intros; apply ind_range. }
    rewrite Hx in Hle. simpl in Hle. lia.
  - f_equal. apply IH; try done. unfold ind in Hsum at 1. destruct (p z); lia.
Qed.

Lemma ind_sum_exists {X : Type} (p : X → bool) (l : list X) :
  0 < sumZ (λ x, ind (p x)) l → ∃ i x, l !! i = Some x ∧ p x = true.
Proof.
  induction l as [|z l IH]; simpl; [lia|]. intros Hsum.
  destruct (p z) eqn:Hz.
  - by exists 0%nat, z.
  - simpl in Hsum. destruct (IH Hsum) as (i & x & Hi & Hx). by exists (S i), x.
Qed.

Lemma ind_sum_elem {X : Type} (p : X → bool) (l : list X) (i : nat) (x : X) :
  l !! i = Some x → p x = true → 1 ≤ sumZ (λ x, ind (p x)) l.
Proof.
  intros Hi Hx.
  assert (ind (p x) ≤ sumZ (λ x, ind (p x)) l) as Hle.
  { apply (sumZ_elem_le (λ x, ind (p x)) l i); [|done].
    intros; apply ind_range. }
  rewrite Hx in Hle. done.
Qed.

(** ** The initial ranges tile [0, N) *)

Lemma regular_waiting (ChunkSize : Z) (k : nat) :
  waiting ((λ i, mkWorkQueue (i * ChunkSize) ((i + 1) * ChunkSize) 0)
             <$> seqZ 0 (Z.of_nat k))
  = Z.of_nat k * ChunkSize.
Proof.
  unfold waiting. induction k as [|k IH]; [done|].
  rewrite seqZ_S, fmap_app, sumZ_app, IH. simpl. lia.
Qed.

Lemma regular_count (ChunkSize x : Z) (k : nat) :
  0 ≤ ChunkSize →
  count_q x ((λ i, mkWorkQueue (i * ChunkSize) ((i + 1) * ChunkSize) 0)
               <$> seqZ 0 (Z.of_nat k))
  = ind ((0 <=? x) && (x <? Z.of_nat k * ChunkSize)).
Proof.
  intros Hc. unfold count_q. induction k as [|k IH].
  - change (Z.of_nat 0) with 0. rewrite Z.mul_0_l. simpl.
    destruct (Z.leb_spec 0 x), (Z.ltb_spec x 0); simpl; try done; lia.
  - rewrite seqZ_S, fmap_app, sumZ_app, IH. simpl. unfold queued, ind. simpl.
    assert (0 ≤ Z.of_nat k * ChunkSize) by nia.
    assert (Z.of_nat (S k) * ChunkSize = Z.of_nat k * ChunkSize + ChunkSize) as -> by lia.
    assert ((0 + Z.of_nat k + 1) * ChunkSize = Z.of_nat k * ChunkSize + ChunkSize) as -> by lia.
    assert ((0 + Z.of_nat k) * ChunkSize = Z.of_nat k * ChunkSize) as -> by lia.
    generalize dependent (Z.of_nat k * ChunkSize). intros X _ HX.
    destruct (Z.leb_spec 0 x), (Z.ltb_spec x X), (Z.leb_spec X x),
      (Z.ltb_spec x (X + ChunkSize)); simpl; lia.
Qed.

Lemma initial_waiting (ChunkSize nthr N : Z) :
  1 ≤ nthr → waiting (initial_queues ChunkSize nthr N) = N.
Proof.
  intros Hn. unfold initial_queues, waiting. rewrite sumZ_app.
  replace (nthr - 1) with (Z.of_nat (Z.to_nat (nthr - 1))) at 1 by lia.
  fold (waiting ((λ i, mkWorkQueue (i * ChunkSize) ((i + 1) * ChunkSize) 0)
                   <$> seqZ 0 (Z.of_nat (Z.to_nat (nthr - 1))))).
  rewrite regular_waiting, Z2Nat.id by lia. simpl. lia.
Qed.

Lemma initial_count (ChunkSize nthr N x : Z) :
  chunks_ok ChunkSize nthr N →
  count_q x (initial_queues ChunkSize nthr N) = ind ((0 <=? x) && (x <? N)).
Proof.
  intros (Hn & Hc & HN). unfold initial_queues, count_q. rewrite sumZ_app.
  replace (nthr - 1) with (Z.of_nat (Z.to_nat (nthr - 1))) at 1 by lia.
  fold (count_q x ((λ i, mkWorkQueue (i * ChunkSize) ((i + 1) * ChunkSize) 0)
                     <$> seqZ 0 (Z.of_nat (Z.to_nat (nthr - 1))))).
  rewrite regular_count by done. simpl. unfold queued, ind. simpl.
  rewrite Z2Nat.id by lia.
  assert (0 ≤ (nthr - 1) * ChunkSize) by nia.
  generalize dependent ((nthr - 1) * ChunkSize). intros X HX1 HX2.
  destruct (Z.leb_spec 0 x), (Z.ltb_spec x X), (Z.leb_spec X x),
    (Z.ltb_spec x N); simpl; lia.
Qed.

(** ** Accounting: what has been taken, what is in flight, what waits *)

(** Elements a thread has taken from a queue and not yet added to its
    [completed] counter. *)
Definition inflight (pc : Pc) : Z :=
  match pc with
  | DrainUnlock item amt lst => if lst <=? item then 0 else amt
  | Work _ _ count _ _ => count
  | StealUnlockThen _ _ _ => GRANULARITY
  | _ => 0
  end.

Definition progress (th : Thread) : Z := completed (th_ctx th) + inflight (th_pc th).

Record Acct (st : State) : Prop := mkAcct {
  ac_nonneg : ∀ t th, st_threads st !! t = Some th → 0 ≤ completed (th_ctx th);
  ac_done : sumZ progress (st_threads st) = claimed (st_log st);
  ac_total : claimed (st_log st) + waiting (st_workqueues st) = batch st;
  ac_cover : ∀ k, count_ev k (st_log st) + count_q k (st_workqueues st)
                  = ind ((0 <=? k) && (k <? batch st))
}.

Lemma inflight_nonneg (cm : ContextCommon) (N n : Z) (pc : Pc) :
  pc_ok cm N n pc → 0 ≤ inflight pc.
Proof.
  destruct pc; simpl; unfold GRANULARITY; try lia.
  destruct (Z.leb_spec lst item); lia.
Qed.

Section LocalAccounting.

Variables (cm : ContextCommon) (t : nat) (m : Z → V).
Variables (c : Context) (pc : Pc) (touch : option (nat * WorkQueue * WorkQueue)).
Variables (c' : Context) (pc' : Pc) (w : option (Z * list V)) (evs : list Event).
Hypothesis Htrans : Trans cm t m c pc touch c' pc' w evs.

Lemma trans_claimed :
  claimed evs = match touch with
                | Some (_, q, q') => (last q - next q) - (last q' - next q')
                | None => 0
                end.
Proof. destruct Htrans; unfold claimed; simpl; unfold GRANULARITY; lia. Qed.

Lemma trans_cover (k : Z) :
  (∀ i q q', touch = Some (i, q, q') → next q ≤ last q) →
  match touch with
  | Some (_, q, q') => count_ev k evs + ind (queued k q') = ind (queued k q)
  | None => count_ev k evs = 0
  end.
Proof.
  intros Hq. destruct Htrans; try specialize (Hq _ _ _ eq_refl);
    unfold count_ev, covers, queued, ind; simpl; unfold GRANULARITY in *; try lia.
  - subst amt.
    destruct (Z.leb_spec (next q) k),
      (Z.ltb_spec k (next q + 256 `min` (last q - next q))),
      (Z.leb_spec (next q + 256 `min` (last q - next q)) k),
      (Z.ltb_spec k (last q)); simpl; lia.
  - destruct (Z.leb_spec (last q - 256) k), (Z.ltb_spec k (last q - 256 + 256)),
      (Z.leb_spec (next q) k), (Z.ltb_spec k (last q - 256)),
      (Z.ltb_spec k (last q)); simpl; lia.
Qed.

Lemma trans_progress (N n : Z) :
  pc_ok cm N n pc →
  (∀ i q q', touch = Some (i, q, q') → next q ≤ last q) →
  0 ≤ completed c → completed c + inflight pc ≤ intp_max →
  0 ≤ completed c'
  ∧ completed c' + inflight pc' = completed c + inflight pc + claimed evs.
Proof.
  intros Hpc Hq Hc0 Hmax. rewrite intp_max_eq in Hmax.
  destruct Htrans; try specialize (Hq _ _ _ eq_refl);
    unfold claimed; simpl in *; unfold GRANULARITY in *; try lia.
  - subst amt. destruct (Z.leb_spec (last q) (next q)); lia.
  - destruct (Z.leb_spec lst item); lia.
  - destruct (Z.leb_spec lst item); lia.
  - rewrite to_intp_id by (rewrite intp_max_eq; lia). lia.
  - rewrite to_intp_id by (rewrite intp_max_eq; lia). lia.
Qed.

End LocalAccounting.

Lemma claimed_app (l1 l2 : list Event) : claimed (l1 ++ l2) = claimed l1 + claimed l2.
Proof. apply sumZ_app. Qed.

Lemma waiting_nonneg (N : Z) (qs : list WorkQueue) :
  (∀ i q, qs !! i = Some q → queue_ok N q) → 0 ≤ waiting qs.
Proof.
  intros Hq. apply sumZ_nonneg. intros q [i Hi]%list_elem_of_lookup.
  destruct (Hq _ _ Hi) as (? & _). lia.
Qed.

Lemma step_Acct (t : nat) (st st' : State) :
  WF st → Acct st → Step t st st' → Acct st'.
Proof.
  intros Hwf Hac [c pc touch c' pc' w evs Hth Hreads Htr].
  assert (Hqle : ∀ i q q', touch = Some (i, q, q') → next q ≤ last q).
  { intros i q q' ->. simpl in Hreads.
    destruct (wf_queue _ Hwf _ _ Hreads) as (? & _). lia. }
  pose proof (wf_pc _ Hwf _ _ Hth) as Hpc. simpl in Hpc.
  pose proof (ac_nonneg _ Hac _ _ Hth) as Hc0. simpl in Hc0.
  assert (Hprog_nonneg : ∀ y, y ∈ st_threads st → 0 ≤ progress y).
  { intros y [j Hj]%list_elem_of_lookup. unfold progress.
    pose proof (ac_nonneg _ Hac _ _ Hj).
    pose proof (inflight_nonneg _ _ _ _ (wf_pc _ Hwf _ _ Hj)). lia. }
  assert (Hmax : completed c + inflight pc ≤ intp_max).
  { pose proof (sumZ_elem_le progress _ _ _ Hprog_nonneg Hth) as Hle.
    unfold progress in Hle at 1. simpl in Hle.
    rewrite (ac_done _ Hac) in Hle.
    pose proof (ac_total _ Hac). pose proof (wf_N _ Hwf).
    pose proof (waiting_nonneg _ _ (wf_queue _ Hwf)). lia. }
  destruct (trans_progress _ _ _ _ _ _ _ _ _ _ Htr _ _ Hpc Hqle Hc0 Hmax)
    as [Hc0' Hprog].
  pose proof (trans_claimed _ _ _ _ _ _ _ _ _ _ Htr) as Hcl.
  constructor; unfold after; cbn [st_common st_workqueues st_threads st_mem st_log];
    change (batch (mkState (st_common st) _ _ _ _)) with (batch st).
  - intros t' th' [(<- & <- & _)|(Hne & Hl)]%list_lookup_insert_Some; [done|].
    by apply (ac_nonneg _ Hac _ _ Hl).
  - rewrite (sumZ_insert _ _ _ _ _ Hth), claimed_app, (ac_done _ Hac).
    unfold progress at 1 2. simpl. lia.
  - rewrite claimed_app, <- (ac_total _ Hac), Hcl.
    destruct touch as [[[i q] q']|]; simpl in *; [|lia].
    unfold waiting. rewrite (sumZ_insert _ _ _ _ _ Hreads). lia.
  - intros k. rewrite <- (ac_cover _ Hac k).
    pose proof (trans_cover _ _ _ _ _ _ _ _ _ _ Htr k Hqle) as Hcov.
    unfold count_ev in *. rewrite sumZ_app.
    destruct touch as [[[i q] q']|]; simpl in *; [|lia].
    unfold count_q. rewrite (sumZ_insert _ _ _ _ _ Hreads). lia.
Qed.

Lemma spawn_Acct (cm : ContextCommon) (ChunkSize nthr N : Z) (m : Z → V) :
  chunks_ok ChunkSize nthr N → dimensions cm !! 0%nat = Some N →
  Acct (spawn (mkSetup cm (initial_queues ChunkSize nthr N) (initial_contexts nthr)) m).
Proof.
  intros Hok Hd.
  assert (Hb : batch (spawn (mkSetup cm (initial_queues ChunkSize nthr N)
                               (initial_contexts nthr)) m) = N).
  { unfold batch. simpl. by apply list_lookup_total_correct. }
  constructor; rewrite ?Hb.
  - intros t th (c & Hc & ->)%spawn_lookup. simpl.
    by apply initial_contexts_lookup in Hc as ->.
  - simpl. apply sumZ_zero. intros th [t Ht]%list_elem_of_lookup.
    change ((λ c, mkThread c DrainLock) <$> initial_contexts nthr)
      with (st_threads (spawn (mkSetup cm (initial_queues ChunkSize nthr N)
                                 (initial_contexts nthr)) m)) in Ht.
    apply spawn_lookup in Ht as (c & Hc & ->). simpl in Hc.
    apply initial_contexts_lookup in Hc as ->. done.
  - simpl. unfold claimed. simpl. apply initial_waiting. destruct Hok as (? & _). lia.
  - intros k. simpl. unfold count_ev. simpl. by apply initial_count.
Qed.

Lemma tick_Acct (t : nat) (st : State) :
  WF st → Acct st → Acct (tick A kernel st t).
Proof.
  intros Hwf Hac. destruct (tick_cases t st Hwf) as [->|Hs]; [done|].
  by eapply step_Acct.
Qed.

Lemma run_Acct (sched : list nat) (st : State) :
  WF st → Acct st → Acct (run A kernel sched st).
Proof.
  revert st. induction sched as [|t sched IH]; intros st Hwf Hac; [done|].
  simpl. apply IH; [by apply tick_WF | by apply tick_Acct].
Qed.

(** ** The end of a batch *)

Lemma all_done_lookup (st : State) (t : nat) (th : Thread) :
  all_done st = true → st_threads st !! t = Some th → th_pc th = Done.
Proof.
  unfold all_done. rewrite forallb_forall. intros Hall Hth.
  assert (In th (st_threads st)) as Hin.
  { apply list_elem_of_In, list_elem_of_lookup. by exists t. }
  specialize (Hall _ Hin). by destruct (th_pc th).
Qed.

Lemma all_done_waiting (st : State) :
  WF st → all_done st = true → waiting (st_workqueues st) = 0.
Proof.
  intros Hwf Hall. apply sumZ_zero. intros q [i Hi]%list_elem_of_lookup.
  destruct (lookup_lt_is_Some_2 (st_threads st) i) as [th Hth].
  { rewrite <- (wf_len _ Hwf). by eapply lookup_lt_Some. }
  pose proof (all_done_lookup _ _ _ Hall Hth) as Hpc.
  assert (drained (th_pc th) = true) as Hd by (by rewrite Hpc).
  pose proof (wf_drained _ Hwf _ _ _ Hth Hi Hd). lia.
Qed.

Lemma all_done_count_q (st : State) (k : Z) :
  WF st → all_done st = true → count_q k (st_workqueues st) = 0.
Proof.
  intros Hwf Hall. apply sumZ_zero. intros q [i Hi]%list_elem_of_lookup.
  destruct (lookup_lt_is_Some_2 (st_threads st) i) as [th Hth].
  { rewrite <- (wf_len _ Hwf). by eapply lookup_lt_Some. }
  pose proof (all_done_lookup _ _ _ Hall Hth) as Hpc.
  assert (drained (th_pc th) = true) as Hd by (by rewrite Hpc).
  pose proof (wf_drained _ Hwf _ _ _ Hth Hi Hd) as Heq.
  unfold queued, ind. rewrite Heq.
  destruct (Z.leb_spec (last q) k), (Z.ltb_spec k (last q)); simpl; lia.
Qed.

Lemma all_done_completed (st : State) :
  all_done st = true →
  sumZ progress (st_threads st) = sumZ (λ th, completed (th_ctx th)) (st_threads st).
Proof.
  intros Hall. apply sumZ_ext. intros th [t Ht]%list_elem_of_lookup.
  unfold progress. rewrite (all_done_lookup _ _ _ Hall Ht). simpl. lia.
Qed.

(** The audit's accumulation does not wrap when the counters are
    non-negative and their sum fits a [C.intp]. *)
Lemma foldl_to_intp {X : Type} (f : X → Z) (l : list X) (acc : Z) :
  0 ≤ acc → (∀ x, x ∈ l → 0 ≤ f x) → acc + sumZ f l ≤ intp_max →
  foldl (λ a x, to_intp (a + f x)) acc l = acc + sumZ f l.
Proof.
  revert acc. induction l as [|x l IH]; intros acc Hacc Hf Hmax; simpl in *; [lia|].
  assert (0 ≤ f x) by (apply Hf; left).
  assert (0 ≤ sumZ f l) by (apply sumZ_nonneg; intros; apply Hf; by right).
  rewrite to_intp_id by lia.
  rewrite IH; [lia | lia | intros; apply Hf; by right | lia].
Qed.

Lemma total_completed_sum (st : State) :
  WF st → Acct st → all_done st = true →
  total_completed st = sumZ (λ th, completed (th_ctx th)) (st_threads st)
  ∧ sumZ (λ th, completed (th_ctx th)) (st_threads st) = batch st.
Proof.
  intros Hwf Hac Hall.
  assert (sumZ (λ th, completed (th_ctx th)) (st_threads st) = batch st) as Hsum.
  { rewrite <- (all_done_completed _ Hall), (ac_done _ Hac).
    pose proof (ac_total _ Hac) as Htot.
    rewrite (all_done_waiting _ Hwf Hall) in Htot. lia. }
  split; [|done]. unfold total_completed.
  rewrite foldl_to_intp; [lia | lia | |].
  - intros th [t Ht]%list_elem_of_lookup. by apply (ac_nonneg _ Hac _ _ Ht).
  - rewrite Hsum. pose proof (wf_N _ Hwf). lia.
Qed.

Lemma count_ev_nonneg (k : Z) (log : list Event) : 0 ≤ count_ev k log.
Proof. apply ind_sum_nonneg. Qed.

Lemma count_ev_app (k : Z) (l1 l2 : list Event) :
  count_ev k (l1 ++ l2) = count_ev k l1 + count_ev k l2.
Proof. apply sumZ_app. Qed.

(** ** Memory: bytes, slots, and the outputs of processed elements *)

Lemma store_from_other (m : Z → V) (p j : Z) (bs : list V) (a : Z) :
  (∀ i, 0 ≤ i < Z.of_nat (length bs) → a ≠ ptr_add p (j + i)) →
  store_from m p j bs a = m a.
Proof.
  revert m j. induction bs as [|b bs IH]; intros m j Ha; simpl; [done|].
  rewrite IH.
  - unfold poke. destruct (Z.eqb_spec a (ptr_add p j)) as [Heq|_]; [|done].
    exfalso. apply (Ha 0); [simpl; lia|]. by rewrite Z.add_0_r.
  - intros i Hi. replace (j + 1 + i) with (j + (i + 1)) by lia.
    apply Ha. simpl. lia.
Qed.

(** A store leaves alone every address that is not one of its bytes. *)
Lemma store_other (m : Z → V) (p : Z) (bs : list V) (a : Z) :
  (∀ j, 0 ≤ j < Z.of_nat (length bs) → a ≠ ptr_add p j) →
  store m p bs a = m a.
Proof. intros Ha. apply store_from_other. intros i Hi. by apply Ha. Qed.

Lemma store_from_at (m : Z → V) (p j : Z) (bs : list V) (i : nat) (b : V) :
  (∀ i1 i2, 0 ≤ i1 < Z.of_nat (length bs) → 0 ≤ i2 < Z.of_nat (length bs) →
            ptr_add p (j + i1) = ptr_add p (j + i2) → i1 = i2) →
  bs !! i = Some b →
  store_from m p j bs (ptr_add p (j + Z.of_nat i)) = b.
Proof.
  revert m j i. induction bs as [|b0 bs IH]; intros m j [|i] Hinj Hb;
    simpl in Hb; simplify_eq; cbn [store_from].
  - rewrite store_from_other.
    + unfold poke. change (Z.of_nat 0) with 0. by rewrite Z.add_0_r, Z.eqb_refl.
    + intros i Hi Heq. change (Z.of_nat 0) with 0 in Heq.
      assert (0 = i + 1); [|lia].
      apply Hinj; [simpl; lia..|]. rewrite Heq. f_equal. lia.
  - replace (j + Z.of_nat (S i)) with (j + 1 + Z.of_nat i) by lia.
    apply IH; [|done]. intros i1 i2 H1 H2 Heq.
    assert (i1 + 1 = i2 + 1); [|lia].
    apply Hinj; [simpl; lia..|].
    replace (j + (i1 + 1)) with (j + 1 + i1) by lia.
    replace (j + (i2 + 1)) with (j + 1 + i2) by lia. done.
Qed.

(** A load after a store through the same pointer, at the width of the
    value stored, gives the value back when the bytes of the slot lie at
    distinct addresses. *)
Lemma load_store (m : Z → V) (p n : Z) (bs : list V) :
  Z.of_nat (length bs) = n →
  (∀ j1 j2, 0 ≤ j1 < n → 0 ≤ j2 < n → ptr_add p j1 = ptr_add p j2 → j1 = j2) →
  load (store m p bs) p n = bs.
Proof.
  intros <- Hinj. apply list_eq. intros i. unfold load, store.
  rewrite list_lookup_fmap.
  destruct (bs !! i) as [b|] eqn:Hb.
  - assert (i < length bs)%nat by (by eapply lookup_lt_Some).
    rewrite lookup_seqZ_lt by lia. simpl. f_equal.
    by apply store_from_at.
  - apply lookup_ge_None in Hb. by rewrite lookup_seqZ_ge by lia.
Qed.

Lemma load_ext (m1 m2 : Z → V) (p n : Z) :
  (∀ j, 0 ≤ j < n → m1 (ptr_add p j) = m2 (ptr_add p j)) →
  load m1 p n = load m2 p n.
Proof.
  intros Heq. unfold load. apply list_fmap_ext. intros i j Hj.
  apply lookup_seqZ in Hj. apply Heq. lia.
Qed.



(** Address [p] is a byte of the output slot of element [k]. *)
Definition in_output (cm : ContextCommon) (k p : Z) : Prop :=
  ∃ j, 0 ≤ j < ret_size kernel ∧ p = ptr_add (addr cm A k) j.

(** Address [p] is a byte of an input slot of element [k]. *)
Definition in_input (cm : ContextCommon) (k p : Z) : Prop :=
  ∃ i j, (i < A)%nat ∧ 0 ≤ j < arg_size kernel i ∧ p = ptr_add (addr cm i k) j.

(** The kernel returns values of its return type. *)
Definition well_typed : Prop :=
  ∀ callargs, Z.of_nat (length (kernel callargs)) = ret_size kernel.

(** A valid batch: the bytes of the output slots of the elements of
    [0, N) lie at pairwise distinct addresses, and a byte of an input slot
    of one element is not a byte of the output slot of another. An input
    slot may overlap the output slot of its own element, as when a ufunc
    works in place. *)
Definition valid_batch (cm : ContextCommon) (N : Z) : Prop :=
  (∀ k k' j j', 0 ≤ k < N → 0 ≤ k' < N →
                0 ≤ j < ret_size kernel → 0 ≤ j' < ret_size kernel →
                ptr_add (addr cm A k) j = ptr_add (addr cm A k') j' →
                k = k' ∧ j = j')
  ∧ (∀ i k k' j j', (i < A)%nat → 0 ≤ k < N → 0 ≤ k' < N →
                    0 ≤ j < arg_size kernel i → 0 ≤ j' < ret_size kernel →
                    ptr_add (addr cm i k) j = ptr_add (addr cm A k') j' →
                    k = k').

(** The same, as a check that runs. *)
Definition valid_batchb (cm : ContextCommon) (N : Z) : bool :=
  forallb (λ k,
    forallb (λ k',
      forallb (λ j',
        forallb (λ j,
          ((k =? k') && (j =? j'))
          || negb (ptr_add (addr cm A k) j =? ptr_add (addr cm A k') j'))
          (seqZ 0 (ret_size kernel))
        && forallb (λ i,
             forallb (λ j,
               (k =? k')
               || negb (ptr_add (addr cm i k) j =? ptr_add (addr cm A k') j'))
               (seqZ 0 (arg_size kernel i)))
             (seq 0 A))
        (seqZ 0 (ret_size kernel)))
      (seqZ 0 N))
    (seqZ 0 N).

Lemma In_seqZ (N k : Z) : 0 ≤ k < N → In k (seqZ 0 N).
Proof.
  intros Hk. apply list_elem_of_In, list_elem_of_lookup. exists (Z.to_nat k).
  rewrite lookup_seqZ_lt by lia. f_equal. lia.
Qed.

Lemma valid_batchb_spec (cm : ContextCommon) (N : Z) :
  valid_batchb cm N = true → valid_batch cm N.
Proof.
  unfold valid_batchb. rewrite forallb_forall. intros Hall.
  assert (Hat : ∀ k k' j', 0 ≤ k < N → 0 ≤ k' < N → 0 ≤ j' < ret_size kernel →
            forallb (λ j,
              ((k =? k') && (j =? j'))
              || negb (ptr_add (addr cm A k) j =? ptr_add (addr cm A k') j'))
              (seqZ 0 (ret_size kernel)) = true
            ∧ forallb (λ i,
                forallb (λ j,
                  (k =? k')
                  || negb (ptr_add (addr cm i k) j =? ptr_add (addr cm A k') j'))
                  (seqZ 0 (arg_size kernel i)))
                (seq 0 A) = true).
  { intros k k' j' Hk Hk' Hj'.
    specialize (Hall k (In_seqZ _ _ Hk)). rewrite forallb_forall in Hall.
    specialize (Hall k' (In_seqZ _ _ Hk')). rewrite forallb_forall in Hall.
    specialize (Hall j' (In_seqZ _ _ Hj')). by apply andb_true_iff in Hall. }
  split.
  - intros k k' j j' Hk Hk' Hj Hj' Heq.
    destruct (Hat k k' j' Hk Hk' Hj') as [Ho _]. rewrite forallb_forall in Ho.
    specialize (Ho j (In_seqZ _ _ Hj)).
    apply orb_true_iff in Ho as [Ho|Ho].
    + apply andb_true_iff in Ho as [?%Z.eqb_eq ?%Z.eqb_eq]. done.
    + rewrite Heq, Z.eqb_refl in Ho. done.
  - intros i k k' j j' Hi Hk Hk' Hj Hj' Heq.
    destruct (Hat k k' j' Hk Hk' Hj') as [_ Hin]. rewrite forallb_forall in Hin.
    assert (In i (seq 0 A)) as Hini by (apply in_seq; lia).
    specialize (Hin i Hini). rewrite forallb_forall in Hin.
    specialize (Hin j (In_seqZ _ _ Hj)).
    apply orb_true_iff in Hin as [?%Z.eqb_eq|Hin]; [done|].
    rewrite Heq, Z.eqb_refl in Hin. done.
Qed.

(** Element [k] has been taken by the thread and is not yet written. *)
Definition pending (k : Z) (pc : Pc) : bool :=
  match pc with
  | DrainUnlock item amt lst => (item <? lst) && (item <=? k) && (k <? item + amt)
  | StealUnlockThen _ _ item => (item <=? k) && (k <? item + GRANULARITY)
  | Work _ item count j _ => (item + j <=? k) && (k <? item + count)
  | _ => false
  end.

(** What memory holds while the batch runs. An element a thread has
    pending lies in a range that this thread took. As long as an element
    is untaken or pending, the bytes of its input slots and of its output
    slot hold their initial values. Once it is taken and no longer
    pending, its output slot holds the kernel's value on its initial
    inputs. *)
Record MemInv (m0 : Z → V) (st : State) : Prop := mkMemInv {
  mi_link : ∀ t th k, st_threads st !! t = Some th → pending k (th_pc th) = true →
            ∃ n e, st_log st !! n = Some e ∧ ev_tid e = Z.of_nat t
                   ∧ covers k e = true;
  mi_fresh : ∀ k, 0 ≤ k < batch st →
             count_ev k (st_log st) = 0
             ∨ (∃ t th, st_threads st !! t = Some th ∧ pending k (th_pc th) = true) →
             ∀ p, in_input (st_common st) k p ∨ in_output (st_common st) k p →
                  st_mem st p = m0 p;
  mi_done : ∀ k, 0 ≤ k < batch st → count_ev k (st_log st) ≠ 0 →
            (∃ t th, st_threads st !! t = Some th ∧ pending k (th_pc th) = true)
            ∨ load (st_mem st) (addr (st_common st) A k) (ret_size kernel)
              = kernel (inputs (st_common st) m0 k)
}.

Lemma pending_range (cm : ContextCommon) (N n k : Z) (pc : Pc) :
  pc_ok cm N n pc → pending k pc = true → 0 ≤ k < N.
Proof.
  destruct pc; simpl; unfold GRANULARITY; try done; intros Hpc Hp.
  - apply andb_true_iff in Hp as [[_ ?%Z.leb_le]%andb_true_iff ?%Z.ltb_lt]. lia.
  - apply andb_true_iff in Hp as [?%Z.leb_le ?%Z.ltb_lt]. lia.
  - apply andb_true_iff in Hp as [?%Z.leb_le ?%Z.ltb_lt]. lia.
Qed.

Section LocalMemory.

Variables (cm : ContextCommon) (t : nat) (m : Z → V).
Variables (c : Context) (pc : Pc) (touch : option (nat * WorkQueue * WorkQueue)).
Variables (c' : Context) (pc' : Pc) (w : option (Z * list V)) (evs : list Event).
Hypothesis Htrans : Trans cm t m c pc touch c' pc' w evs.

(** A store writes the kernel's result for a pending element, which is
    then no longer pending. *)
Lemma trans_write (p : Z) (v : list V) :
  w = Some (p, v) →
  ∃ e, p = addr cm A e ∧ v = kernel (inputs cm m e) ∧ pending e pc = true
       ∧ pending e pc' = false.
Proof.
  destruct Htrans; intros; simplify_eq. exists (item + j). split; [done|].
  split; [done|]. simpl. split.
  - apply andb_true_iff. split; [lia|]. apply Z.ltb_lt. lia.
  - apply andb_false_iff. left. apply Z.leb_gt. lia.
Qed.

Lemma trans_pending_keep (k : Z) :
  pending k pc = true →
  pending k pc' = true ∨ w = Some (addr cm A k, kernel (inputs cm m k)).
Proof.
  destruct Htrans; simpl; unfold GRANULARITY in *; try done; intros Hp;
    try (by left).
  - apply andb_true_iff in Hp as [[?%Z.ltb_lt _]%andb_true_iff _]. lia.
  - left. apply andb_true_iff in Hp as [[_ ?%Z.leb_le]%andb_true_iff ?%Z.ltb_lt].
    apply andb_true_iff. split; [apply Z.leb_le|apply Z.ltb_lt]; lia.
  - apply andb_true_iff in Hp as [?%Z.leb_le ?%Z.ltb_lt].
    destruct (decide (k = item + j)) as [->|Hne]; [by right|].
    left. apply andb_true_iff. split; [apply Z.leb_le|apply Z.ltb_lt]; lia.
  - apply andb_true_iff in Hp as [?%Z.leb_le ?%Z.ltb_lt]. lia.
  - apply andb_true_iff in Hp as [?%Z.leb_le ?%Z.ltb_lt]. lia.
  - left. apply andb_true_iff in Hp as [?%Z.leb_le ?%Z.ltb_lt].
    apply andb_true_iff. split; [apply Z.leb_le|apply Z.ltb_lt]; lia.
Qed.

Lemma trans_pending_new (k : Z) :
  (∀ i q q', touch = Some (i, q, q') → next q ≤ last q) →
  count_ev k evs ≠ 0 → pending k pc' = true.
Proof.
  intros Hq. destruct Htrans; try specialize (Hq _ _ _ eq_refl);
    unfold count_ev, covers, ind; simpl; unfold GRANULARITY in *; try done.
  - subst amt.
    destruct (Z.leb_spec (next q) k),
      (Z.ltb_spec k (next q + 256 `min` (last q - next q))),
      (Z.ltb_spec (next q) (last q)); simpl; try done; lia.
  - destruct (Z.leb_spec (last q - 256) k), (Z.ltb_spec k (last q - 256 + 256));
      simpl; done.
Qed.

(** An element pending after the step was pending before it, or lies in
    the range the step took. *)
Lemma trans_pending_src (k : Z) :
  pending k pc' = true →
  pending k pc = true
  ∨ ∃ e, evs = [e] ∧ ev_tid e = Z.of_nat t ∧ covers k e = true.
Proof.
  destruct Htrans; simpl; unfold GRANULARITY in *; try done; intros Hp.
  - right. eexists. split; [done|]. split; [done|].
    apply andb_true_iff in Hp as [[_ ?%Z.leb_le]%andb_true_iff ?%Z.ltb_lt].
    unfold covers. simpl. apply andb_true_iff.
    split; [apply Z.leb_le|apply Z.ltb_lt]; lia.
  - left. apply andb_true_iff in Hp as [?%Z.leb_le ?%Z.ltb_lt].
    apply andb_true_iff. split; [apply andb_true_iff; split|];
      [apply Z.ltb_lt|apply Z.leb_le|apply Z.ltb_lt]; lia.
  - left. apply andb_true_iff in Hp as [?%Z.leb_le ?%Z.ltb_lt].
    apply andb_true_iff. split; [apply Z.leb_le|apply Z.ltb_lt]; lia.
  - right. eexists. split; [done|]. split; [done|].
    apply andb_true_iff in Hp as [?%Z.leb_le ?%Z.ltb_lt].
    unfold covers. simpl. unfold GRANULARITY. apply andb_true_iff.
    split; [apply Z.leb_le|apply Z.ltb_lt]; lia.
  - left. apply andb_true_iff in Hp as [?%Z.leb_le ?%Z.ltb_lt].
    apply andb_true_iff. split; [apply Z.leb_le|apply Z.ltb_lt]; lia.
Qed.

End LocalMemory.

Lemma inputs_ext (cm : ContextCommon) (m1 m2 : Z → V) (k : Z) :
  (∀ p, in_input cm k p → m1 p = m2 p) →
  inputs cm m1 k = inputs cm m2 k.
Proof.
  intros Heq. unfold inputs. apply list_fmap_ext.
  intros n i Hi. apply lookup_seq in Hi as [-> Hn]. apply load_ext.
  intros j Hj. apply Heq. exists n, j. done.
Qed.

Lemma covered_count (k : Z) (log : list Event) (n : nat) (e : Event) :
  log !! n = Some e → covers k e = true → 1 ≤ count_ev k log.
Proof. apply (ind_sum_elem (covers k)). Qed.

Lemma count_ev_le_1 (st : State) (k : Z) : Acct st → count_ev k (st_log st) ≤ 1.
Proof.
  intros Hac. pose proof (ac_cover _ Hac k) as Hc.
  pose proof (ind_sum_nonneg (queued k) (st_workqueues st)) as Hq.
  fold (count_q k (st_workqueues st)) in Hq.
  pose proof (ind_range ((0 <=? k) && (k <? batch st))). lia.
Qed.

(** No element is pending in two threads. *)
Lemma pending_unique (m0 : Z → V) (st : State) (t1 t2 : nat) (th1 th2 : Thread)
    (k : Z) :
  Acct st → MemInv m0 st →
  st_threads st !! t1 = Some th1 → st_threads st !! t2 = Some th2 →
  pending k (th_pc th1) = true → pending k (th_pc th2) = true → t1 = t2.
Proof.
  intros Hac Hmi H1 H2 Hp1 Hp2.
  destruct (mi_link _ _ Hmi _ _ _ H1 Hp1) as (n1 & e1 & Hn1 & Ht1 & Hc1).
  destruct (mi_link _ _ Hmi _ _ _ H2 Hp2) as (n2 & e2 & Hn2 & Ht2 & Hc2).
  assert (n1 = n2) as ->
    by (apply (ind_sum_unique (covers k) (st_log st) n1 n2 e1 e2);
        [by apply count_ev_le_1|done..]).
  simplify_eq. lia.
Qed.

Lemma step_MemInv (m0 : Z → V) (t : nat) (st st' : State) :
  WF st → Acct st → well_typed → valid_batch (st_common st) (batch st) →
  MemInv m0 st → Step t st st' → MemInv m0 st'.
Proof.
  intros Hwf Hac Hty [Hinj Hdisj] Hmi Hstep.
  pose proof (step_Acct _ _ _ Hwf Hac Hstep) as Hac'.
  destruct Hstep as [c pc touch c' pc' w evs Hth Hreads Htr].
  assert (Hqle : ∀ i q q', touch = Some (i, q, q') → next q ≤ last q).
  { intros i q q' ->. simpl in Hreads.
    destruct (wf_queue _ Hwf _ _ Hreads) as (? & _). lia. }
  pose proof (wf_pc _ Hwf _ _ Hth) as Hpc. simpl in Hpc.
  assert (Htlt : (t < length (st_threads st))%nat) by (by eapply lookup_lt_Some).
  assert (Hone : ∀ k, count_ev k (st_log st ++ evs) ≤ 1)
    by (intros k; apply (count_ev_le_1 _ k Hac')).
  assert (Hnn : ∀ k l, 0 ≤ count_ev k l) by (intros; apply count_ev_nonneg).
  (* an element untaken or pending after the step was so before it *)
  assert (Hcls : ∀ k,
            count_ev k (st_log st ++ evs) = 0
            ∨ (∃ t' th', <[t := mkThread c' pc']> (st_threads st) !! t' = Some th'
                         ∧ pending k (th_pc th') = true) →
            count_ev k (st_log st) = 0
            ∨ (∃ t' th', st_threads st !! t' = Some th'
                         ∧ pending k (th_pc th') = true)).
  { intros k [Hz|(t' & th' & Hl & Hp)].
    - left. rewrite count_ev_app in Hz. pose proof (Hnn k (st_log st)).
      pose proof (Hnn k evs). lia.
    - apply list_lookup_insert_Some in Hl as [(<- & <- & _)|(Hne & Hl)].
      + simpl in Hp.
        destruct (trans_pending_src _ _ _ _ _ _ _ _ _ _ Htr k Hp)
          as [Hold|(e & -> & _ & Hcov)].
        * right. by exists t, (mkThread c pc).
        * left. specialize (Hone k). rewrite count_ev_app in Hone.
          assert (count_ev k [e] = 1) as He1
            by (unfold count_ev; simpl; by rewrite Hcov).
          pose proof (Hnn k (st_log st)). lia.
      + right. by exists t', th'. }
  (* what a store of this step is *)
  assert (Hwr : ∀ p v, w = Some (p, v) →
            ∃ e, 0 ≤ e < batch st ∧ p = addr (st_common st) A e
                 ∧ v = kernel (inputs (st_common st) m0 e)
                 ∧ pending e pc = true ∧ pending e pc' = false).
  { intros p v Hw.
    destruct (trans_write _ _ _ _ _ _ _ _ _ _ Htr _ _ Hw)
      as (e & -> & -> & He & He').
    pose proof (pending_range _ _ _ _ _ Hpc He) as Hr.
    exists e. split; [done|]. split; [done|]. split; [|done]. f_equal.
    apply inputs_ext. intros p Hp. apply (mi_fresh _ _ Hmi e Hr); [|by left].
    right. by exists t, (mkThread c pc). }
  (* a store of this step rewrites the slot of its element *)
  assert (Hslot : ∀ p v e, w = Some (p, v) → p = addr (st_common st) A e →
            0 ≤ e < batch st → v = kernel (inputs (st_common st) m0 e) →
            load (write_mem w (st_mem st)) (addr (st_common st) A e)
              (ret_size kernel)
            = kernel (inputs (st_common st) m0 e)).
  { intros p v e -> -> He ->. simpl. apply load_store; [by apply Hty|].
    intros j1 j2 H1 H2 Heq. by destruct (Hinj e e j1 j2 He He H1 H2 Heq). }
  (* an address outside the slot written keeps its content *)
  assert (Hkeep : ∀ a,
            (∀ e, 0 ≤ e < batch st → pending e pc = true → pending e pc' = false →
                  ¬ in_output (st_common st) e a) →
            write_mem w (st_mem st) a = st_mem st a).
  { intros a Ha. destruct w as [[p v]|]; [|done]. simpl.
    destruct (Hwr p v eq_refl) as (e & He & -> & -> & Hp & Hp').
    apply store_other. intros j Hj Heq. rewrite Hty in Hj.
    apply (Ha e He Hp Hp'). by exists j. }
  constructor; unfold after; cbn [st_common st_workqueues st_threads st_mem st_log];
    change (batch (mkState (st_common st) _ _ _ _)) with (batch st).
  - intros t' th' k [(<- & <- & _)|(Hne & Hl)]%list_lookup_insert_Some Hp.
    + simpl in Hp.
      destruct (trans_pending_src _ _ _ _ _ _ _ _ _ _ Htr k Hp)
        as [Hold|(e & -> & Htid & Hcov)].
      * destruct (mi_link _ _ Hmi _ _ _ Hth Hold) as (n & e & Hn & ? & ?).
        exists n, e. split; [by apply lookup_app_l_Some|done].
      * exists (length (st_log st)), e.
        split; [|done]. by rewrite lookup_app_r, Nat.sub_diag by lia.
    + destruct (mi_link _ _ Hmi _ _ _ Hl Hp) as (n & e & Hn & ? & ?).
      exists n, e. split; [by apply lookup_app_l_Some|done].
  - intros k Hk Hcl a Ha. rewrite Hkeep.
    + by apply (mi_fresh _ _ Hmi k Hk (Hcls k Hcl) a Ha).
    + intros e He Hp Hp' Hout.
      assert (k ≠ e) as Hke.
      { intros ->. destruct Hcl as [Hz|(t' & th' & Hl & Hp2)].
        - destruct (mi_link _ _ Hmi _ _ _ Hth Hp) as (n & ev & Hn & _ & Hcov).
          pose proof (covered_count e _ n ev Hn Hcov) as H1.
          rewrite count_ev_app in Hz. pose proof (Hnn e evs). lia.
        - apply list_lookup_insert_Some in Hl as [(_ & <- & _)|(Hne & Hl)].
          + simpl in Hp2. congruence.
          + apply Hne.
            by apply (pending_unique m0 st t t' (mkThread c pc) th' e). }
      destruct Hout as (j' & Hj' & ->).
      destruct Ha as [(i & j & Hi & Hj & Heq)|(j & Hj & Heq)].
      * apply Hke. symmetry in Heq. by apply (Hdisj i k e j j').
      * apply Hke. symmetry in Heq. by destruct (Hinj k e j j' Hk He Hj Hj' Heq).
  - intros k Hk Hnz.
    destruct (decide (count_ev k (st_log st) = 0)) as [Hz|Hnz0].
    { left. exists t, (mkThread c' pc').
      split; [by apply list_lookup_insert_eq|]. simpl.
      apply (trans_pending_new _ _ _ _ _ _ _ _ _ _ Htr); [done|].
      rewrite count_ev_app in Hnz. lia. }
    destruct (mi_done _ _ Hmi k Hk Hnz0) as [(t0 & th0 & Ht0 & Hp0)|Hold].
    + destruct (decide (t0 = t)) as [->|Hne].
      * assert (th0 = mkThread c pc) as -> by congruence. simpl in Hp0.
        destruct (trans_pending_keep _ _ _ _ _ _ _ _ _ _ Htr k Hp0) as [Hk'|Hw].
        -- left. exists t, (mkThread c' pc').
           split; [by apply list_lookup_insert_eq|done].
        -- right. destruct (Hwr _ _ Hw) as (e & He & Hpe & Hve & _).
           apply (Hslot _ _ k Hw eq_refl Hk).
           f_equal. apply inputs_ext. intros p Hp.
           apply (mi_fresh _ _ Hmi k Hk); [|by left].
           right. by exists t, (mkThread c pc).
      * left. exists t0, th0. split; [|done]. by rewrite list_lookup_insert_ne.
    + right. destruct w as [[p v]|] eqn:Hw; [|done].
      destruct (Hwr p v eq_refl) as (e & He & -> & -> & Hp & Hp').
      destruct (decide (e = k)) as [->|Hne].
      * by apply (Hslot _ _ k eq_refl eq_refl Hk).
      * rewrite <- Hold. apply load_ext. intros j Hj. simpl.
        apply store_other. intros j' Hj' Heq. rewrite Hty in Hj'.
        apply Hne. symmetry. by destruct (Hinj k e j j' Hk He Hj Hj' Heq).
Qed.

Lemma tick_MemInv (m0 : Z → V) (t : nat) (st : State) :
  WF st → Acct st → well_typed → valid_batch (st_common st) (batch st) →
  MemInv m0 st → MemInv m0 (tick A kernel st t).
Proof.
  intros Hwf Hac Hty Hv Hmi. destruct (tick_cases t st Hwf) as [->|Hs]; [done|].
  by eapply step_MemInv.
Qed.

Lemma tick_common (t : nat) (st : State) :
  WF st → st_common (tick A kernel st t) = st_common st.
Proof.
  intros Hwf. destruct (tick_cases t st Hwf) as [->|Hs]; [done|].
  by destruct Hs.
Qed.

Lemma run_common (sched : list nat) (st : State) :
  WF st → st_common (run A kernel sched st) = st_common st.
Proof.
  revert st. induction sched as [|t sched IH]; intros st Hwf; [done|].
  simpl. rewrite IH by (by apply tick_WF). by apply tick_common.
Qed.

Lemma run_MemInv (m0 : Z → V) (sched : list nat) (st : State) :
  WF st → Acct st → well_typed → valid_batch (st_common st) (batch st) →
  MemInv m0 st → MemInv m0 (run A kernel sched st).
Proof.
  revert st. induction sched as [|t sched IH]; intros st Hwf Hac Hty Hv Hmi; [done|].
  simpl. apply IH;
    [by apply tick_WF | by apply tick_Acct | done | | by apply tick_MemInv].
  unfold batch. by rewrite tick_common.
Qed.

Lemma spawn_MemInv (su : Setup) (m0 : Z → V) : MemInv m0 (spawn su m0).
Proof.
  constructor.
  - intros t th k Hth Hp. apply spawn_lookup in Hth as (c & _ & ->). done.
  - done.
  - intros k _ Hnz. done.
Qed.

(** When all workers have returned, every output slot holds the kernel's
    value on the element's initial inputs. *)
Lemma outputs_at_join (m0 : Z → V) (st : State) (k : Z) :
  WF st → Acct st → MemInv m0 st → all_done st = true → 0 ≤ k < batch st →
  load (st_mem st) (addr (st_common st) A k) (ret_size kernel)
  = kernel (inputs (st_common st) m0 k).
Proof.
  intros Hwf Hac Hmi Hdone Hk.
  assert (count_ev k (st_log st) ≠ 0) as Hnz.
  { pose proof (ac_cover _ Hac k) as Hc.
    rewrite (all_done_count_q _ k Hwf Hdone) in Hc.
    destruct (Z.leb_spec 0 k), (Z.ltb_spec k (batch st)); simpl in Hc; lia. }
  destruct (mi_done _ _ Hmi k Hk Hnz) as [(t & th & Hth & Hp)|Hout]; [|done].
  by rewrite (all_done_lookup _ _ _ Hdone Hth) in Hp.
Qed.

(** ** Addresses outside the output slots *)

(** Address [p] is a byte of no output slot of the batch. *)
Definition off_output (cm : ContextCommon) (N p : Z) : Prop :=
  ∀ k, 0 ≤ k < N → ¬ in_output cm k p.

Lemma step_off_output (m0 : Z → V) (t : nat) (st st' : State) :
  WF st → well_typed →
  (∀ p, off_output (st_common st) (batch st) p → st_mem st p = m0 p) →
  Step t st st' →
  ∀ p, off_output (st_common st') (batch st') p → st_mem st' p = m0 p.
Proof.
  intros Hwf Hty Hm [c pc touch c' pc' w evs Hth Hreads Htr] p Hp.
  pose proof (wf_pc _ Hwf _ _ Hth) as Hpc. simpl in Hpc.
  unfold after in *; cbn [st_common st_workqueues st_threads st_mem st_log] in *.
  change (batch (mkState (st_common st) _ _ _ _)) with (batch st) in Hp.
  destruct w as [[a v]|]; simpl; [|by apply Hm].
  destruct (trans_write _ _ _ _ _ _ _ _ _ _ Htr _ _ eq_refl) as (e & -> & -> & He & _).
  pose proof (pending_range _ _ _ _ _ Hpc He) as Hr.
  rewrite store_other; [by apply Hm|].
  intros j Hj Heq. rewrite Hty in Hj. apply (Hp e Hr). by exists j.
Qed.

Lemma run_off_output (m0 : Z → V) (sched : list nat) (st : State) :
  WF st → well_typed →
  (∀ p, off_output (st_common st) (batch st) p → st_mem st p = m0 p) →
  ∀ p, off_output (st_common st) (batch st) p →
       st_mem (run A kernel sched st) p = m0 p.
Proof.
  revert st. induction sched as [|t sched IH]; intros st Hwf Hty Hm p Hp;
    [by apply Hm|].
  simpl. destruct (tick_cases t st Hwf) as [Heq|Hs].
  - rewrite Heq. by apply IH.
  - assert (st_common (tick A kernel st t) = st_common st) as Hcm
      by (by apply tick_common).
    assert (batch (tick A kernel st t) = batch st) as Hb
      by (unfold batch; by rewrite Hcm).
    apply IH; [by apply tick_WF | done | | by rewrite Hcm, Hb].
    by apply (step_off_output m0 t st).
Qed.




(** ** A measure that every effective step decreases *)

Definition m_cond (n sc : Z) : Z := if sc =? 0 then 1 else 4 * n + 3.

Definition m_for (n i sc : Z) : Z := 4 * (n - i) + 1 + m_cond n sc.

(** Steps thread-local control can still take before it needs new work,
    for [n] threads. *)
Definition pc_measure (n : Z) (pc : Pc) : Z :=
  match pc with
  | DrainLock => 4 * n + 6
  | DrainCrit => 4 * n + 5
  | DrainUnlock item amt lst => if lst <=? item then 4 * n + 4 else amt + 4 * n + 9
  | Work KDrain _ count j _ => (count - j) + 4 * n + 7
  | Work (KSteal i) _ count j _ => (count - j) + 1 + m_for n (i + 1) 1
  | StealCond sc => m_cond n sc
  | StealFor i sc => m_for n i sc
  | StealLock i sc => m_for n i sc - 1
  | StealCrit i sc => m_for n i sc - 2
  | StealUnlockElse i sc => m_for n i sc - 3
  | StealUnlockThen i sc _ => GRANULARITY + 2 + m_for n (i + 1) 1
  | Done => 0
  | Trap _ => 0
  end.

(** What one waiting element is worth. *)
Definition weight (n : Z) : Z := 8 * n + 8.

Definition threads_measure (n : Z) (ths : list Thread) : Z :=
  sumZ (λ th, pc_measure n (th_pc th)) ths.

Definition mu (st : State) : Z :=
  let n := Z.of_nat (length (st_threads st)) in
  weight n * waiting (st_workqueues st) + threads_measure n (st_threads st).

(** The queue on whose lock a thread at [pc] spins. *)
Definition waits (t : nat) (pc : Pc) : option nat :=
  match pc with
  | DrainLock => Some t
  | StealLock i _ => Some (Z.to_nat i)
  | _ => None
  end.


Section LocalMeasure.

Variables (cm : ContextCommon) (t : nat) (m : Z → V).
Variables (c : Context) (pc : Pc) (touch : option (nat * WorkQueue * WorkQueue)).
Variables (c' : Context) (pc' : Pc) (w : option (Z * list V)) (evs : list Event).
Hypothesis Htrans : Trans cm t m c pc touch c' pc' w evs.

(** A transition is a failed CAS on a held lock, or it pays for itself. *)
Lemma trans_measure (N n : Z) :
  num_thread cm = n → 0 ≤ n → pc_ok cm N n pc →
  (∀ i q q', touch = Some (i, q, q') → next q ≤ last q) →
  (∃ i q, touch = Some (i, q, q) ∧ lock q = 1 ∧ waits t pc = Some i
          ∧ c' = c ∧ pc' = pc ∧ w = None ∧ evs = [])
  ∨ pc_measure n pc' + 1 ≤ pc_measure n pc + weight n * claimed evs.
Proof.
  intros Hn Hn0 Hpc Hq.
  destruct Htrans; try specialize (Hq _ _ _ eq_refl);
    try (left; do 2 eexists; by repeat split);
    right; unfold claimed, weight; simpl in *; unfold m_for, m_cond, GRANULARITY in *;
    change (1 =? 0) with false in *; change (0 =? 0) with true in *; cbn iota in *;
    try destruct (Z.eqb_spec sc 0); try lia.
  - subst amt. destruct (Z.leb_spec (last q) (next q)).
    + assert (256 `min` (last q - next q) = 0) as -> by lia. lia.
    + assert (1 ≤ 256 `min` (last q - next q)) by lia. nia.
  - destruct (Z.leb_spec lst item); lia.
  - destruct (Z.leb_spec lst item); lia.
  - destruct k; lia.
Qed.

End LocalMeasure.

Lemma after_length (t : nat) (st : State) touch c' pc' w evs :
  length (st_threads (after t st touch c' pc' w evs)) = length (st_threads st).
Proof. unfold after. simpl. apply length_insert. Qed.

Lemma step_measure (t : nat) (st st' : State) :
  WF st → Step t st st' →
  (st' = st
   ∧ ∃ c pc i q, st_threads st !! t = Some (mkThread c pc) ∧ waits t pc = Some i
                 ∧ st_workqueues st !! i = Some q ∧ lock q = 1)
  ∨ mu st' < mu st.
Proof.
  intros Hwf [c pc touch c' pc' w evs Hth Hreads Htr].
  assert (Hqle : ∀ i q q', touch = Some (i, q, q') → next q ≤ last q).
  { intros i q q' ->. simpl in Hreads.
    destruct (wf_queue _ Hwf _ _ Hreads) as (? & _). lia. }
  pose proof (wf_pc _ Hwf _ _ Hth) as Hpc. simpl in Hpc.
  destruct (trans_measure _ _ _ _ _ _ _ _ _ _ Htr _ _ (wf_nthr _ Hwf)
              ltac:(lia) Hpc Hqle)
    as [(i & q & -> & Hl & Hw & -> & -> & -> & ->)|Hdec].
  - left. simpl in Hreads. split; [by apply after_same|].
    by exists c, pc, i, q.
  - right. unfold mu. rewrite after_length.
    set (n := Z.of_nat (length (st_threads st))) in *.
    unfold after; cbn [st_common st_workqueues st_threads st_mem st_log].
    unfold threads_measure. rewrite (sumZ_insert _ _ _ _ _ Hth). simpl.
    pose proof (trans_claimed _ _ _ _ _ _ _ _ _ _ Htr) as Hcl.
    assert (waiting (touch_queues touch (st_workqueues st))
            = waiting (st_workqueues st) - claimed evs) as ->.
    { rewrite Hcl. destruct touch as [[[i q] q']|]; simpl in *; [|lia].
      unfold waiting. rewrite (sumZ_insert _ _ _ _ _ Hreads). lia. }
    lia.
Qed.




(** A thread that has not returned always has a step. *)
Lemma step_defined (t : nat) (st : State) (th : Thread) :
  WF st → st_threads st !! t = Some th → th_pc th ≠ Done →
  ∃ st', step A kernel t st = Some st'.
Proof.
  intros Hwf Hth Hnd. pose proof (wf_pc _ Hwf _ _ Hth) as Hpc.
  unfold step. rewrite Hth. simpl.
  destruct (th_pc th); try done; simpl;
    repeat match goal with
      | |- context [match ?x with _ => _ end] => destruct x
      end; eauto.
Qed.

(** The step of thread [t] is effective: [t] has not returned, and if it
    stands at a [Lock], the lock is free. *)
Definition effective (t : nat) (st : State) : bool :=
  match st_threads st !! t with
  | Some th =>
      match th_pc th with
      | Done | Trap _ => false
      | pc =>
          match waits t pc with
          | Some i => match st_workqueues st !! i with
                      | Some q => lock q =? 0
                      | None => false
                      end
          | None => true
          end
      end
  | None => false
  end.

Lemma effective_measure (t : nat) (st : State) :
  WF st → effective t st = true → mu (tick A kernel st t) < mu st.
Proof.
  intros Hwf Heff. unfold effective in Heff.
  destruct (st_threads st !! t) as [th|] eqn:Hth; [|done].
  assert (th_pc th ≠ Done) as Hnd by (intros Hd; by rewrite Hd in Heff).
  destruct (step_defined _ _ _ Hwf Hth Hnd) as [st' Hst].
  unfold tick. rewrite Hst. simpl.
  destruct (step_measure _ _ _ Hwf (step_sound _ _ _ Hwf Hst))
    as [(_ & c & pc & i & q & Hth' & Hw & Hq & Hl)|Hlt]; [|done].
  simplify_eq/=. destruct pc; simplify_eq/=; by rewrite Hq, Hl in Heff.
Qed.

Lemma not_all_done (st : State) :
  all_done st = false → ∃ t th, st_threads st !! t = Some th ∧ th_pc th ≠ Done.
Proof.
  unfold all_done. intros Hf.
  induction (st_threads st) as [|th ths IH]; simpl in Hf; [done|].
  apply andb_false_iff in Hf as [Hf|Hf].
  - exists 0%nat, th. split; [done|]. intros Hd. by rewrite Hd in Hf.
  - destruct (IH Hf) as (t & th' & Ht & Hnd). by exists (S t), th'.
Qed.

(** While some worker has not returned, some worker has an effective
    step: a held lock has a holder, and a holder never waits. *)
Lemma progress_exists (st : State) :
  WF st → all_done st = false →
  ∃ t, (t < length (st_threads st))%nat ∧ effective t st = true.
Proof.
  intros Hwf Hnd. destruct (not_all_done _ Hnd) as (t & th & Hth & Hpc).
  pose proof (wf_pc _ Hwf _ _ Hth) as Hok.
  destruct (waits t (th_pc th)) as [i|] eqn:Hw.
  - assert (∃ q, st_workqueues st !! i = Some q) as [q Hq].
    { apply lookup_lt_is_Some_2. rewrite (wf_len _ Hwf).
      apply lookup_lt_Some in Hth.
      destruct (th_pc th); simpl in *; simplify_eq; lia. }
    destruct (wf_queue _ Hwf _ _ Hq) as (_ & _ & [Hl|Hl]).
    + exists t. split; [by eapply lookup_lt_Some|].
      unfold effective. rewrite Hth.
      destruct (th_pc th); simpl in *; simplify_eq; by rewrite Hq, Hl.
    + destruct (wf_owner _ Hwf _ _ Hq Hl) as (t2 & th2 & Hth2 & Hh).
      exists t2. split; [by eapply lookup_lt_Some|].
      unfold effective. rewrite Hth2. by destruct (th_pc th2).
  - exists t. split; [by eapply lookup_lt_Some|].
    unfold effective. rewrite Hth.
    destruct (th_pc th); simpl in *; done.
Qed.

(** ** Termination under fair schedules *)






Lemma tick_length (t : nat) (st : State) :
  WF st → length (st_threads (tick A kernel st t)) = length (st_threads st).
Proof.
  intros Hwf. destruct (tick_cases t st Hwf) as [->|Hs]; [done|].
  destruct Hs. apply after_length.
Qed.

Lemma run_length (sched : list nat) (st : State) :
  WF st → length (st_threads (run A kernel sched st)) = length (st_threads st).
Proof.
  revert st. induction sched as [|t sched IH]; intros st Hwf; [done|].
  simpl. rewrite IH by (by apply tick_WF). by apply tick_length.
Qed.






(** ** Queues only shrink *)

Lemma step_monotone (t : nat) (st st' : State) (i : nat) (q' : WorkQueue) :
  WF st → Step t st st' → st_workqueues st' !! i = Some q' →
  ∃ q, st_workqueues st !! i = Some q ∧ next q ≤ next q' ∧ last q' ≤ last q.
Proof.
  intros Hwf [c pc touch c' pc' w evs Hth Hreads Htr] Hq'.
  simpl in Hq'. apply touch_queues_lookup in Hq' as [[q0 ->]|[_ Hq']].
  - simpl in Hreads. exists q0. split; [done|].
    eapply trans_monotone; [done..|]. by apply (wf_queue _ Hwf i).
  - exists q'. split; [done|lia].
Qed.

Lemma run_monotone (sched : list nat) (st : State) (i : nat) (q' : WorkQueue) :
  WF st → st_workqueues (run A kernel sched st) !! i = Some q' →
  ∃ q, st_workqueues st !! i = Some q ∧ next q ≤ next q' ∧ last q' ≤ last q.
Proof.
  revert st. induction sched as [|t sched IH]; intros st Hwf Hq'.
  - exists q'. split; [done|lia].
  - simpl in Hq'. destruct (IH _ (tick_WF t st Hwf) Hq') as (q1 & Hq1 & Hn1 & Hl1).
    destruct (tick_cases t st Hwf) as [Heq|Hs].
    + rewrite Heq in Hq1. by exists q1.
    + destruct (step_monotone _ _ _ _ _ Hwf Hs Hq1) as (q & Hq & Hn & Hl).
      exists q. split; [done|lia].
Qed.

(** ** What each worker operation may touch *)

(** The thread is inside [_do_workqueue]. *)
Definition in_drain (pc : Pc) : bool :=
  match pc with
  | DrainLock | DrainCrit | DrainUnlock _ _ _ | Work KDrain _ _ _ _ => true
  | _ => false
  end.

(** The thread is inside [_do_work_stealing_check] on this peer. *)
Definition steal_peer (pc : Pc) : option nat :=
  match pc with
  | StealLock i _ | StealCrit i _ | StealUnlockThen i _ _ | StealUnlockElse i _ =>
      Some (Z.to_nat i)
  | _ => None
  end.

Lemma trans_frame cm t m c pc touch c' pc' w evs :
  Trans cm t m c pc touch c' pc' w evs →
  match touch with
  | None => True
  | Some (i, q, q') =>
      (in_drain pc = true ∧ i = t ∧ last q' = last q)
      ∨ (steal_peer pc = Some i ∧ next q' = next q)
  end.
Proof. destruct 1; simpl; try done; try (by left); by right. Qed.

Lemma step_frame (t : nat) (st st' : State) (c : Context) (pc : Pc) :
  Step t st st' → st_threads st !! t = Some (mkThread c pc) →
  st_common st' = st_common st
  ∧ (∀ t', t' ≠ t → st_threads st' !! t' = st_threads st !! t')
  ∧ (∃ c' pc', st_threads st' !! t = Some (mkThread c' pc') ∧ id c' = id c)
  ∧ (in_drain pc = true →
       (∀ j, j ≠ t → st_workqueues st' !! j = st_workqueues st !! j)
       ∧ ∀ q q', st_workqueues st !! t = Some q → st_workqueues st' !! t = Some q' →
                 last q' = last q)
  ∧ (∀ i, steal_peer pc = Some i →
       (∀ j, j ≠ i → st_workqueues st' !! j = st_workqueues st !! j)
       ∧ ∀ q q', st_workqueues st !! i = Some q → st_workqueues st' !! i = Some q' →
                 next q' = next q)
  ∧ (in_drain pc = false → steal_peer pc = None →
       st_workqueues st' = st_workqueues st).
Proof.
  intros [c0 pc0 touch c' pc' w evs Hth Hreads Htr] Hth'. simplify_eq.
  pose proof (trans_frame _ _ _ _ _ _ _ _ _ _ Htr) as Hfr.
  assert (Htlt : (t < length (st_threads st))%nat) by (by eapply lookup_lt_Some).
  split; [done|]. split; [|split; [|split; [|split]]].
  - intros t' Hne. simpl. apply list_lookup_insert_ne. congruence.
  - exists c', pc'. split; [by apply list_lookup_insert_eq|].
    by eapply trans_id.
  - intros Hd. destruct touch as [[[i q0] q0']|]; simpl in *.
    2:{ split; [done|]. intros; by simplify_eq. }
    destruct Hfr as [(_ & -> & Hl)|(Hp & _)];
      [|by destruct pc0 as [| | |[]| | | | | | | |]].
    split; [intros j Hne; apply list_lookup_insert_ne; congruence|].
    intros q q' Hq Hq'. rewrite list_lookup_insert_eq in Hq' by (by eapply lookup_lt_Some).
    by simplify_eq.
  - intros i Hp. destruct touch as [[[i0 q0] q0']|]; simpl in *.
    2:{ split; [done|]. intros; by simplify_eq. }
    destruct Hfr as [(Hd & _)|(Hp' & Hn)];
      [by destruct pc0 as [| | |[]| | | | | | | |]|].
    simplify_eq.
    split; [intros j Hne; apply list_lookup_insert_ne; congruence|].
    intros q q' Hq Hq'. rewrite list_lookup_insert_eq in Hq' by (by eapply lookup_lt_Some).
    by simplify_eq.
  - intros Hd Hp. destruct touch as [[[i q0] q0']|]; simpl in *; [|done].
    destruct Hfr as [(Hd' & _)|(Hp' & _)]; congruence.
Qed.

(** ** A residue below the granularity stays with its owner *)

Definition owner_drain (i : nat) (e : Event) : Prop :=
  ∃ item amt, e = EvDrain (Z.of_nat i) item amt.

Definition steals_from (i : nat) (e : Event) : Prop :=
  ∃ tid item, e = EvSteal tid (Z.of_nat i) item.

Lemma trans_event cm t m c pc touch c' pc' w evs (e : Event) :
  Trans cm t m c pc touch c' pc' w evs → e ∈ evs →
  ∃ j q q', touch = Some (j, q, q')
    ∧ ((j = t ∧ e = EvDrain (Z.of_nat t) (next q) (Z.min GRANULARITY (last q - next q)))
       ∨ (∃ i, j = Z.to_nat i ∧ e = EvSteal (Z.of_nat t) i (last q - GRANULARITY)
               ∧ next q ≤ last q - GRANULARITY)).
Proof.
  destruct 1; intros He; try (by apply elem_of_nil in He);
    apply list_elem_of_singleton in He as ->; do 3 eexists; (split; [done|]).
  - left. by subst amt.
  - right. by exists i.
Qed.

Lemma event_in_queue (j t : nat) (q : WorkQueue) (e : Event) (k : Z) :
  next q ≤ last q →
  (j = t ∧ e = EvDrain (Z.of_nat t) (next q) (Z.min GRANULARITY (last q - next q)))
  ∨ (∃ i, j = Z.to_nat i ∧ e = EvSteal (Z.of_nat t) i (last q - GRANULARITY)
          ∧ next q ≤ last q - GRANULARITY) →
  covers k e = true → queued k q = true.
Proof.
  unfold covers, queued, GRANULARITY.
  intros Hq [[_ ->]|(i & _ & -> & Hle)]; simpl; unfold GRANULARITY;
    intros [?%Z.leb_le ?%Z.ltb_lt]%andb_true_iff;
    apply andb_true_iff; (split; [apply Z.leb_le|apply Z.ltb_lt]); lia.
Qed.

(** Two queues never hold the same index, and a taken index is in no
    queue. *)
Lemma queued_unique (st : State) (k : Z) (i j : nat) (qi qj : WorkQueue) :
  Acct st → st_workqueues st !! i = Some qi → st_workqueues st !! j = Some qj →
  queued k qi = true → queued k qj = true → i = j.
Proof.
  intros Hac Hi Hj Hqi Hqj.
  apply (ind_sum_unique (queued k) (st_workqueues st) i j qi qj); try done.
  pose proof (ac_cover _ Hac k) as Hc. pose proof (count_ev_nonneg k (st_log st)).
  pose proof (ind_range ((0 <=? k) && (k <? batch st))).
  unfold count_q in Hc. lia.
Qed.

Lemma queued_not_taken (st : State) (k : Z) (j : nat) (qj : WorkQueue) :
  Acct st → st_workqueues st !! j = Some qj → queued k qj = true →
  count_ev k (st_log st) = 0.
Proof.
  intros Hac Hj Hqj.
  pose proof (ind_sum_elem (queued k) _ _ _ Hj Hqj) as H1.
  pose proof (ac_cover _ Hac k) as Hc. pose proof (count_ev_nonneg k (st_log st)).
  pose proof (ind_range ((0 <=? k) && (k <? batch st))).
  unfold count_q in Hc. lia.
Qed.

(** From a state in which queue [i] holds [a, b) with fewer than 256
    elements, relative to the log [base] of that state. *)
Record Residual (i : nat) (a b : Z) (base : list Event) (st : State) : Prop :=
  mkResidual {
  rs_small : ∃ q, st_workqueues st !! i = Some q
                  ∧ last q - next q < GRANULARITY
                  ∧ ∀ k, a ≤ k < b → queued k q = true ∨ 1 ≤ count_ev k (st_log st);
  rs_new : ∃ new, st_log st = base ++ new
                  ∧ ∀ e, e ∈ new →
                      ¬ steals_from i e
                      ∧ ∀ k, a ≤ k < b → covers k e = true → owner_drain i e
}.

Lemma step_Residual (i : nat) (a b : Z) (base : list Event) (t : nat)
    (st st' : State) :
  WF st → Acct st → Residual i a b base st → Step t st st' →
  Residual i a b base st'.
Proof.
  intros Hwf Hac [(q & Hq & Hsmall & Hk) (new & Hlog & Hnew)]
    [c pc touch c' pc' w evs Hth Hreads Htr].
  assert (Hqle : ∀ j q0 q0', touch = Some (j, q0, q0') → next q0 ≤ last q0).
  { intros j q0 q0' ->. simpl in Hreads.
    destruct (wf_queue _ Hwf _ _ Hreads) as (? & _). lia. }
  constructor; unfold after; cbn [st_common st_workqueues st_threads st_mem st_log].
  - assert ((∃ q0 q0', touch = Some (i, q0, q0'))
            ∨ (∀ q0 q0', touch ≠ Some (i, q0, q0'))) as [(q0 & q0' & ->)|Hno].
    { destruct touch as [[[j q0] q0']|]; [|by right].
      destruct (decide (j = i)) as [->|]; [left; eauto|right; congruence]. }
    + simpl in Hreads. assert (q0 = q) as -> by congruence. exists q0'.
      split; [by apply touch_queues_written|].
      destruct (trans_monotone _ _ _ _ _ _ _ _ _ _ Htr (batch st) _ _ _ eq_refl
                  (wf_queue _ Hwf _ _ Hreads)) as [Hn Hl].
      split; [lia|]. intros k Hab.
      pose proof (trans_cover _ _ _ _ _ _ _ _ _ _ Htr k Hqle) as Hcov. simpl in Hcov.
      rewrite count_ev_app. pose proof (count_ev_nonneg k evs).
      pose proof (count_ev_nonneg k (st_log st)).
      destruct (Hk k Hab) as [Hin|Htaken]; [|right; lia].
      rewrite Hin in Hcov. simpl in Hcov.
      destruct (queued k q0'); [by left|]. simpl in Hcov. right. lia.
    + exists q. split.
      { by rewrite touch_queues_other. }
      split; [done|]. intros k Hab. rewrite count_ev_app.
      pose proof (count_ev_nonneg k evs).
      destruct (Hk k Hab) as [Hin|Htaken]; [by left|right; lia].
  - exists (new ++ evs). split; [by rewrite Hlog, app_assoc|].
    intros e [He|He]%elem_of_app; [by apply Hnew|].
    destruct (trans_event _ _ _ _ _ _ _ _ _ _ _ Htr He) as (j & q0 & q0' & -> & Hshape).
    simpl in Hreads. specialize (Hqle _ _ _ eq_refl).
    split.
    + intros (tid & item & ->).
      destruct Hshape as [[_ ?]|(i' & -> & Heq & Hle)]; [done|].
      simplify_eq. rewrite Nat2Z.id in Hreads. simplify_eq. lia.
    + intros k Hab Hcov.
      pose proof (event_in_queue _ _ _ _ _ Hqle Hshape Hcov) as Hinj.
      destruct (decide (j = i)) as [->|Hne].
      * simplify_eq. destruct Hshape as [[-> ->]|(i' & _ & _ & Hle)]; [|lia].
        by do 2 eexists.
      * exfalso. destruct (Hk k Hab) as [Hin|Htaken].
        -- apply Hne. by apply (queued_unique st k j i q0 q).
        -- pose proof (queued_not_taken st k j q0 Hac Hreads Hinj). lia.
Qed.

Lemma run_Residual (i : nat) (a b : Z) (base : list Event) (sched : list nat)
    (st : State) :
  WF st → Acct st → Residual i a b base st →
  Residual i a b base (run A kernel sched st).
Proof.
  revert st. induction sched as [|t sched IH]; intros st Hwf Hac Hres; [done|].
  simpl. apply IH; [by apply tick_WF | by apply tick_Acct |].
  destruct (tick_cases t st Hwf) as [->|Hs]; [done|].
  by eapply step_Residual.
Qed.

Lemma Residual_start (i : nat) (q : WorkQueue) (st : State) :
  st_workqueues st !! i = Some q → last q - next q < GRANULARITY →
  Residual i (next q) (last q) (st_log st) st.
Proof.
  intros Hq Hsmall. constructor.
  - exists q. split; [done|]. split; [done|]. intros k Hk. left.
    unfold queued. apply andb_true_iff. split; [apply Z.leb_le|apply Z.ltb_lt]; lia.
  - exists []. split; [by rewrite app_nil_r|]. intros e He. by apply elem_of_nil in He.
Qed.

(** ** One element per queue: every thread completes exactly one *)

Definition Single (st : State) : Prop :=
  ∀ t th q, st_threads st !! t = Some th → st_workqueues st !! t = Some q →
            last q - next q ≤ 1 ∧ progress th + (last q - next q) = 1.

Lemma trans_small cm t m c pc touch c' pc' w evs (j : nat) (q q' : WorkQueue) :
  Trans cm t m c pc touch c' pc' w evs →
  touch = Some (j, q, q') → last q - next q < GRANULARITY → j ≠ t →
  next q' = next q ∧ last q' = last q.
Proof.
  destruct 1; intros; simplify_eq; simpl; unfold GRANULARITY in *; try done; lia.
Qed.

Lemma step_Single (t : nat) (st st' : State) :
  WF st → Acct st → Single st → Step t st st' → Single st'.
Proof.
  intros Hwf Hac Hsg [c pc touch c' pc' w evs Hth Hreads Htr].
  assert (Hqle : ∀ i q q', touch = Some (i, q, q') → next q ≤ last q).
  { intros i q q' ->. simpl in Hreads.
    destruct (wf_queue _ Hwf _ _ Hreads) as (? & _). lia. }
  assert (Hall : ∀ j q, st_workqueues st !! j = Some q → last q - next q ≤ 1).
  { intros j q Hq.
    destruct (lookup_lt_is_Some_2 (st_threads st) j) as [th Hj].
    { rewrite <- (wf_len _ Hwf). by eapply lookup_lt_Some. }
    by destruct (Hsg _ _ _ Hj Hq). }
  pose proof (wf_pc _ Hwf _ _ Hth) as Hpc. simpl in Hpc.
  pose proof (ac_nonneg _ Hac _ _ Hth) as Hc0. simpl in Hc0.
  assert (Hmax : completed c + inflight pc ≤ intp_max).
  { assert (∀ y, y ∈ st_threads st → 0 ≤ progress y) as Hnn.
    { intros y [j Hj]%list_elem_of_lookup. unfold progress.
      pose proof (ac_nonneg _ Hac _ _ Hj).
      pose proof (inflight_nonneg _ _ _ _ (wf_pc _ Hwf _ _ Hj)). lia. }
    pose proof (sumZ_elem_le progress _ _ _ Hnn Hth) as Hle.
    unfold progress in Hle at 1. simpl in Hle.
    rewrite (ac_done _ Hac) in Hle.
    pose proof (ac_total _ Hac). pose proof (wf_N _ Hwf).
    pose proof (waiting_nonneg _ _ (wf_queue _ Hwf)). lia. }
  destruct (trans_progress _ _ _ _ _ _ _ _ _ _ Htr _ _ Hpc Hqle Hc0 Hmax)
    as [_ Hprog].
  pose proof (trans_claimed _ _ _ _ _ _ _ _ _ _ Htr) as Hcl.
  intros t' th' q'. unfold after; cbn [st_common st_workqueues st_threads st_mem st_log].
  intros [(<- & <- & _)|(Hne & Hl)]%list_lookup_insert_Some Hq'.
  - unfold progress. simpl.
    destruct (lookup_lt_is_Some_2 (st_workqueues st) t) as [qt Hqt].
    { rewrite (wf_len _ Hwf). by eapply lookup_lt_Some. }
    destruct (Hsg _ _ _ Hth Hqt) as [Hle Hone]. unfold progress in Hone. simpl in Hone.
    destruct touch as [[[j q0] q0']|]; simpl in *.
    + destruct (decide (j = t)) as [->|Hjt].
      * rewrite list_lookup_insert_eq in Hq' by (by eapply lookup_lt_Some).
        simplify_eq.
        destruct (trans_monotone _ _ _ _ _ _ _ _ _ _ Htr (batch st) _ _ _ eq_refl
                    (wf_queue _ Hwf _ _ Hreads)). lia.
      * rewrite list_lookup_insert_ne in Hq' by done. simplify_eq.
        pose proof (Hall _ _ Hreads).
        destruct (trans_small _ _ _ _ _ _ _ _ _ _ _ _ _ Htr eq_refl) as [Hn Hl];
          [unfold GRANULARITY; lia | done |]. lia.
    + simplify_eq. lia.
  - apply touch_queues_lookup in Hq' as [[q0 ->]|[_ Hq']].
    + simpl in Hreads. pose proof (Hall _ _ Hreads).
      destruct (trans_small _ _ _ _ _ _ _ _ _ _ _ _ _ Htr eq_refl) as [Hn Hl'];
        [unfold GRANULARITY; lia | congruence |].
      destruct (Hsg _ _ _ Hl Hreads) as [Hle Hone]. lia.
    + by apply (Hsg _ _ _ Hl Hq').
Qed.

Lemma run_Single (sched : list nat) (st : State) :
  WF st → Acct st → Single st → Single (run A kernel sched st).
Proof.
  revert st. induction sched as [|t sched IH]; intros st Hwf Hac Hsg; [done|].
  simpl. apply IH; [by apply tick_WF | by apply tick_Acct |].
  destruct (tick_cases t st Hwf) as [->|Hs]; [done|].
  by eapply step_Single.
Qed.

Lemma spawn_Single (cm : ContextCommon) (N : Z) (m : Z → V) :
  1 ≤ N →
  Single (spawn (mkSetup cm (initial_queues 1 N N) (initial_contexts N)) m).
Proof.
  intros HN t th q (c & Hc & ->)%spawn_lookup Hq. simpl in *.
  apply initial_contexts_lookup in Hc as ->.
  apply initial_queues_lookup in Hq as [Hi ->]; [|done].
  unfold progress. simpl. destruct (decide _); lia.
Qed.

Lemma Single_done (st : State) (t : nat) (th : Thread) :
  WF st → Single st → all_done st = true → st_threads st !! t = Some th →
  completed (th_ctx th) = 1.
Proof.
  intros Hwf Hsg Hall Hth.
  destruct (lookup_lt_is_Some_2 (st_workqueues st) t) as [q Hq].
  { rewrite (wf_len _ Hwf). by eapply lookup_lt_Some. }
  destruct (Hsg _ _ _ Hth Hq) as [_ Hone].
  pose proof (all_done_lookup _ _ _ Hall Hth) as Hpc.
  assert (drained (th_pc th) = true) as Hd by (by rewrite Hpc).
  pose proof (wf_drained _ Hwf _ _ _ Hth Hq Hd).
  unfold progress in Hone. rewrite Hpc in Hone. simpl in Hone. lia.
Qed.

(** ** Single steps at the lock and in the critical sections *)

Lemma tick_Step (t : nat) (st : State) (c : Context) (pc : Pc) :
  WF st → st_threads st !! t = Some (mkThread c pc) → pc ≠ Done →
  ∃ touch c' pc' w evs,
    touch_reads touch (st_workqueues st)
    ∧ Trans (st_common st) t (st_mem st) c pc touch c' pc' w evs
    ∧ tick A kernel st t = after t st touch c' pc' w evs.
Proof.
  intros Hwf Hth Hnd.
  destruct (step_defined t st _ Hwf Hth Hnd) as [st' Hst].
  unfold tick. rewrite Hst. simpl.
  destruct (step_sound _ _ _ Hwf Hst) as [c0 pc0 touch c' pc' w evs Hth0 Hreads Htr].
  simplify_eq. by exists touch, c', pc', w, evs.
Qed.

Lemma after_thread (t : nat) (st : State) touch c' pc' w evs :
  (t < length (st_threads st))%nat →
  st_threads (after t st touch c' pc' w evs) !! t = Some (mkThread c' pc').
Proof. intros Ht. simpl. by apply list_lookup_insert_eq. Qed.

(** A thread at a [Lock]: the CAS fails on a held lock and nothing
    changes, or it finds the lock free and the thread then holds it. *)
Lemma lock_step (t : nat) (st : State) (c : Context) (pc : Pc) (i : nat) :
  WF st → st_threads st !! t = Some (mkThread c pc) → waits t pc = Some i →
  ∃ q, st_workqueues st !! i = Some q
    ∧ ((lock q = 1 ∧ tick A kernel st t = st)
       ∨ (lock q = 0
          ∧ ∃ pc', st_threads (tick A kernel st t) !! t = Some (mkThread c pc')
                   ∧ holds t pc' = Some i
                   ∧ st_workqueues (tick A kernel st t) !! i = Some (locked_as 1 q))).
Proof.
  intros Hwf Hth Hw.
  assert (pc ≠ Done) as Hnd by (intros ->; done).
  assert (Htlt : (t < length (st_threads st))%nat) by (by eapply lookup_lt_Some).
  destruct (tick_Step t st c pc Hwf Hth Hnd)
    as (touch & c' & pc' & w & evs & Hreads & Htr & ->).
  destruct pc; simpl in Hw; simplify_eq; inversion Htr; subst; simpl in Hreads;
    eexists; (split; [done|]).
  - left. split; [done|]. by apply after_same.
  - right. split; [done|]. eexists. split; [by apply after_thread|].
    split; [done|]. by apply touch_queues_written.
  - left. split; [done|]. by apply after_same.
  - right. split; [done|]. eexists. split; [by apply after_thread|].
    split; [done|]. by apply touch_queues_written.
Qed.


(** The stealer's critical section. *)
Lemma steal_crit_step (t : nat) (st : State) (c : Context) (i sc : Z) :
  WF st → st_threads st !! t = Some (mkThread c (StealCrit i sc)) →
  ∃ q, lookupZ (st_workqueues st) i = Some q ∧ lock q = 1
    ∧ let st' := tick A kernel st t in
      if next q <=? last q - GRANULARITY then
        lookupZ (st_workqueues st') i
          = Some (mkWorkQueue (next q) (last q - GRANULARITY) (lock q))
        ∧ st_threads st' !! t
          = Some (mkThread c (StealUnlockThen i sc (last q - GRANULARITY)))
        ∧ st_log st' = st_log st ++ [EvSteal (Z.of_nat t) i (last q - GRANULARITY)]
      else
        st_workqueues st' = st_workqueues st
        ∧ st_threads st' !! t = Some (mkThread c (StealUnlockElse i sc))
        ∧ st_log st' = st_log st.
Proof.
  intros Hwf Hth.
  assert (Htlt : (t < length (st_threads st))%nat) by (by eapply lookup_lt_Some).
  pose proof (wf_pc _ Hwf _ _ Hth) as Hpc. simpl in Hpc.
  destruct (wf_held _ Hwf t _ _ Hth eq_refl) as (q0 & Hq0 & Hl0).
  destruct (tick_Step t st c _ Hwf Hth ltac:(done))
    as (touch & c' & pc' & w & evs & Hreads & Htr & Heq).
  exists q0. split; [apply lookupZ_Some; split; [lia|done]|]. split; [done|].
  cbv zeta. rewrite Heq.
  inversion Htr; subst; simpl in Hreads; simplify_eq.
  - destruct (Z.leb_spec (next q0) (last q0 - GRANULARITY)); [|lia].
    split; [apply lookupZ_Some; split; [lia|by apply touch_queues_written]|].
    split; [by apply after_thread|done].
  - destruct (Z.leb_spec (next q0) (last q0 - GRANULARITY)); [lia|].
    split; [simpl; by apply list_insert_id|].
    split; [by apply after_thread|]. simpl. by rewrite app_nil_r.
Qed.

End Verification.

(** * The engine's properties, batch by batch *)

(** A batch as the dispatcher receives it: [T] configured threads,
    [N = d[0]] elements, argument pointers [a], strides [s]; [st0] is the
    state in which the workers are spawned. *)
Definition started {V : Type} (T N : Z) (a d s : list Z) (dat : Z)
    (junk_wq : WorkQueue) (junk_ctx : Context) (m0 : Z → V) (st0 : State) : Prop :=
  1 ≤ T ≤ int_max ∧ 0 ≤ N ≤ intp_max ∧ d !! 0%nat = Some N
  ∧ body T a d s dat junk_wq junk_ctx m0 = Ok st0.

(** The thread count the dispatcher settles on. *)
Definition spawned_threads (T N : Z) : Z := if N <? T then N else T.

Lemma started_inv {V : Type} (A : nat) (T N : Z) (a d s : list Z) (dat : Z)
    (junk_wq : WorkQueue) (junk_ctx : Context) (m0 : Z → V) (st0 : State) :
  started T N a d s dat junk_wq junk_ctx m0 st0 →
  1 ≤ N ∧ WF A st0 ∧ Acct st0 ∧ batch st0 = N
  ∧ ∃ ChunkSize,
      st0 = spawn (mkSetup (mkContextCommon a d s dat (spawned_threads T N))
                     (initial_queues ChunkSize (spawned_threads T N) N)
                     (initial_contexts (spawned_threads T N))) m0
      ∧ ChunkSize = (if N <? T then 1 else N / T)
      ∧ 1 ≤ spawned_threads T N.
Proof.
  intros (HT & HN & Hd & Hbody).
  destruct (decide (N = 0)) as [->|Hne].
  { rewrite body_empty in Hbody by done. done. }
  destruct (body_spec T N a d s dat junk_wq junk_ctx m0) as (Hb & Hok & Hc & Hle);
    [lia..|done|].
  rewrite Hb in Hbody. injection Hbody as <-.
  split; [lia|]. split; [by apply spawn_WF|]. split; [by apply spawn_Acct|].
  split; [unfold batch; simpl; by apply list_lookup_total_correct|].
  eexists. split; [done|]. split; [done|].
  unfold spawned_threads. destruct (Z.ltb_spec N T); lia.
Qed.

Ltac closed_bounds := rewrite ?int_max_eq, ?intp_max_eq; lia.

(** C5. With [chunk = N / T] by integer division, or [chunk = 1] and
    [T = N] when that is zero, [_populate_workqueues] leaves queue [i] at
    [next = i*chunk], [last = (i+1)*chunk], [lock = 0], the last queue's
    [last] overwritten with [N]; for [N >= 1] every queue is non-empty and
    the queues' ranges cover [0, N) without overlap. *)
Theorem dispatcher_queue_initialization (T N : Z) (junk : WorkQueue) :
  1 ≤ T ≤ int_max → 1 ≤ N ≤ intp_max →
  let chunk := if N / T =? 0 then 1 else N / T in
  let n := if N / T =? 0 then N else T in
  chunk_and_threads T N = (chunk, n)
  ∧ ∃ wqs, populate_workqueues (replicate (Z.to_nat n) junk) N chunk n = Ok wqs
      ∧ length wqs = Z.to_nat n
      ∧ (∀ i, 0 ≤ i < n →
           lookupZ wqs i
           = Some (mkWorkQueue (i * chunk)
                     (if i =? n - 1 then N else (i + 1) * chunk) 0))
      ∧ (∀ i q, wqs !! i = Some q → 0 ≤ next q ∧ next q < last q ∧ last q ≤ N)
      ∧ (∀ k, 0 ≤ k < N →
           ∃ i q, wqs !! i = Some q ∧ next q ≤ k < last q
                  ∧ ∀ j q', wqs !! j = Some q' → next q' ≤ k < last q' → j = i).
Proof.
  intros HT HN.
  assert (Hdiv : (N / T =? 0) = (N <? T)).
  { destruct (Z.ltb_spec N T).
    - rewrite Z.div_small by lia. done.
    - assert (1 ≤ N / T) by (apply Z.div_le_lower_bound; lia).
      destruct (Z.eqb_spec (N / T) 0); [lia|done]. }
  rewrite Hdiv. cbv zeta.
  set (chunk := if N <? T then 1 else N / T).
  set (n := if N <? T then N else T).
  assert (Hcn : 1 ≤ n ≤ int_max ∧ 1 ≤ chunk ∧ n * chunk ≤ N).
  { unfold chunk, n. destruct (Z.ltb_spec N T); [lia|].
    assert (1 ≤ N / T) by (apply Z.div_le_lower_bound; lia).
    assert (T * (N / T) ≤ N) by (apply Z.mul_div_le; lia). lia. }
  destruct Hcn as (Hn & Hc & Hle).
  assert (Hok : chunks_ok chunk n N) by (unfold chunks_ok; nia).
  split.
  { rewrite chunk_and_threads_spec by lia. unfold chunk, n.
    by destruct (N <? T). }
  exists (initial_queues chunk n N).
  split; [apply populate_workqueues_spec; lia|].
  split; [apply initial_queues_length; lia|].
  split; [|split].
  - intros i Hi.
    destruct (lookup_lt_is_Some_2 (initial_queues chunk n N) (Z.to_nat i)) as [q Hq].
    { rewrite initial_queues_length; lia. }
    apply lookupZ_Some. split; [lia|]. rewrite Hq. f_equal.
    apply initial_queues_lookup in Hq as [_ ->]; [|lia].
    rewrite Z2Nat.id by lia.
    destruct (decide (i = n - 1)), (Z.eqb_spec i (n - 1)); done.
  - intros i q Hq. apply initial_queues_lookup in Hq as [Hi ->]; [|lia].
    simpl. destruct (decide _); nia.
  - intros k Hk.
    pose proof (initial_count chunk n N k Hok) as Hcount.
    assert ((0 <=? k) && (k <? N) = true) as Hin.
    { apply andb_true_iff. split; [apply Z.leb_le|apply Z.ltb_lt]; lia. }
    rewrite Hin in Hcount. simpl in Hcount. unfold count_q in Hcount.
    destruct (ind_sum_exists (queued k) (initial_queues chunk n N)) as (i & q & Hq & Hqk);
      [lia|].
    exists i, q. split; [done|].
    apply andb_true_iff in Hqk as Hqk'. destruct Hqk' as [?%Z.leb_le ?%Z.ltb_lt].
    split; [lia|]. intros j q' Hq' Hk'.
    apply (ind_sum_unique (queued k) (initial_queues chunk n N) j i q' q);
      [lia|done|done| |done].
    unfold queued. apply andb_true_iff. split; [apply Z.leb_le|apply Z.ltb_lt]; lia.
Qed.

Lemma dispatcher_queue_initialization_witness :
  chunk_and_threads 4 10 = (2, 4)
  ∧ ∃ wqs, populate_workqueues (replicate 4 (mkWorkQueue 7 7 7)) 10 2 4 = Ok wqs
      ∧ length wqs = 4%nat
      ∧ (∀ i, 0 ≤ i < 4 →
           lookupZ wqs i
           = Some (mkWorkQueue (i * 2) (if i =? 3 then 10 else (i + 1) * 2) 0))
      ∧ (∀ i q, wqs !! i = Some q → 0 ≤ next q ∧ next q < last q ∧ last q ≤ 10)
      ∧ (∀ k, 0 ≤ k < 10 →
           ∃ i q, wqs !! i = Some q ∧ next q ≤ k < last q
                  ∧ ∀ j q', wqs !! j = Some q' → next q' ≤ k < last q' → j = i).
Proof.
  apply (dispatcher_queue_initialization 4 10 (mkWorkQueue 7 7 7));
    rewrite ?int_max_eq, ?intp_max_eq; lia.
Defined.

(** ** A small batch to run: [x → 2*x] on 64-bit integers over three
    elements, two threads *)

(** Little-endian integers; a byte is a number in [0, 256). *)
Fixpoint le_decode (bs : list Z) : Z :=
  match bs with
  | [] => 0
  | b :: bs' => b + 256 * le_decode bs'
  end.

Fixpoint le_encode (n : nat) (x : Z) : list Z :=
  match n with
  | O => []
  | S n' => x mod 256 :: le_encode n' (x / 256)
  end.

Definition demo_kernel : Kernel Z :=
  mkKernel (λ _, 8) 8
    (λ l, match l with
          | x :: _ => le_encode 8 (2 * le_decode x)
          | [] => le_encode 8 0
          end).

(** Memory at the start: the byte at address [p] holds [p mod 256]. *)
Definition demo_mem : Z → Z := λ p, p mod 256.

Lemma demo_typed : well_typed demo_kernel.
Proof. intros [|x l]; reflexivity. Qed.
Definition demo_args : list Z := [1000; 50000].
Definition demo_steps : list Z := [8; 8].
Definition demo_junk_wq : WorkQueue := mkWorkQueue 7 7 7.
Definition demo_junk_ctx : Context := mkContext 9 9.

Definition demo_start : State :=
  spawn (mkSetup (mkContextCommon demo_args [3] demo_steps 0 2)
           (initial_queues 1 2 3) (initial_contexts 2)) demo_mem.

(** Thirty rounds of thread 0 then thread 1. *)
Definition demo_sched : list nat := concat (replicate 30 [0; 1]%nat).

Lemma demo_started :
  started 2 3 demo_args [3] demo_steps 0 demo_junk_wq demo_junk_ctx demo_mem demo_start.
Proof. unfold started. repeat split; try closed_bounds. Qed.

Lemma demo_all_done : all_done (run 1 demo_kernel demo_sched demo_start) = true.
Proof. vm_compute. reflexivity. Qed.

Lemma demo_valid :
  valid_batch 1 demo_kernel (mkContextCommon demo_args [3] demo_steps 0 2) 3.
Proof. apply valid_batchb_spec. vm_compute. reflexivity. Qed.

Lemma addr_ext (cm1 cm2 : ContextCommon) (i : nat) (k : Z) :
  args cm1 = args cm2 → steps cm1 = steps cm2 → addr cm1 i k = addr cm2 i k.
Proof. unfold addr. by intros -> ->. Qed.

Lemma batch_run {V : Type} (A : nat) (kernel : Kernel V) (sched : list nat)
    (st : State) :
  WF A st → batch (run A kernel sched st) = batch st.
Proof. intros Hwf. unfold batch. by rewrite run_common. Qed.

(** C2. When all workers have returned, every index of [0, N) lies in
    exactly one range taken from a queue (by an owner's drain or by a
    steal) and no range reaches outside [0, N); the [completed] counters
    sum to [N] and the dispatcher's audit does not take its abort
    branch. *)
Theorem partition_and_accounting {V : Type} (A : nat) (kernel : Kernel V)
    (T N : Z) (a d s : list Z) (dat : Z) (junk_wq : WorkQueue)
    (junk_ctx : Context) (m0 : Z → V) (st0 : State) (sched : list nat) :
  started T N a d s dat junk_wq junk_ctx m0 st0 →
  all_done (run A kernel sched st0) = true →
  let st := run A kernel sched st0 in
  (∀ k, 0 ≤ k < N →
     ∃ i e, st_log st !! i = Some e ∧ covers k e = true
            ∧ ∀ j e', st_log st !! j = Some e' → covers k e' = true → j = i)
  ∧ (∀ k e, e ∈ st_log st → covers k e = true → 0 ≤ k < N)
  ∧ claimed (st_log st) = N
  ∧ sumZ (λ th, completed (th_ctx th)) (st_threads st) = N
  ∧ total_completed st = N
  ∧ race_detected st = false.
Proof.
  intros Hst Hdone. cbv zeta.
  destruct (started_inv A _ _ _ _ _ _ _ _ _ _ Hst) as (HN & Hwf0 & Hac0 & Hb0 & _).
  pose proof (run_WF A kernel sched st0 Hwf0) as Hwf.
  pose proof (run_Acct A kernel sched st0 Hwf0 Hac0) as Hac.
  pose proof (batch_run A kernel sched st0 Hwf0) as Hb. rewrite Hb0 in Hb.
  set (st := run A kernel sched st0) in *.
  assert (Hcount : ∀ k, count_ev k (st_log st) = ind ((0 <=? k) && (k <? N))).
  { intros k. pose proof (ac_cover _ Hac k) as Hc.
    rewrite (all_done_count_q A st k Hwf Hdone), Hb in Hc. lia. }
  destruct (total_completed_sum A st Hwf Hac Hdone) as [Htot Hsum].
  rewrite Hb in Hsum.
  split; [|split; [|split; [|split; [|split]]]].
  - intros k Hk. specialize (Hcount k).
    assert ((0 <=? k) && (k <? N) = true) as Hin.
    { apply andb_true_iff. split; [apply Z.leb_le|apply Z.ltb_lt]; lia. }
    rewrite Hin in Hcount. simpl in Hcount. unfold count_ev in Hcount.
    destruct (ind_sum_exists (covers k) (st_log st)) as (i & e & He & Hcov); [lia|].
    exists i, e. split; [done|]. split; [done|]. intros j e' He' Hcov'.
    apply (ind_sum_unique (covers k) (st_log st) j i e' e); [lia|done..].
  - intros k e [i He]%list_elem_of_lookup Hcov.
    pose proof (ind_sum_elem (covers k) _ _ _ He Hcov) as H1.
    specialize (Hcount k). unfold count_ev in Hcount.
    destruct (Z.leb_spec 0 k), (Z.ltb_spec k N); simpl in Hcount; lia.
  - pose proof (ac_total _ Hac) as Ht.
    rewrite (all_done_waiting A st Hwf Hdone), Hb in Ht. lia.
  - done.
  - lia.
  - unfold race_detected. fold (batch st). rewrite Hb, Htot, Hsum, Z.eqb_refl. done.
Qed.

Lemma partition_and_accounting_witness :
  (∀ k, 0 ≤ k < 3 →
     ∃ i e, st_log (run 1 demo_kernel demo_sched demo_start) !! i = Some e
            ∧ covers k e = true
            ∧ ∀ j e', st_log (run 1 demo_kernel demo_sched demo_start) !! j = Some e' →
                      covers k e' = true → j = i)
  ∧ (∀ k e, e ∈ st_log (run 1 demo_kernel demo_sched demo_start) →
            covers k e = true → 0 ≤ k < 3)
  ∧ claimed (st_log (run 1 demo_kernel demo_sched demo_start)) = 3
  ∧ sumZ (λ th, completed (th_ctx th))
      (st_threads (run 1 demo_kernel demo_sched demo_start)) = 3
  ∧ total_completed (run 1 demo_kernel demo_sched demo_start) = 3
  ∧ race_detected (run 1 demo_kernel demo_sched demo_start) = false.
Proof.
  exact (partition_and_accounting 1 demo_kernel 2 3 demo_args [3] demo_steps 0
           demo_junk_wq demo_junk_ctx demo_mem demo_start demo_sched
           demo_started demo_all_done).
Defined.

Lemma in_output_ext {V : Type} (A : nat) (kernel : Kernel V)
    (cm1 cm2 : ContextCommon) (k p : Z) :
  args cm1 = args cm2 → steps cm1 = steps cm2 →
  in_output A kernel cm1 k p → in_output A kernel cm2 k p.
Proof.
  intros Ha Hs (j & Hj & ->). exists j. split; [done|].
  by rewrite (addr_ext cm1 cm2).
Qed.

Lemma inputs_cm_ext {V : Type} (A : nat) (kernel : Kernel V)
    (cm1 cm2 : ContextCommon) (m : Z → V) (k : Z) :
  args cm1 = args cm2 → steps cm1 = steps cm2 →
  inputs A kernel cm1 m k = inputs A kernel cm2 m k.
Proof.
  intros Ha Hs. unfold inputs. apply list_fmap_ext. intros _ i _.
  by rewrite (addr_ext cm1 cm2).
Qed.

Lemma valid_batch_ext {V : Type} (A : nat) (kernel : Kernel V)
    (cm1 cm2 : ContextCommon) (N : Z) :
  args cm1 = args cm2 → steps cm1 = steps cm2 →
  valid_batch A kernel cm1 N → valid_batch A kernel cm2 N.
Proof.
  intros Ha Hs [Hinj Hdisj]. split.
  - intros k k' j j' Hk Hk' Hj Hj'. rewrite <- !(addr_ext cm1 cm2) by done.
    by apply Hinj.
  - intros i k k' j j' Hi Hk Hk' Hj Hj'. rewrite <- !(addr_ext cm1 cm2) by done.
    by apply Hdisj.
Qed.

(** What holds at every point of a batch that was started. *)
Lemma started_run {V : Type} (A : nat) (kernel : Kernel V)
    (T N : Z) (a d s : list Z) (dat : Z) (junk_wq : WorkQueue)
    (junk_ctx : Context) (m0 : Z → V) (st0 : State) (sched : list nat) :
  started T N a d s dat junk_wq junk_ctx m0 st0 →
  WF A st0 ∧ Acct st0 ∧ batch st0 = N ∧ st_mem st0 = m0
  ∧ args (st_common st0) = a ∧ steps (st_common st0) = s
  ∧ WF A (run A kernel sched st0) ∧ Acct (run A kernel sched st0)
  ∧ batch (run A kernel sched st0) = N
  ∧ st_common (run A kernel sched st0) = st_common st0.
Proof.
  intros Hst.
  destruct (started_inv A _ _ _ _ _ _ _ _ _ _ Hst)
    as (HN & Hwf0 & Hac0 & Hb0 & chunk & Heq & _ & _).
  split; [done|]. split; [done|]. split; [done|].
  split; [by rewrite Heq|]. split; [by rewrite Heq|]. split; [by rewrite Heq|].
  split; [by apply run_WF|]. split; [by apply run_Acct|].
  split; [by rewrite batch_run|]. by apply run_common.
Qed.

Lemma started_MemInv {V : Type} (A : nat) (kernel : Kernel V)
    (T N : Z) (a d s : list Z) (dat : Z) (junk_wq : WorkQueue)
    (junk_ctx : Context) (m0 : Z → V) (st0 : State) (sched : list nat) :
  started T N a d s dat junk_wq junk_ctx m0 st0 →
  well_typed kernel →
  valid_batch A kernel (mkContextCommon a d s dat T) N →
  MemInv A kernel m0 (run A kernel sched st0).
Proof.
  intros Hst Hty Hv.
  destruct (started_run A kernel _ _ _ _ _ _ _ _ _ _ sched Hst)
    as (Hwf0 & Hac0 & Hb0 & _ & Ha & Hs & _).
  destruct (started_inv A _ _ _ _ _ _ _ _ _ _ Hst)
    as (_ & _ & _ & _ & chunk & Heq & _ & _).
  apply run_MemInv; try done.
  - rewrite Hb0. by apply (valid_batch_ext A kernel (mkContextCommon a d s dat T)).
  - rewrite Heq. apply spawn_MemInv.
Qed.

(** C1. For a valid batch and a kernel that returns values of its return
    type, when all workers have returned, the output slot at
    [args[A] + k*steps[A]] of every [k] in [0, N) holds the bytes of the
    kernel's value on the values found, when the batch started, in the
    input slots at [args[i] + k*steps[i]]; and every byte of an input slot
    that is not a byte of an output slot holds what it held at the
    start. *)
Theorem exactness {V : Type} (A : nat) (kernel : Kernel V)
    (T N : Z) (a d s : list Z) (dat : Z) (junk_wq : WorkQueue)
    (junk_ctx : Context) (m0 : Z → V) (st0 : State) (sched : list nat) :
  started T N a d s dat junk_wq junk_ctx m0 st0 →
  well_typed kernel →
  valid_batch A kernel (mkContextCommon a d s dat T) N →
  all_done (run A kernel sched st0) = true →
  let cm := mkContextCommon a d s dat T in
  ∀ k, 0 ≤ k < N →
    load (st_mem (run A kernel sched st0)) (addr cm A k) (ret_size kernel)
    = kernel ((λ i, load m0 (addr cm i k) (arg_size kernel i)) <$> seq 0 A)
    ∧ ∀ p, in_input A kernel cm k p →
           (∀ k', 0 ≤ k' < N → ¬ in_output A kernel cm k' p) →
           st_mem (run A kernel sched st0) p = m0 p.
Proof.
  intros Hst Hty Hv Hdone. cbv zeta. intros k Hk.
  destruct (started_run A kernel _ _ _ _ _ _ _ _ _ _ sched Hst)
    as (Hwf0 & Hac0 & Hb0 & Hm0 & Ha & Hs & Hwf & Hac & Hb & Hcm).
  pose proof (started_MemInv A kernel _ _ _ _ _ _ _ _ _ _ sched Hst Hty Hv) as Hmi.
  split.
  - pose proof (outputs_at_join A kernel m0 _ k Hwf Hac Hmi Hdone) as Hout.
    rewrite Hb, Hcm in Hout. specialize (Hout Hk).
    rewrite (addr_ext _ (st_common st0)) by done.
    rewrite Hout.
    by apply (f_equal (call kernel)), inputs_cm_ext.
  - intros p _ Hoff.
    apply (run_off_output A kernel m0 sched st0 Hwf0 Hty).
    + intros q _. by rewrite Hm0.
    + intros k' Hk' Hin. rewrite Hb0 in Hk'. apply (Hoff k' Hk').
      by apply (in_output_ext A kernel (st_common st0)).
Qed.

Lemma exactness_witness :
  load (st_mem (run 1 demo_kernel demo_sched demo_start)) 50000 8
  = le_encode 8 (2 * le_decode (load demo_mem 1000 8))
  ∧ load (st_mem (run 1 demo_kernel demo_sched demo_start)) 50008 8
    = le_encode 8 (2 * le_decode (load demo_mem 1008 8))
  ∧ load (st_mem (run 1 demo_kernel demo_sched demo_start)) 50016 8
    = [240; 243; 245; 247; 249; 251; 253; 255].
Proof.
  pose proof (exactness 1 demo_kernel 2 3 demo_args [3] demo_steps 0
                demo_junk_wq demo_junk_ctx demo_mem demo_start demo_sched
                demo_started demo_typed demo_valid demo_all_done) as Hexact.
  split; [|split].
  - exact (proj1 (Hexact 0 ltac:(lia))).
  - exact (proj1 (Hexact 1 ltac:(lia))).
  - etrans; [exact (proj1 (Hexact 2 ltac:(lia)))|]. vm_compute. reflexivity.
Defined.

(** C3. At every point of a batch every queue satisfies
    [0 <= next <= last <= N]; and between any earlier and any later point
    [next] has not decreased and [last] has not increased. *)
Theorem queue_interval_invariant {V : Type} (A : nat) (kernel : Kernel V)
    (T N : Z) (a d s : list Z) (dat : Z) (junk_wq : WorkQueue)
    (junk_ctx : Context) (m0 : Z → V) (st0 : State)
    (sched1 sched2 : list nat) (i : nat) (q2 : WorkQueue) :
  started T N a d s dat junk_wq junk_ctx m0 st0 →
  st_workqueues (run A kernel (sched1 ++ sched2) st0) !! i = Some q2 →
  0 ≤ next q2 ∧ next q2 ≤ last q2 ∧ last q2 ≤ N
  ∧ ∃ q1, st_workqueues (run A kernel sched1 st0) !! i = Some q1
          ∧ next q1 ≤ next q2 ∧ last q2 ≤ last q1.
Proof.
  intros Hst Hq2.
  destruct (started_inv A _ _ _ _ _ _ _ _ _ _ Hst) as (HN & Hwf0 & _ & Hb0 & _).
  pose proof (run_WF A kernel (sched1 ++ sched2) st0 Hwf0) as Hwf.
  destruct (wf_queue _ _ Hwf _ _ Hq2) as (Hnl & HlN & _).
  rewrite batch_run, Hb0 in HlN by done.
  split; [lia|]. split; [lia|]. split; [lia|].
  rewrite run_app in Hq2.
  by apply (run_monotone A kernel sched2 _ i q2 (run_WF A kernel sched1 st0 Hwf0)).
Qed.

Lemma queue_interval_invariant_witness :
  0 ≤ next (mkWorkQueue 3 3 0)
  ∧ next (mkWorkQueue 3 3 0) ≤ last (mkWorkQueue 3 3 0)
  ∧ last (mkWorkQueue 3 3 0) ≤ 3
  ∧ ∃ q1, st_workqueues (run 1 demo_kernel [0; 1]%nat demo_start) !! 1%nat = Some q1
          ∧ next q1 ≤ next (mkWorkQueue 3 3 0)
          ∧ last (mkWorkQueue 3 3 0) ≤ last q1.
Proof.
  apply (queue_interval_invariant 1 demo_kernel 2 3 demo_args [3] demo_steps 0
           demo_junk_wq demo_junk_ctx demo_mem demo_start
           [0; 1]%nat [1; 1]%nat 1%nat (mkWorkQueue 3 3 0) demo_started).
  vm_compute. reflexivity.
Defined.

Lemma steal_unlock_step {V : Type} (A : nat) (kernel : Kernel V) (t : nat)
    (st : State) (c : Context) (i sc item : Z) :
  WF A st → st_threads st !! t = Some (mkThread c (StealUnlockThen i sc item)) →
  st_threads (tick A kernel st t) !! t
  = Some (mkThread c (Work (KSteal i) item GRANULARITY 0
                        (ptrs_at A (st_common st) item))).
Proof.
  intros Hwf Hth.
  assert (Htlt : (t < length (st_threads st))%nat) by (by eapply lookup_lt_Some).
  destruct (tick_Step A kernel t st c _ Hwf Hth ltac:(done))
    as (touch & c' & pc' & w & evs & Hreads & Htr & ->).
  inversion Htr; subst. by apply after_thread.
Qed.

Lemma work_iter_step {V : Type} (A : nat) (kernel : Kernel V) (t : nat)
    (st : State) (c : Context) (k : Kont) (item count j : Z) (ptrs : list Z) :
  WF A st → st_threads st !! t = Some (mkThread c (Work k item count j ptrs)) →
  j < count →
  st_mem (tick A kernel st t)
  = store (st_mem st) (addr (st_common st) A (item + j))
      (kernel (inputs A kernel (st_common st) (st_mem st) (item + j)))
  ∧ st_threads (tick A kernel st t) !! t
    = Some (mkThread c (Work k item count (j + 1)
                          (ptrs_at A (st_common st) (item + j + 1)))).
Proof.
  intros Hwf Hth Hj.
  assert (Htlt : (t < length (st_threads st))%nat) by (by eapply lookup_lt_Some).
  destruct (tick_Step A kernel t st c _ Hwf Hth ltac:(done))
    as (touch & c' & pc' & w & evs & Hreads & Htr & ->).
  inversion Htr; subst; try lia.
  split; [done|by apply after_thread].
Qed.

(** C4. Under the peer's lock a steal-check succeeds exactly when
    [peer.next <= peer.last - 256]; it then lowers [peer.last] by 256 and
    takes the 256 indices from the new [last] up to the old one, which the
    element loop then visits one by one from the first; otherwise it
    leaves the queue alone. A queue left with fewer than 256 elements is
    never stolen from again: whatever is later taken out of that residue
    is taken by the owner's drain. *)
Theorem steal_check_lockout {V : Type} (A : nat) (kernel : Kernel V)
    (T N : Z) (a d s : list Z) (dat : Z) (junk_wq : WorkQueue)
    (junk_ctx : Context) (m0 : Z → V) (st0 : State) (sched : list nat) :
  started T N a d s dat junk_wq junk_ctx m0 st0 →
  let st := run A kernel sched st0 in
  (∀ t c i sc,
     st_threads st !! t = Some (mkThread c (StealCrit i sc)) →
     ∃ q, lookupZ (st_workqueues st) i = Some q ∧ lock q = 1
       ∧ let st' := tick A kernel st t in
         if next q <=? last q - GRANULARITY then
           lookupZ (st_workqueues st') i
             = Some (mkWorkQueue (next q) (last q - GRANULARITY) (lock q))
           ∧ st_threads st' !! t
             = Some (mkThread c (StealUnlockThen i sc (last q - GRANULARITY)))
           ∧ st_log st' = st_log st ++ [EvSteal (Z.of_nat t) i (last q - GRANULARITY)]
         else
           st_workqueues st' = st_workqueues st
           ∧ st_threads st' !! t = Some (mkThread c (StealUnlockElse i sc))
           ∧ st_log st' = st_log st)
  ∧ (∀ t c i sc item,
       st_threads st !! t = Some (mkThread c (StealUnlockThen i sc item)) →
       st_threads (tick A kernel st t) !! t
       = Some (mkThread c (Work (KSteal i) item GRANULARITY 0
                             (ptrs_at A (st_common st) item))))
  ∧ (∀ t c k item count j ptrs,
       st_threads st !! t = Some (mkThread c (Work k item count j ptrs)) →
       j < count →
       st_mem (tick A kernel st t)
       = store (st_mem st) (addr (st_common st) A (item + j))
           (kernel (inputs A kernel (st_common st) (st_mem st) (item + j)))
       ∧ st_threads (tick A kernel st t) !! t
         = Some (mkThread c (Work k item count (j + 1)
                               (ptrs_at A (st_common st) (item + j + 1)))))
  ∧ (∀ i q,
       st_workqueues st !! i = Some q → 0 < last q - next q < GRANULARITY →
       ∀ sched',
         ∃ new, st_log (run A kernel sched' st) = st_log st ++ new
           ∧ ∀ e, e ∈ new →
               ¬ steals_from i e
               ∧ ∀ k, next q ≤ k < last q → covers k e = true → owner_drain i e).
Proof.
  intros Hst. cbv zeta.
  destruct (started_inv A _ _ _ _ _ _ _ _ _ _ Hst) as (HN & Hwf0 & Hac0 & _).
  pose proof (run_WF A kernel sched st0 Hwf0) as Hwf.
  pose proof (run_Acct A kernel sched st0 Hwf0 Hac0) as Hac.
  split; [|split; [|split]].
  - intros t c i sc Hth. by apply (steal_crit_step A kernel t _ c i sc Hwf Hth).
  - intros t c i sc item Hth. by apply (steal_unlock_step A kernel t _ c i sc item).
  - intros t c k item count j ptrs Hth Hj.
    by apply (work_iter_step A kernel t _ c k item count j ptrs).
  - intros i q Hq [_ Hsmall] sched'.
    pose proof (Residual_start i q _ Hq Hsmall) as Hres.
    by destruct (run_Residual A kernel _ _ _ _ sched' _ Hwf Hac Hres) as [_ Hnew].
Qed.

(** ** A batch large enough for a steal: 600 elements, two threads *)

Definition steal_start : State :=
  spawn (mkSetup (mkContextCommon demo_args [600] demo_steps 0 2)
           (initial_queues 300 2 600) (initial_contexts 2)) demo_mem.

(** Thread 0 alone until it has stolen from thread 1, then both in turn. *)
Definition steal_sched : list nat :=
  replicate 330 0%nat ++ concat (replicate 400 [0; 1]%nat).

Lemma steal_started :
  started 2 600 demo_args [600] demo_steps 0 demo_junk_wq demo_junk_ctx demo_mem
    steal_start.
Proof. unfold started. repeat split; try closed_bounds. Qed.

Lemma steal_check_lockout_witness :
  (lookupZ (st_workqueues
              (tick 1 demo_kernel
                 (run 1 demo_kernel (replicate 315 0%nat) steal_start) 0)) 1
   = Some (mkWorkQueue 300 (600 - GRANULARITY) 1)
   ∧ st_threads (tick 1 demo_kernel
                   (run 1 demo_kernel (replicate 315 0%nat) steal_start) 0) !! 0%nat
     = Some (mkThread (mkContext 0 300) (StealUnlockThen 1 0 (600 - GRANULARITY)))
   ∧ st_log (tick 1 demo_kernel
               (run 1 demo_kernel (replicate 315 0%nat) steal_start) 0)
     = st_log (run 1 demo_kernel (replicate 315 0%nat) steal_start)
       ++ [EvSteal (Z.of_nat 0) 1 (600 - GRANULARITY)])
  ∧ st_threads (tick 1 demo_kernel
                  (run 1 demo_kernel (replicate 316 0%nat) steal_start) 0) !! 0%nat
    = Some (mkThread (mkContext 0 300)
              (Work (KSteal 1) 344 GRANULARITY 0
                 (ptrs_at 1 (st_common
                               (run 1 demo_kernel (replicate 316 0%nat) steal_start))
                    344)))
  ∧ (st_workqueues (tick 1 demo_kernel
                      (run 1 demo_kernel (replicate 579 0%nat) steal_start) 0)
     = st_workqueues (run 1 demo_kernel (replicate 579 0%nat) steal_start)
     ∧ st_threads (tick 1 demo_kernel
                     (run 1 demo_kernel (replicate 579 0%nat) steal_start) 0) !! 0%nat
       = Some (mkThread (mkContext 0 556) (StealUnlockElse 1 0))
     ∧ st_log (tick 1 demo_kernel
                 (run 1 demo_kernel (replicate 579 0%nat) steal_start) 0)
       = st_log (run 1 demo_kernel (replicate 579 0%nat) steal_start))
  ∧ ∃ new,
      st_log (run 1 demo_kernel (concat (replicate 400 [0; 1]%nat))
                (run 1 demo_kernel (replicate 330 0%nat) steal_start))
      = st_log (run 1 demo_kernel (replicate 330 0%nat) steal_start) ++ new
      ∧ ∀ e, e ∈ new →
          ¬ steals_from 1 e
          ∧ ∀ k, 300 ≤ k < 344 → covers k e = true → owner_drain 1 e.
Proof.
  split; [|split; [|split]].
  - destruct (steal_check_lockout 1 demo_kernel 2 600 demo_args [600] demo_steps 0
                demo_junk_wq demo_junk_ctx demo_mem steal_start
                (replicate 315 0%nat) steal_started) as (Hcrit & _).
    destruct (Hcrit 0%nat (mkContext 0 300) 1 0) as (q & Hq & _ & Hif).
    { vm_compute. reflexivity. }
    vm_compute in Hq. injection Hq as <-.
    cbv zeta in Hif. cbn [next last lock] in Hif.
    change (300 <=? 600 - GRANULARITY) with true in Hif. exact Hif.
  - destruct (steal_check_lockout 1 demo_kernel 2 600 demo_args [600] demo_steps 0
                demo_junk_wq demo_junk_ctx demo_mem steal_start
                (replicate 316 0%nat) steal_started) as (_ & Hunlock & _).
    apply (Hunlock 0%nat (mkContext 0 300) 1 0 344).
    vm_compute. reflexivity.
  - destruct (steal_check_lockout 1 demo_kernel 2 600 demo_args [600] demo_steps 0
                demo_junk_wq demo_junk_ctx demo_mem steal_start
                (replicate 579 0%nat) steal_started) as (Hcrit & _).
    destruct (Hcrit 0%nat (mkContext 0 556) 1 0) as (q & Hq & _ & Hif).
    { vm_compute. reflexivity. }
    vm_compute in Hq. injection Hq as <-.
    cbv zeta in Hif. cbn [next last lock] in Hif.
    change (300 <=? 344 - GRANULARITY) with false in Hif. exact Hif.
  - destruct (steal_check_lockout 1 demo_kernel 2 600 demo_args [600] demo_steps 0
                demo_junk_wq demo_junk_ctx demo_mem steal_start
                (replicate 330 0%nat) steal_started) as (_ & _ & _ & Hres).
    apply (Hres 1%nat (mkWorkQueue 300 344 0)).
    + vm_compute. reflexivity.
    + simpl. unfold GRANULARITY. lia.
Defined.





(** C8. [Lock] keeps looping exactly while its CAS 0 -> 1 (acquire)
    finds the word non-zero, and a thread leaves it holding the lock;
    [Unlock] does its CAS 1 -> 0 (release) and signals the trap exactly
    when the word was not 1. In every state of a batch no thread has
    trapped; a thread about to unlock finds the word at 1 and is the only
    holder, so its [Unlock] does not trap. *)
Theorem lock_protocol_safety {V : Type} (A : nat) (kernel : Kernel V)
    (T N : Z) (a d s : list Z) (dat : Z) (junk_wq : WorkQueue)
    (junk_ctx : Context) (m0 : Z → V) (st0 : State) (sched : list nat) :
  started T N a d s dat junk_wq junk_ctx m0 st0 →
  let st := run A kernel sched st0 in
  (∀ q, Lock q = (negb (fst (atomic_cmpxchg q 0 1 Acquire) =? 0),
                  if lock q =? 0 then locked_as 1 q else q))
  ∧ (∀ q, Unlock q = (negb (fst (atomic_cmpxchg q 1 0 Release) =? 1),
                      if lock q =? 1 then locked_as 0 q else q))
  ∧ ∀ t th, st_threads st !! t = Some th →
      (∀ why, th_pc th ≠ Trap why)
      ∧ (∀ i, waits t (th_pc th) = Some i →
           ∃ q, st_workqueues st !! i = Some q
             ∧ ((lock q = 1 ∧ tick A kernel st t = st)
                ∨ (lock q = 0
                   ∧ ∃ pc', st_threads (tick A kernel st t) !! t
                            = Some (mkThread (th_ctx th) pc')
                            ∧ holds t pc' = Some i
                            ∧ st_workqueues (tick A kernel st t) !! i
                              = Some (locked_as 1 q))))
      ∧ (∀ i, holds t (th_pc th) = Some i →
           ∃ q, st_workqueues st !! i = Some q ∧ lock q = 1
             ∧ Unlock q = (false, locked_as 0 q)
             ∧ ∀ t2 th2, st_threads st !! t2 = Some th2 →
                         holds t2 (th_pc th2) = Some i → t2 = t).
Proof.
  intros Hst. cbv zeta.
  destruct (started_inv A _ _ _ _ _ _ _ _ _ _ Hst) as (HN & Hwf0 & _).
  pose proof (run_WF A kernel sched st0 Hwf0) as Hwf.
  split; [done|]. split; [done|].
  intros t th Hth. split; [|split].
  - intros why Htrap. pose proof (wf_pc _ _ Hwf _ _ Hth) as Hpc.
    by rewrite Htrap in Hpc.
  - intros i Hw. destruct th as [c pc].
    by apply (lock_step A kernel t _ c pc i Hwf Hth Hw).
  - intros i Hh. destruct (wf_held _ _ Hwf _ _ _ Hth Hh) as (q & Hq & Hl).
    exists q. split; [done|]. split; [done|]. split.
    + unfold Unlock, atomic_cmpxchg. by rewrite Hl.
    + intros t2 th2 Hth2 Hh2. by apply (wf_excl _ _ Hwf _ _ _ _ _ Hth2 Hth Hh2 Hh).
Qed.

Lemma lock_protocol_safety_witness :
  ∃ q, st_workqueues (run 1 demo_kernel [0; 1; 1; 0]%nat demo_start) !! 1%nat = Some q
    ∧ lock q = 1
    ∧ Unlock q = (false, locked_as 0 q)
    ∧ ∀ t2 th2,
        st_threads (run 1 demo_kernel [0; 1; 1; 0]%nat demo_start) !! t2 = Some th2 →
        holds t2 (th_pc th2) = Some 1%nat → t2 = 1%nat.
Proof.
  destruct (lock_protocol_safety 1 demo_kernel 2 3 demo_args [3] demo_steps 0
              demo_junk_wq demo_junk_ctx demo_mem demo_start [0; 1; 1; 0]%nat
              demo_started) as (_ & _ & Hsafe).
  destruct (Hsafe 1%nat (mkThread (mkContext 1 0) (DrainUnlock 1 2 3)))
    as (_ & _ & Hheld).
  - vm_compute. reflexivity.
  - apply (Hheld 1%nat). reflexivity.
Defined.

(** C10. A step of a worker leaves the shared context and every other
    thread's context alone and keeps its own [id]; inside the local drain
    it writes to no queue but its own and not to that queue's [last];
    inside a steal-check it writes to no queue but the peer's and not to
    the peer's [next]; elsewhere it writes to no queue. *)
Theorem frame_property {V : Type} (A : nat) (kernel : Kernel V)
    (T N : Z) (a d s : list Z) (dat : Z) (junk_wq : WorkQueue)
    (junk_ctx : Context) (m0 : Z → V) (st0 : State) (sched : list nat)
    (t : nat) (c : Context) (pc : Pc) (st' : State) :
  started T N a d s dat junk_wq junk_ctx m0 st0 →
  let st := run A kernel sched st0 in
  st_threads st !! t = Some (mkThread c pc) →
  step A kernel t st = Some st' →
  st_common st' = st_common st
  ∧ (∀ t', t' ≠ t → st_threads st' !! t' = st_threads st !! t')
  ∧ (∃ c' pc', st_threads st' !! t = Some (mkThread c' pc') ∧ id c' = id c)
  ∧ (in_drain pc = true →
       (∀ j, j ≠ t → st_workqueues st' !! j = st_workqueues st !! j)
       ∧ ∀ q q', st_workqueues st !! t = Some q → st_workqueues st' !! t = Some q' →
                 last q' = last q)
  ∧ (∀ i, steal_peer pc = Some i →
       (∀ j, j ≠ i → st_workqueues st' !! j = st_workqueues st !! j)
       ∧ ∀ q q', st_workqueues st !! i = Some q → st_workqueues st' !! i = Some q' →
                 next q' = next q)
  ∧ (in_drain pc = false → steal_peer pc = None →
       st_workqueues st' = st_workqueues st).
Proof.
  intros Hst. cbv zeta. intros Hth Hstep.
  destruct (started_inv A _ _ _ _ _ _ _ _ _ _ Hst) as (HN & Hwf0 & _).
  pose proof (run_WF A kernel sched st0 Hwf0) as Hwf.
  apply (step_frame A kernel t _ st' c pc); [|done].
  by apply step_sound.
Qed.

Lemma frame_property_witness :
  st_common (tick 1 demo_kernel (run 1 demo_kernel [0; 1; 1; 0]%nat demo_start) 1)
  = st_common (run 1 demo_kernel [0; 1; 1; 0]%nat demo_start)
  ∧ ∀ t', t' ≠ 1%nat →
      st_threads (tick 1 demo_kernel (run 1 demo_kernel [0; 1; 1; 0]%nat demo_start) 1)
        !! t'
      = st_threads (run 1 demo_kernel [0; 1; 1; 0]%nat demo_start) !! t'.
Proof.
  destruct (frame_property 1 demo_kernel 2 3 demo_args [3] demo_steps 0
              demo_junk_wq demo_junk_ctx demo_mem demo_start [0; 1; 1; 0]%nat
              1%nat (mkContext 1 0) (DrainUnlock 1 2 3)
              (tick 1 demo_kernel (run 1 demo_kernel [0; 1; 1; 0]%nat demo_start) 1)
              demo_started)
    as (Hcm & Hoth & _).
  - vm_compute. reflexivity.
  - vm_compute. reflexivity.
  - by split.
Defined.

(** ** Batches smaller than the thread count *)

Definition small_start : State :=
  spawn (mkSetup (mkContextCommon demo_args [3] demo_steps 0 3)
           (initial_queues 1 3 3) (initial_contexts 3)) demo_mem.

Definition small_sched : list nat := concat (replicate 40 [0; 1; 2]%nat).

Lemma small_started :
  started 4 3 demo_args [3] demo_steps 0 demo_junk_wq demo_junk_ctx demo_mem small_start.
Proof. unfold started. repeat split; try closed_bounds. Qed.

(** C9, as the code has it. For [0 < N < T] the dispatcher settles on
    [chunk = 1] and [N] threads; exactly [N] workers are spawned, and when
    they have returned each has [completed = 1]. No further thread
    exists. *)
Theorem small_batch_one_element_each {V : Type} (A : nat) (kernel : Kernel V)
    (T N : Z) (a d s : list Z) (dat : Z) (junk_wq : WorkQueue)
    (junk_ctx : Context) (m0 : Z → V) (st0 : State) :
  started T N a d s dat junk_wq junk_ctx m0 st0 →
  0 < N < T →
  chunk_and_threads T N = (1, N)
  ∧ num_thread (st_common st0) = N
  ∧ length (st_threads st0) = Z.to_nat N
  ∧ ∀ sched, all_done (run A kernel sched st0) = true →
      length (st_threads (run A kernel sched st0)) = Z.to_nat N
      ∧ ∀ t th, st_threads (run A kernel sched st0) !! t = Some th →
                completed (th_ctx th) = 1.
Proof.
  intros Hst HNT.
  destruct (started_inv A _ _ _ _ _ _ _ _ _ _ Hst)
    as (HN & Hwf0 & Hac0 & Hb0 & chunk & Heq & Hchunk & Hn).
  destruct Hst as (HT & HN' & _ & _).
  unfold spawned_threads in *.
  destruct (Z.ltb_spec N T) as [_|?]; [|lia]. subst chunk.
  assert (Hlen : length (st_threads st0) = Z.to_nat N).
  { rewrite Heq. simpl. rewrite length_fmap. unfold initial_contexts.
    by rewrite length_fmap, length_seqZ. }
  split.
  { rewrite chunk_and_threads_spec by lia. destruct (Z.ltb_spec N T); [done|lia]. }
  split; [by rewrite Heq|]. split; [done|].
  intros sched Hdone. split; [by rewrite run_length|].
  intros t th Hth.
  apply (Single_done A (run A kernel sched st0) t th); try done.
  - by apply run_WF.
  - apply run_Single; try done. rewrite Heq. by apply spawn_Single.
Qed.

Lemma small_batch_one_element_each_witness :
  length (st_threads small_start) = 3%nat
  ∧ ∀ t th, st_threads (run 1 demo_kernel small_sched small_start) !! t = Some th →
            completed (th_ctx th) = 1.
Proof.
  destruct (small_batch_one_element_each 1 demo_kernel 4 3 demo_args [3] demo_steps 0
              demo_junk_wq demo_junk_ctx demo_mem small_start small_started
              ltac:(lia)) as (_ & _ & Hlen & Hrun).
  split; [exact Hlen|].
  refine (proj2 (Hrun small_sched _)). vm_compute. reflexivity.
Defined.

(** C9, as the specification words it, fails: with [N = 1] and [T = 4]
    one worker is spawned; there are no three remaining threads to drain
    an empty queue. *)
Lemma small_batch_no_remaining_threads :
  ∃ st0 : @State Z,
    body 4 demo_args [1] demo_steps 0 demo_junk_wq demo_junk_ctx demo_mem = Ok st0
    ∧ length (st_threads st0) = 1%nat
    ∧ length (st_threads st0) ≠ 4%nat
    ∧ length (st_workqueues st0) = 1%nat
    ∧ num_thread (st_common st0) = 1.
Proof.
  eexists. split; [reflexivity|]. repeat split; done.
Qed.

(** C7, at the failing input. With [N = 0] and [T = 4] the dispatcher
    settles on [chunk = 1] and zero threads, allocates a queue array of
    length zero, and the store to [workqueues[num_thread - 1].last] goes
    to index [-1]. *)
Lemma empty_batch_store_out_of_bounds :
  chunk_and_threads 4 0 = (1, 0)
  ∧ populate_workqueues (replicate (Z.to_nat 0) demo_junk_wq) 0 1 0 = OutOfBounds (-1) 0
  ∧ body 4 demo_args [0] demo_steps 0 demo_junk_wq demo_junk_ctx demo_mem
    = OutOfBounds (-1) 0.
Proof. repeat split; reflexivity. Qed.

(** * Further properties of the engine *)

Section Further.

Context {V : Type}.
Variable A : nat.
Variable kernel : Kernel V.

#[local] Abbreviation State := (@State V).

(** A property kept by every closed-form transition of a well-formed,
    accounted state is kept by every schedule. *)
Lemma run_invariant (P : State → Prop) :
  (∀ t st st', WF A st → Acct st → P st → Step A kernel t st st' → P st') →
  ∀ sched st, WF A st → Acct st → P st → P (run A kernel sched st).
Proof.
  intros Hstep sched. induction sched as [|t sched IH]; intros st Hwf Hac HP; [done|].
  simpl. apply IH; [by apply tick_WF | by apply tick_Acct |].
  destruct (tick_cases A kernel t st Hwf) as [->|Hs]; [done|].
  by eapply Hstep.
Qed.

(** ** Each thread's counter counts what that thread took *)

(** The number of elements thread [t] took, by drains and by steals. *)
Definition claimed_by (t : nat) (log : list Event) : Z :=
  sumZ (λ e, if ev_tid e =? Z.of_nat t then ev_amt e else 0) log.

Lemma claimed_by_app (t : nat) (l1 l2 : list Event) :
  claimed_by t (l1 ++ l2) = claimed_by t l1 + claimed_by t l2.
Proof. apply sumZ_app. Qed.

Lemma trans_claimed_by cm t m c pc touch c' pc' w evs (t' : nat) :
  Trans A kernel cm t m c pc touch c' pc' w evs →
  claimed_by t' evs = if decide (t' = t) then claimed evs else 0.
Proof.
  destruct 1; unfold claimed_by, claimed; simpl; destruct (decide (t' = t)) as [->|Hne];
    rewrite ?Z.eqb_refl; try done;
    destruct (Z.eqb_spec (Z.of_nat t) (Z.of_nat t')); try done; lia.
Qed.

Definition Own (st : State) : Prop :=
  ∀ t th, st_threads st !! t = Some th → progress th = claimed_by t (st_log st).

Lemma step_Own (t : nat) (st st' : State) :
  WF A st → Acct st → Own st → Step A kernel t st st' → Own st'.
Proof.
  intros Hwf Hac Hown [c pc touch c' pc' w evs Hth Hreads Htr].
  assert (Hqle : ∀ i q q', touch = Some (i, q, q') → next q ≤ last q).
  { intros i q q' ->. simpl in Hreads.
    destruct (wf_queue _ _ Hwf _ _ Hreads) as (? & _). lia. }
  pose proof (wf_pc _ _ Hwf _ _ Hth) as Hpc. simpl in Hpc.
  pose proof (ac_nonneg _ Hac _ _ Hth) as Hc0. simpl in Hc0.
  assert (Hmax : completed c + inflight pc ≤ intp_max).
  { assert (∀ y, y ∈ st_threads st → 0 ≤ progress y) as Hnn.
    { intros y [j Hj]%list_elem_of_lookup. unfold progress.
      pose proof (ac_nonneg _ Hac _ _ Hj).
      pose proof (inflight_nonneg _ _ _ _ _ (wf_pc _ _ Hwf _ _ Hj)). lia. }
    pose proof (sumZ_elem_le progress _ _ _ Hnn Hth) as Hle.
    unfold progress in Hle at 1. simpl in Hle.
    rewrite (ac_done _ Hac) in Hle.
    pose proof (ac_total _ Hac). pose proof (wf_N _ _ Hwf).
    pose proof (waiting_nonneg _ _ (wf_queue _ _ Hwf)). lia. }
  destruct (trans_progress A kernel _ _ _ _ _ _ _ _ _ _ Htr _ _ Hpc Hqle Hc0 Hmax)
    as [_ Hprog].
  intros t' th'. unfold after; cbn [st_common st_workqueues st_threads st_mem st_log].
  rewrite claimed_by_app, (trans_claimed_by _ _ _ _ _ _ _ _ _ _ t' Htr).
  intros [(<- & <- & _)|(Hne & Hl)]%list_lookup_insert_Some.
  - destruct (decide (t = t)); [|done].
    specialize (Hown _ _ Hth). unfold progress in *. simpl in *. lia.
  - destruct (decide (t' = t)); [congruence|].
    rewrite (Hown _ _ Hl). lia.
Qed.

Lemma run_Own (sched : list nat) (st : State) :
  WF A st → Acct st → Own st → Own (run A kernel sched st).
Proof. apply (run_invariant Own). intros t s s'. apply step_Own. Qed.

(** ** No thread steals from its own queue *)

Definition NoSelf (st : State) : Prop :=
  ∀ t th j, st_threads st !! t = Some th → steal_peer (th_pc th) = Some j → j ≠ t.

Lemma trans_noself cm t m c pc touch c' pc' w evs (N n : Z) :
  Trans A kernel cm t m c pc touch c' pc' w evs →
  pc_ok A cm N n pc →
  (∀ j, steal_peer pc = Some j → j ≠ t) →
  ∀ j, steal_peer pc' = Some j → j ≠ t.
Proof.
  destruct 1; simpl; intros Hpc Hold ? Hj; simplify_eq; try (by apply Hold).
  lia.
Qed.

Lemma step_NoSelf (t : nat) (st st' : State) :
  WF A st → Acct st → NoSelf st → Step A kernel t st st' → NoSelf st'.
Proof.
  intros Hwf _ Hns [c pc touch c' pc' w evs Hth Hreads Htr] t' th' j.
  unfold after; cbn [st_common st_workqueues st_threads st_mem st_log].
  intros [(<- & <- & _)|(Hne & Hl)]%list_lookup_insert_Some Hj.
  - simpl in Hj.
    apply (trans_noself _ _ _ _ _ _ _ _ _ _ _ _ Htr (wf_pc _ _ Hwf _ _ Hth)); [|done].
    intros j' Hj'. by apply (Hns _ _ _ Hth).
  - by apply (Hns _ _ _ Hl).
Qed.

Lemma run_NoSelf (sched : list nat) (st : State) :
  WF A st → Acct st → NoSelf st → NoSelf (run A kernel sched st).
Proof. apply (run_invariant NoSelf). intros t s s'. apply step_NoSelf. Qed.

(** ** Owners take from the front, stealers from the back *)

(** Range [e] was taken out of the initial range of its queue: a drain
    below the queue's present [next], a steal at or above its present
    [last]. *)
Definition took_ok (qs0 qs : list WorkQueue) (e : Event) : Prop :=
  match e with
  | EvDrain tid item amt =>
      ∃ t q0 q, tid = Z.of_nat t ∧ qs0 !! t = Some q0 ∧ qs !! t = Some q
        ∧ next q0 ≤ item ∧ 0 ≤ amt ≤ GRANULARITY ∧ item + amt ≤ next q
  | EvSteal tid peer item =>
      ∃ t j q0 q, tid = Z.of_nat t ∧ peer = Z.of_nat j ∧ j ≠ t
        ∧ qs0 !! j = Some q0 ∧ qs !! j = Some q
        ∧ last q ≤ item ∧ item + GRANULARITY ≤ last q0
  end.

Record Disc (qs0 : list WorkQueue) (st : State) : Prop := mkDisc {
  dc_queues : ∀ j q, st_workqueues st !! j = Some q →
              ∃ q0, qs0 !! j = Some q0 ∧ next q0 ≤ next q ∧ last q ≤ last q0;
  dc_events : ∀ e, e ∈ st_log st → took_ok qs0 (st_workqueues st) e
}.

Lemma took_ok_mono (qs0 qs qs' : list WorkQueue) (e : Event) :
  (∀ j q, qs !! j = Some q →
          ∃ q', qs' !! j = Some q' ∧ next q ≤ next q' ∧ last q' ≤ last q) →
  took_ok qs0 qs e → took_ok qs0 qs' e.
Proof.
  intros Hmono. destruct e as [tid item amt|tid peer item]; simpl.
  - intros (t & q0 & q & -> & Hq0 & Hq & ? & ? & ?).
    destruct (Hmono _ _ Hq) as (q' & Hq' & ? & ?).
    exists t, q0, q'. repeat split; try done; lia.
  - intros (t & j & q0 & q & -> & -> & ? & Hq0 & Hq & ? & ?).
    destruct (Hmono _ _ Hq) as (q' & Hq' & ? & ?).
    exists t, j, q0, q'. repeat split; try done; lia.
Qed.

Lemma trans_took cm t m c pc touch c' pc' w evs (N n : Z) (e : Event) :
  Trans A kernel cm t m c pc touch c' pc' w evs →
  pc_ok A cm N n pc →
  (∀ i q q', touch = Some (i, q, q') → next q ≤ last q) →
  e ∈ evs →
  ∃ j q q', touch = Some (j, q, q')
    ∧ ((j = t ∧ e = EvDrain (Z.of_nat t) (next q) (next q' - next q)
        ∧ 0 ≤ next q' - next q ≤ GRANULARITY)
       ∨ (steal_peer pc = Some j
          ∧ e = EvSteal (Z.of_nat t) (Z.of_nat j) (last q')
          ∧ last q' + GRANULARITY = last q)).
Proof.
  destruct 1; intros Hpc Hq He; try (by apply elem_of_nil in He);
    apply list_elem_of_singleton in He as ->; specialize (Hq _ _ _ eq_refl);
    do 3 eexists; (split; [done|]); simpl in *; unfold GRANULARITY in *.
  - left. subst amt. split; [done|]. split; [f_equal; lia|lia].
  - right. split; [done|]. split; [|lia]. f_equal. lia.
Qed.

Lemma step_Disc (qs0 : list WorkQueue) (t : nat) (st st' : State) :
  WF A st → NoSelf st → Disc qs0 st → Step A kernel t st st' → Disc qs0 st'.
Proof.
  intros Hwf Hns [Hqs Hevs] [c pc touch c' pc' w evs Hth Hreads Htr].
  assert (Hqle : ∀ i q q', touch = Some (i, q, q') → next q ≤ last q).
  { intros i q q' ->. simpl in Hreads.
    destruct (wf_queue _ _ Hwf _ _ Hreads) as (? & _). lia. }
  pose proof (wf_pc _ _ Hwf _ _ Hth) as Hpc. simpl in Hpc.
  assert (Hmono : ∀ j q, st_workqueues st !! j = Some q →
            ∃ q', touch_queues touch (st_workqueues st) !! j = Some q'
                  ∧ next q ≤ next q' ∧ last q' ≤ last q).
  { intros j q Hq.
    assert ((∃ q0 q0', touch = Some (j, q0, q0'))
            ∨ (∀ q0 q0', touch ≠ Some (j, q0, q0'))) as [(q0 & q0' & ->)|Hno].
    { destruct touch as [[[i q0] q0']|]; [|by right].
      destruct (decide (i = j)) as [->|]; [left; eauto|right; congruence]. }
    - simpl in Hreads. assert (q0 = q) as -> by congruence.
      exists q0'. split; [by apply touch_queues_written|].
      by apply (trans_monotone A kernel _ _ _ _ _ _ _ _ _ _ Htr (batch st) _ _ _ eq_refl
                  (wf_queue _ _ Hwf _ _ Hq)).
    - exists q. split; [by rewrite touch_queues_other|lia]. }
  constructor; unfold after; cbn [st_common st_workqueues st_threads st_mem st_log].
  - intros j q' Hq'. apply touch_queues_lookup in Hq' as [[q0 ->]|[_ Hq']].
    + simpl in Hreads. destruct (Hqs _ _ Hreads) as (qi & Hqi & ? & ?).
      destruct (trans_monotone A kernel _ _ _ _ _ _ _ _ _ _ Htr (batch st) _ _ _ eq_refl
                  (wf_queue _ _ Hwf _ _ Hreads)).
      exists qi. split; [done|lia].
    + by apply Hqs.
  - intros e [He|He]%elem_of_app.
    + by apply (took_ok_mono qs0 (st_workqueues st)), Hevs.
    + destruct (trans_took _ _ _ _ _ _ _ _ _ _ _ _ e Htr Hpc Hqle He)
        as (j & q & q' & -> & [(-> & -> & Hamt)|(Hpeer & -> & Hlast)]);
        simpl in Hreads; destruct (Hqs _ _ Hreads) as (qi & Hqi & ? & ?).
      * exists t, qi, q'. split; [done|]. split; [done|].
        split; [by apply touch_queues_written|]. lia.
      * exists t, j, qi, q'. split; [done|]. split; [done|].
        split; [by apply (Hns _ _ _ Hth)|]. split; [done|].
        split; [by apply touch_queues_written|]. lia.
Qed.

Lemma run_Disc (qs0 : list WorkQueue) (sched : list nat) (st : State) :
  WF A st → Acct st → NoSelf st → Disc qs0 st → Disc qs0 (run A kernel sched st).
Proof.
  revert st. induction sched as [|t sched IH]; intros st Hwf Hac Hns Hd; [done|].
  simpl. destruct (tick_cases A kernel t st Hwf) as [Heq|Hs].
  - rewrite Heq. by apply IH.
  - apply IH; [by apply tick_WF | by apply tick_Acct | |].
    + by apply (step_NoSelf t st).
    + by apply (step_Disc qs0 t st).
Qed.

(** ** Steals are few *)

Definition is_steal (e : Event) : bool :=
  match e with EvSteal _ _ _ => true | EvDrain _ _ _ => false end.

(** The number of successful steals in a history. *)
Definition steals (log : list Event) : Z := sumZ (λ e, ind (is_steal e)) log.

Lemma steals_claimed (log : list Event) :
  (∀ e, e ∈ log → 0 ≤ ev_amt e) → GRANULARITY * steals log ≤ claimed log.
Proof.
  unfold steals, claimed, GRANULARITY.
  induction log as [|e log IH]; intros Hnn; simpl; [lia|].
  assert (0 ≤ ev_amt e) by (apply Hnn; left).
  assert (256 * sumZ (λ e, ind (is_steal e)) log ≤ sumZ ev_amt log)
    by (apply IH; intros; apply Hnn; by right).
  destruct e; simpl in *; unfold GRANULARITY; lia.
Qed.

(** ** Queue bounds change only under the lock; the phases are one-way *)

Lemma trans_locked_write cm t m c pc touch c' pc' w evs (i : nat) (q q' : WorkQueue) :
  Trans A kernel cm t m c pc touch c' pc' w evs →
  touch = Some (i, q, q') → next q' ≠ next q ∨ last q' ≠ last q →
  holds t pc = Some i ∧ lock q' = lock q.
Proof. destruct 1; intros ? [?|?]; simplify_eq/=; done. Qed.

Lemma trans_phase cm t m c pc touch c' pc' w evs :
  Trans A kernel cm t m c pc touch c' pc' w evs →
  in_drain pc = false → in_drain pc' = false.
Proof. destruct 1; simpl; done. Qed.

Lemma step_phase (t0 t : nat) (st st' : State) :
  (∃ th, st_threads st !! t0 = Some th ∧ in_drain (th_pc th) = false) →
  Step A kernel t st st' →
  ∃ th, st_threads st' !! t0 = Some th ∧ in_drain (th_pc th) = false.
Proof.
  intros (th & Hl & Hd) [c pc touch c' pc' w evs Hth Hreads Htr].
  unfold after; cbn [st_common st_workqueues st_threads st_mem st_log].
  destruct (decide (t0 = t)) as [->|Hne].
  - exists (mkThread c' pc').
    split; [apply list_lookup_insert_eq; by eapply lookup_lt_Some|].
    simplify_eq/=. by eapply trans_phase.
  - exists th. split; [|done]. rewrite list_lookup_insert_ne; [done|congruence].
Qed.

Lemma run_phase (t0 : nat) (sched : list nat) (st : State) :
  WF A st →
  (∃ th, st_threads st !! t0 = Some th ∧ in_drain (th_pc th) = false) →
  ∃ th, st_threads (run A kernel sched st) !! t0 = Some th
        ∧ in_drain (th_pc th) = false.
Proof.
  revert st. induction sched as [|t sched IH]; intros st Hwf Hp; [done|].
  simpl. destruct (tick_cases A kernel t st Hwf) as [Heq|Hs].
  - rewrite Heq. by apply IH.
  - apply IH; [by apply tick_WF|]. by apply (step_phase t0 t st).
Qed.

(** ** The invariants at the spawn *)

Lemma spawn_Own (cm : ContextCommon) (qs : list WorkQueue) (nthr : Z) (m0 : Z → V) :
  Own (spawn (mkSetup cm qs (initial_contexts nthr)) m0).
Proof.
  intros t th Hth. apply spawn_lookup in Hth as (c & Hc & ->).
  apply initial_contexts_lookup in Hc as ->. done.
Qed.

Lemma spawn_NoSelf (su : Setup) (m0 : Z → V) : NoSelf (spawn su m0).
Proof. intros t th j Hth Hj. apply spawn_lookup in Hth as (c & _ & ->). done. Qed.

Lemma spawn_Disc (su : Setup) (m0 : Z → V) :
  Disc (su_workqueues su) (spawn su m0).
Proof.
  constructor; simpl.
  - intros j q Hq. exists q. split; [done|lia].
  - intros e He. by apply elem_of_nil in He.
Qed.

(** ** A write to [next] or [last] is made under the queue's lock *)

Lemma step_locked_write (t : nat) (st st' : State) (c : Context) (pc : Pc)
    (i : nat) (q q' : WorkQueue) :
  WF A st → Step A kernel t st st' →
  st_threads st !! t = Some (mkThread c pc) →
  st_workqueues st !! i = Some q → st_workqueues st' !! i = Some q' →
  next q' ≠ next q ∨ last q' ≠ last q →
  holds t pc = Some i ∧ lock q = 1 ∧ lock q' = 1.
Proof.
  intros Hwf [c0 pc0 touch c' pc' w evs Hth0 Hreads Htr] Hth Hq Hq' Hdiff.
  assert (c0 = c ∧ pc0 = pc) as [-> ->] by (split; congruence). simpl in Hq'.
  apply touch_queues_lookup in Hq' as [[q0 ->]|[_ Hq']].
  - simpl in Hreads. assert (q0 = q) as -> by congruence.
    destruct (trans_locked_write _ _ _ _ _ _ _ _ _ _ _ _ _ Htr eq_refl Hdiff)
      as [Hh Hl].
    destruct (wf_held _ _ Hwf _ _ _ Hth Hh) as (q1 & Hq1 & Hl1).
    assert (q1 = q) as -> by congruence.
    split; [done|]. split; [done|congruence].
  - assert (q' = q) as -> by congruence. destruct Hdiff; done.
Qed.

(** ** The audit sum in any state *)

Lemma sumZ_plus {X : Type} (f g : X → Z) (l : list X) :
  sumZ (λ x, f x + g x) l = sumZ f l + sumZ g l.
Proof. induction l as [|x l IH]; simpl; lia. Qed.

(** Elements taken from a queue and not yet counted, over all threads. *)
Definition in_flight (st : State) : Z := sumZ (λ th, inflight (th_pc th)) (st_threads st).

Lemma in_flight_nonneg (st : State) : WF A st → 0 ≤ in_flight st.
Proof.
  intros Hwf. apply sumZ_nonneg. intros th [t Ht]%list_elem_of_lookup.
  by apply (inflight_nonneg A _ _ _ _ (wf_pc _ _ Hwf _ _ Ht)).
Qed.

Lemma total_completed_any (st : State) :
  WF A st → Acct st →
  total_completed st = batch st - waiting (st_workqueues st) - in_flight st.
Proof.
  intros Hwf Hac.
  pose proof (ac_done _ Hac) as Hdone. unfold progress in Hdone.
  rewrite sumZ_plus in Hdone. fold (in_flight st) in Hdone.
  pose proof (ac_total _ Hac) as Htot.
  pose proof (in_flight_nonneg st Hwf).
  pose proof (waiting_nonneg _ _ (wf_queue _ _ Hwf)).
  pose proof (wf_N _ _ Hwf).
  unfold total_completed.
  rewrite foldl_to_intp; [lia | lia | | lia].
  intros th [t Ht]%list_elem_of_lookup. by apply (ac_nonneg _ Hac _ _ Ht).
Qed.

End Further.

(** * Further properties, batch by batch *)





(** X3. For a valid batch and a kernel that returns values of its return
    type, at every point of the run: the output slot of an element that no
    drain and no steal has taken yet still holds its initial bytes, and an
    output slot never holds anything but its initial bytes or the bytes of
    the kernel's value on the element's initial inputs. *)
Theorem outputs_initial_until_taken {V : Type} (A : nat) (kernel : Kernel V)
    (T N : Z) (a d s : list Z) (dat : Z) (junk_wq : WorkQueue)
    (junk_ctx : Context) (m0 : Z → V) (st0 : State) (sched : list nat) (k : Z) :
  started T N a d s dat junk_wq junk_ctx m0 st0 →
  well_typed kernel →
  valid_batch A kernel (mkContextCommon a d s dat T) N →
  0 ≤ k < N →
  let st := run A kernel sched st0 in
  let cm := mkContextCommon a d s dat T in
  (count_ev k (st_log st) = 0 →
   load (st_mem st) (addr cm A k) (ret_size kernel)
   = load m0 (addr cm A k) (ret_size kernel))
  ∧ (load (st_mem st) (addr cm A k) (ret_size kernel)
     = load m0 (addr cm A k) (ret_size kernel)
     ∨ load (st_mem st) (addr cm A k) (ret_size kernel)
       = kernel ((λ i, load m0 (addr cm i k) (arg_size kernel i)) <$> seq 0 A)).
Proof.
  intros Hst Hty Hv Hk. cbv zeta.
  destruct (started_run A kernel _ _ _ _ _ _ _ _ _ _ sched Hst)
    as (Hwf0 & _ & Hb0 & Hm0 & Ha & Hs & Hwf & Hac & Hb & Hcm).
  pose proof (started_MemInv A kernel _ _ _ _ _ _ _ _ _ _ sched Hst Hty Hv) as Hmi.
  assert (Hkb : 0 ≤ k < batch (run A kernel sched st0)) by (by rewrite Hb).
  rewrite (addr_ext _ (st_common st0)) by done.
  assert (Hfresh : count_ev k (st_log (run A kernel sched st0)) = 0
                   ∨ (∃ t th, st_threads (run A kernel sched st0) !! t = Some th
                              ∧ pending k (th_pc th) = true) →
            load (st_mem (run A kernel sched st0)) (addr (st_common st0) A k)
              (ret_size kernel)
            = load m0 (addr (st_common st0) A k) (ret_size kernel)).
  { intros Hcl. apply load_ext. intros j Hj.
    apply (mi_fresh _ _ _ _ Hmi k Hkb Hcl). right. rewrite Hcm. by exists j. }
  split; [intros Hz; apply Hfresh; by left|].
  destruct (decide (count_ev k (st_log (run A kernel sched st0)) = 0)) as [Hz|Hnz].
  { left. apply Hfresh. by left. }
  destruct (mi_done _ _ _ _ Hmi k Hkb Hnz) as [Hp|Hout].
  - left. apply Hfresh. by right.
  - right. rewrite Hcm in Hout. rewrite Hout.
    by apply (f_equal (call kernel)), inputs_cm_ext.
Qed.

Lemma outputs_initial_until_taken_witness :
  load (st_mem (run 1 demo_kernel [0; 0; 0; 0]%nat demo_start)) 50008 8
  = load demo_mem 50008 8.
Proof.
  refine (proj1 (outputs_initial_until_taken 1 demo_kernel 2 3 demo_args [3]
                   demo_steps 0 demo_junk_wq demo_junk_ctx demo_mem demo_start
                   [0; 0; 0; 0]%nat 1 demo_started demo_typed demo_valid
                   ltac:(lia)) _).
  vm_compute. reflexivity.
Defined.

(** X4. Each worker's counter counts the worker's own takings: at every
    point of the batch [completed], plus what the worker has taken and
    not yet added, is the total size of the ranges that this worker took,
    by drains of its queue and by steals. *)
Theorem thread_counts_its_own_work {V : Type} (A : nat) (kernel : Kernel V)
    (T N : Z) (a d s : list Z) (dat : Z) (junk_wq : WorkQueue)
    (junk_ctx : Context) (m0 : Z → V) (st0 : State) (sched : list nat)
    (t : nat) (th : Thread) :
  started T N a d s dat junk_wq junk_ctx m0 st0 →
  st_threads (run A kernel sched st0) !! t = Some th →
  completed (th_ctx th) + inflight (th_pc th)
  = claimed_by t (st_log (run A kernel sched st0)).
Proof.
  intros Hst Hth.
  destruct (started_inv A _ _ _ _ _ _ _ _ _ _ Hst)
    as (HN & Hwf0 & Hac0 & Hb0 & chunk & Heq & _ & _).
  assert (Hown0 : Own st0) by (rewrite Heq; apply spawn_Own).
  by apply (run_Own A kernel sched st0 Hwf0 Hac0 Hown0 t th).
Qed.

Lemma thread_counts_its_own_work_witness :
  completed (mkContext 0 556) + inflight Done
  = claimed_by 0 (st_log (run 1 demo_kernel steal_sched steal_start)).
Proof.
  apply (thread_counts_its_own_work 1 demo_kernel 2 600 demo_args [600] demo_steps 0
           demo_junk_wq demo_junk_ctx demo_mem steal_start steal_sched
           0%nat (mkThread (mkContext 0 556) Done) steal_started).
  vm_compute. reflexivity.
Defined.

(** X5. The owner takes from the front and a stealer from the back: a
    range drained by thread [t] starts at or after the initial [next] of
    queue [t], has between 0 and 256 elements and ends at or before the
    queue's present [next]; a range stolen from queue [j] is taken by
    another thread, has 256 elements, starts at or after the queue's
    present [last] and ends at or before its initial [last]. *)
Theorem owner_front_thief_back {V : Type} (A : nat) (kernel : Kernel V)
    (T N : Z) (a d s : list Z) (dat : Z) (junk_wq : WorkQueue)
    (junk_ctx : Context) (m0 : Z → V) (st0 : State) (sched : list nat)
    (e : Event) :
  started T N a d s dat junk_wq junk_ctx m0 st0 →
  e ∈ st_log (run A kernel sched st0) →
  took_ok (st_workqueues st0) (st_workqueues (run A kernel sched st0)) e.
Proof.
  intros Hst He.
  destruct (started_inv A _ _ _ _ _ _ _ _ _ _ Hst)
    as (HN & Hwf0 & Hac0 & Hb0 & chunk & Heq & _ & _).
  assert (Hns0 : NoSelf st0) by (rewrite Heq; apply spawn_NoSelf).
  assert (Hd0 : Disc (st_workqueues st0) st0) by (rewrite Heq; apply spawn_Disc).
  by apply (dc_events _ _ (run_Disc A kernel _ sched st0 Hwf0 Hac0 Hns0 Hd0)).
Qed.

Lemma owner_front_thief_back_witness :
  took_ok (st_workqueues steal_start)
    (st_workqueues (run 1 demo_kernel steal_sched steal_start)) (EvSteal 0 1 344).
Proof.
  apply (owner_front_thief_back 1 demo_kernel 2 600 demo_args [600] demo_steps 0
           demo_junk_wq demo_junk_ctx demo_mem steal_start steal_sched
           (EvSteal 0 1 344) steal_started).
  apply list_elem_of_lookup. exists 3%nat. vm_compute. reflexivity.
Defined.

(** X6. A worker never turns the steal-check on its own queue: no thread
    stands in [_do_work_stealing_check] with its own id as the peer, and
    no steal in the history has the stealer as its victim. *)
Theorem no_self_steal {V : Type} (A : nat) (kernel : Kernel V)
    (T N : Z) (a d s : list Z) (dat : Z) (junk_wq : WorkQueue)
    (junk_ctx : Context) (m0 : Z → V) (st0 : State) (sched : list nat) :
  started T N a d s dat junk_wq junk_ctx m0 st0 →
  (∀ t th j, st_threads (run A kernel sched st0) !! t = Some th →
             steal_peer (th_pc th) = Some j → j ≠ t)
  ∧ (∀ tid peer item, EvSteal tid peer item ∈ st_log (run A kernel sched st0) →
                      peer ≠ tid).
Proof.
  intros Hst.
  destruct (started_inv A _ _ _ _ _ _ _ _ _ _ Hst)
    as (HN & Hwf0 & Hac0 & Hb0 & chunk & Heq & _ & _).
  assert (Hns0 : NoSelf st0) by (rewrite Heq; apply spawn_NoSelf).
  assert (Hd0 : Disc (st_workqueues st0) st0) by (rewrite Heq; apply spawn_Disc).
  split.
  - apply (run_NoSelf A kernel sched st0 Hwf0 Hac0 Hns0).
  - intros tid peer item He.
    destruct (dc_events _ _ (run_Disc A kernel _ sched st0 Hwf0 Hac0 Hns0 Hd0) _ He)
      as (t & j & q0 & q & -> & -> & Hne & _). lia.
Qed.

Lemma no_self_steal_witness :
  (∀ t th j,
     st_threads (run 1 demo_kernel (replicate 324 0%nat) steal_start) !! t = Some th →
     steal_peer (th_pc th) = Some j → j ≠ t)
  ∧ (∀ tid peer item,
       EvSteal tid peer item
       ∈ st_log (run 1 demo_kernel (replicate 324 0%nat) steal_start) →
       peer ≠ tid).
Proof.
  exact (no_self_steal 1 demo_kernel 2 600 demo_args [600] demo_steps 0
           demo_junk_wq demo_junk_ctx demo_mem steal_start (replicate 324 0%nat)
           steal_started).
Defined.

(** X7. Steals are whole blocks of 256: at every point of the batch, 256
    times the number of steals so far is at most [N]; a batch of fewer
    than 256 elements sees no steal at all. *)
Theorem steals_bounded {V : Type} (A : nat) (kernel : Kernel V)
    (T N : Z) (a d s : list Z) (dat : Z) (junk_wq : WorkQueue)
    (junk_ctx : Context) (m0 : Z → V) (st0 : State) (sched : list nat) :
  started T N a d s dat junk_wq junk_ctx m0 st0 →
  GRANULARITY * steals (st_log (run A kernel sched st0)) ≤ N
  ∧ (N < GRANULARITY → steals (st_log (run A kernel sched st0)) = 0).
Proof.
  intros Hst.
  destruct (started_inv A _ _ _ _ _ _ _ _ _ _ Hst)
    as (HN & Hwf0 & Hac0 & Hb0 & chunk & Heq & _ & _).
  assert (Hns0 : NoSelf st0) by (rewrite Heq; apply spawn_NoSelf).
  assert (Hd0 : Disc (st_workqueues st0) st0) by (rewrite Heq; apply spawn_Disc).
  pose proof (run_Disc A kernel _ sched st0 Hwf0 Hac0 Hns0 Hd0) as Hd.
  pose proof (run_WF A kernel sched st0 Hwf0) as Hwf.
  pose proof (run_Acct A kernel sched st0 Hwf0 Hac0) as Hac.
  pose proof (ac_total _ Hac) as Htot.
  rewrite batch_run, Hb0 in Htot by done.
  pose proof (waiting_nonneg _ _ (wf_queue _ _ Hwf)) as Hw.
  assert (Hle : GRANULARITY * steals (st_log (run A kernel sched st0))
                ≤ claimed (st_log (run A kernel sched st0))).
  { apply steals_claimed. intros e He.
    pose proof (dc_events _ _ Hd _ He) as Hok.
    destruct e; simpl in *; unfold GRANULARITY; [|lia].
    destruct Hok as (? & ? & ? & _ & _ & _ & _ & ? & _). lia. }
  split; [lia|]. intros Hsmall.
  pose proof (ind_sum_nonneg is_steal (st_log (run A kernel sched st0))) as Hnn.
  fold (steals (st_log (run A kernel sched st0))) in Hnn.
  unfold GRANULARITY in *. lia.
Qed.

Lemma steals_bounded_witness :
  GRANULARITY * steals (st_log (run 1 demo_kernel steal_sched steal_start)) ≤ 600.
Proof.
  exact (proj1 (steals_bounded 1 demo_kernel 2 600 demo_args [600] demo_steps 0
                  demo_junk_wq demo_junk_ctx demo_mem steal_start steal_sched
                  steal_started)).
Defined.

(** X8. The lock word of a queue is 0 or 1 at every point of the batch;
    when it is 1, some thread stands inside the critical section of that
    queue; when all workers have returned every lock is free. *)
Theorem locks_free_at_join {V : Type} (A : nat) (kernel : Kernel V)
    (T N : Z) (a d s : list Z) (dat : Z) (junk_wq : WorkQueue)
    (junk_ctx : Context) (m0 : Z → V) (st0 : State) (sched : list nat)
    (i : nat) (q : WorkQueue) :
  started T N a d s dat junk_wq junk_ctx m0 st0 →
  st_workqueues (run A kernel sched st0) !! i = Some q →
  (lock q = 0 ∨ lock q = 1)
  ∧ (lock q = 1 →
       ∃ t th, st_threads (run A kernel sched st0) !! t = Some th
               ∧ holds t (th_pc th) = Some i)
  ∧ (all_done (run A kernel sched st0) = true → lock q = 0).
Proof.
  intros Hst Hq.
  destruct (started_inv A _ _ _ _ _ _ _ _ _ _ Hst) as (HN & Hwf0 & _).
  pose proof (run_WF A kernel sched st0 Hwf0) as Hwf.
  destruct (wf_queue _ _ Hwf _ _ Hq) as (_ & _ & Hl).
  split; [done|]. split; [by apply (wf_owner _ _ Hwf)|].
  intros Hdone. destruct Hl as [Hl|Hl]; [done|].
  destruct (wf_owner _ _ Hwf _ _ Hq Hl) as (t & th & Hth & Hh).
  by rewrite (all_done_lookup _ _ _ Hdone Hth) in Hh.
Qed.

Lemma locks_free_at_join_witness :
  (lock (mkWorkQueue 344 344 0) = 0 ∨ lock (mkWorkQueue 344 344 0) = 1)
  ∧ (lock (mkWorkQueue 344 344 0) = 1 →
       ∃ t th, st_threads (run 1 demo_kernel steal_sched steal_start) !! t = Some th
               ∧ holds t (th_pc th) = Some 1%nat)
  ∧ (all_done (run 1 demo_kernel steal_sched steal_start) = true →
     lock (mkWorkQueue 344 344 0) = 0).
Proof.
  apply (locks_free_at_join 1 demo_kernel 2 600 demo_args [600] demo_steps 0
           demo_junk_wq demo_junk_ctx demo_mem steal_start steal_sched
           1%nat (mkWorkQueue 344 344 0) steal_started).
  vm_compute. reflexivity.
Defined.

(** X9. No deadlock: at every point of the batch at which some worker
    has not returned, some worker that has not returned has a step that
    changes the state; if that worker stands at a [Lock], the lock is
    free. *)
Theorem deadlock_freedom {V : Type} (A : nat) (kernel : Kernel V)
    (T N : Z) (a d s : list Z) (dat : Z) (junk_wq : WorkQueue)
    (junk_ctx : Context) (m0 : Z → V) (st0 : State) (sched : list nat) :
  started T N a d s dat junk_wq junk_ctx m0 st0 →
  all_done (run A kernel sched st0) = false →
  ∃ t th, st_threads (run A kernel sched st0) !! t = Some th
    ∧ th_pc th ≠ Done
    ∧ (∀ i, waits t (th_pc th) = Some i →
         ∃ q, st_workqueues (run A kernel sched st0) !! i = Some q ∧ lock q = 0)
    ∧ tick A kernel (run A kernel sched st0) t ≠ run A kernel sched st0.
Proof.
  intros Hst Hnd.
  destruct (started_inv A _ _ _ _ _ _ _ _ _ _ Hst) as (HN & Hwf0 & _).
  pose proof (run_WF A kernel sched st0 Hwf0) as Hwf.
  destruct (progress_exists A _ Hwf Hnd) as (t & _ & Heff).
  pose proof (effective_measure A kernel t _ Hwf Heff) as Hmu.
  unfold effective in Heff.
  destruct (st_threads (run A kernel sched st0) !! t) as [th|] eqn:Hth; [|done].
  exists t, th. split; [done|]. split; [intros Hd; by rewrite Hd in Heff|].
  split.
  - intros i Hw. destruct (th_pc th); simpl in Hw; simplify_eq; simpl in Heff;
      (destruct (st_workqueues (run A kernel sched st0) !! _) as [q|]; [|done]);
      exists q; (split; [done|]); by apply Z.eqb_eq.
  - intros Heq. rewrite Heq in Hmu. lia.
Qed.

Lemma deadlock_freedom_witness :
  ∃ t th, st_threads (run 1 demo_kernel [0; 0]%nat demo_start) !! t = Some th
    ∧ th_pc th ≠ Done
    ∧ (∀ i, waits t (th_pc th) = Some i →
         ∃ q, st_workqueues (run 1 demo_kernel [0; 0]%nat demo_start) !! i = Some q
              ∧ lock q = 0)
    ∧ tick 1 demo_kernel (run 1 demo_kernel [0; 0]%nat demo_start) t
      ≠ run 1 demo_kernel [0; 0]%nat demo_start.
Proof.
  apply (deadlock_freedom 1 demo_kernel 2 3 demo_args [3] demo_steps 0
           demo_junk_wq demo_junk_ctx demo_mem demo_start [0; 0]%nat demo_started).
  vm_compute. reflexivity.
Defined.

Lemma left_drain_drained (pc : Pc) : in_drain pc = false → drained pc = true.
Proof. destruct pc as [| | | [|] | | | | | | | |]; simpl; done. Qed.

(** X10. The two phases of a worker are one-way: once a worker has left
    [_do_workqueue] its own queue is empty, and at every later point the
    worker is still outside [_do_workqueue] and its queue is still
    empty. *)
Theorem drain_phase_one_way {V : Type} (A : nat) (kernel : Kernel V)
    (T N : Z) (a d s : list Z) (dat : Z) (junk_wq : WorkQueue)
    (junk_ctx : Context) (m0 : Z → V) (st0 : State)
    (sched1 sched2 : list nat) (t : nat) (th : Thread) :
  started T N a d s dat junk_wq junk_ctx m0 st0 →
  st_threads (run A kernel sched1 st0) !! t = Some th →
  in_drain (th_pc th) = false →
  ∃ th' q', st_threads (run A kernel (sched1 ++ sched2) st0) !! t = Some th'
    ∧ in_drain (th_pc th') = false
    ∧ st_workqueues (run A kernel (sched1 ++ sched2) st0) !! t = Some q'
    ∧ next q' = last q'.
Proof.
  intros Hst Hth Hout.
  destruct (started_inv A _ _ _ _ _ _ _ _ _ _ Hst) as (HN & Hwf0 & _).
  pose proof (run_WF A kernel sched1 st0 Hwf0) as Hwf1.
  pose proof (run_WF A kernel (sched1 ++ sched2) st0 Hwf0) as Hwf.
  rewrite run_app in *.
  destruct (run_phase A kernel t sched2 _ Hwf1) as (th' & Hth' & Hout'); [by exists th|].
  destruct (lookup_lt_is_Some_2
              (st_workqueues (run A kernel sched2 (run A kernel sched1 st0))) t)
    as [q' Hq'].
  { rewrite (wf_len _ _ Hwf). by eapply lookup_lt_Some. }
  exists th', q'. split; [done|]. split; [done|]. split; [done|].
  apply (wf_drained _ _ Hwf _ _ _ Hth' Hq'). by apply left_drain_drained.
Qed.

Lemma drain_phase_one_way_witness :
  ∃ th' q',
    st_threads (run 1 demo_kernel
                  (replicate 330 0%nat ++ concat (replicate 400 [0; 1]%nat))
                  steal_start) !! 0%nat = Some th'
    ∧ in_drain (th_pc th') = false
    ∧ st_workqueues (run 1 demo_kernel
                       (replicate 330 0%nat ++ concat (replicate 400 [0; 1]%nat))
                       steal_start) !! 0%nat = Some q'
    ∧ next q' = last q'.
Proof.
  apply (drain_phase_one_way 1 demo_kernel 2 600 demo_args [600] demo_steps 0
           demo_junk_wq demo_junk_ctx demo_mem steal_start
           (replicate 330 0%nat) (concat (replicate 400 [0; 1]%nat)) 0%nat
           (mkThread (mkContext 0 300) (Work (KSteal 1) 344 256 13 [3856; 52856]))
           steal_started).
  - vm_compute. reflexivity.
  - reflexivity.
Defined.

(** X11. [next] and [last] are written under the lock only: when a step
    of a thread changes a queue's [next] or [last], that thread holds the
    queue's lock, and the lock word is 1 before and after the step. *)
Theorem bounds_written_under_lock {V : Type} (A : nat) (kernel : Kernel V)
    (T N : Z) (a d s : list Z) (dat : Z) (junk_wq : WorkQueue)
    (junk_ctx : Context) (m0 : Z → V) (st0 : State) (sched : list nat)
    (t : nat) (c : Context) (pc : Pc) (st' : State) (i : nat) (q q' : WorkQueue) :
  started T N a d s dat junk_wq junk_ctx m0 st0 →
  let st := run A kernel sched st0 in
  st_threads st !! t = Some (mkThread c pc) →
  step A kernel t st = Some st' →
  st_workqueues st !! i = Some q → st_workqueues st' !! i = Some q' →
  next q' ≠ next q ∨ last q' ≠ last q →
  holds t pc = Some i ∧ lock q = 1 ∧ lock q' = 1.
Proof.
  intros Hst. cbv zeta. intros Hth Hstep Hq Hq' Hdiff.
  destruct (started_inv A _ _ _ _ _ _ _ _ _ _ Hst) as (HN & Hwf0 & _).
  pose proof (run_WF A kernel sched st0 Hwf0) as Hwf.
  apply (step_locked_write A kernel t _ st' c pc i q q' Hwf); try done.
  by apply step_sound.
Qed.

Lemma bounds_written_under_lock_witness :
  holds 0 DrainCrit = Some 0%nat
  ∧ lock (mkWorkQueue 0 1 1) = 1 ∧ lock (mkWorkQueue 1 1 1) = 1.
Proof.
  apply (bounds_written_under_lock 1 demo_kernel 2 3 demo_args [3] demo_steps 0
           demo_junk_wq demo_junk_ctx demo_mem demo_start [0]%nat
           0%nat (mkContext 0 0) DrainCrit
           (tick 1 demo_kernel (run 1 demo_kernel [0]%nat demo_start) 0)
           0%nat (mkWorkQueue 0 1 1) (mkWorkQueue 1 1 1) demo_started).
  - vm_compute. reflexivity.
  - vm_compute. reflexivity.
  - vm_compute. reflexivity.
  - vm_compute. reflexivity.
  - left. simpl. lia.
Defined.

(** X12. The audit sum measures unfinished work: at every point of the
    batch the sum of the [completed] counters, accumulated in a [C.intp],
    is [N] less what waits in the queues and what workers have taken and
    not yet counted; so the audit's comparison with [N] succeeds exactly
    when nothing waits and nothing is in flight. *)
Theorem audit_counts_unfinished_work {V : Type} (A : nat) (kernel : Kernel V)
    (T N : Z) (a d s : list Z) (dat : Z) (junk_wq : WorkQueue)
    (junk_ctx : Context) (m0 : Z → V) (st0 : State) (sched : list nat) :
  started T N a d s dat junk_wq junk_ctx m0 st0 →
  let st := run A kernel sched st0 in
  total_completed st = N - waiting (st_workqueues st) - in_flight st
  ∧ 0 ≤ waiting (st_workqueues st) ∧ 0 ≤ in_flight st
  ∧ (race_detected st = false ↔ waiting (st_workqueues st) = 0 ∧ in_flight st = 0).
Proof.
  intros Hst. cbv zeta.
  destruct (started_inv A _ _ _ _ _ _ _ _ _ _ Hst) as (HN & Hwf0 & Hac0 & Hb0 & _).
  pose proof (run_WF A kernel sched st0 Hwf0) as Hwf.
  pose proof (run_Acct A kernel sched st0 Hwf0 Hac0) as Hac.
  pose proof (total_completed_any A _ Hwf Hac) as Htc.
  pose proof (batch_run A kernel sched st0 Hwf0) as Hb. rewrite Hb0 in Hb.
  rewrite Hb in Htc.
  pose proof (waiting_nonneg _ _ (wf_queue _ _ Hwf)) as Hw.
  pose proof (in_flight_nonneg A _ Hwf) as Hf.
  split; [done|]. split; [done|]. split; [done|].
  unfold race_detected. fold (batch (run A kernel sched st0)). rewrite Hb, Htc.
  rewrite negb_false_iff, Z.eqb_eq. lia.
Qed.

Lemma audit_counts_unfinished_work_witness :
  total_completed (run 1 demo_kernel [0; 0; 1; 1]%nat demo_start)
  = 3 - waiting (st_workqueues (run 1 demo_kernel [0; 0; 1; 1]%nat demo_start))
      - in_flight (run 1 demo_kernel [0; 0; 1; 1]%nat demo_start).
Proof.
  exact (proj1 (audit_counts_unfinished_work 1 demo_kernel 2 3 demo_args [3]
                  demo_steps 0 demo_junk_wq demo_junk_ctx demo_mem demo_start
                  [0; 0; 1; 1]%nat demo_started)).
Defined.

(** * The dispatcher's setup on any array and any batch *)

Lemma for_each_app {S : Type} (l1 l2 : list Z) (f : Z → S → result S) (s : S) :
  for_each (l1 ++ l2) f s = bind (for_each l1 f s) (for_each l2 f).
Proof.
  revert s. induction l1 as [|i l1 IH]; intros s; simpl; [done|].
  destruct (f i s) as [s'|j n]; simpl; [apply IH|done].
Qed.

(** X13. [_populate_context] on an array of at least [num_thread]
    entries sets entry [i] to [id = i], [completed = 0] for every
    [i < num_thread], whatever the array held, and leaves the entries
    from [num_thread] on as they were; on a shorter array the loop faults
    at the first index past the end. *)
Theorem populate_context_fills_prefix (contexts : list Context) (num_thread : Z) :
  0 ≤ num_thread →
  (num_thread ≤ Z.of_nat (length contexts) →
     ∃ ctxs, populate_context contexts num_thread = Ok ctxs
       ∧ length ctxs = length contexts
       ∧ ∀ j : nat, ctxs !! j =
           if decide (Z.of_nat j < num_thread) then Some (mkContext (Z.of_nat j) 0)
           else contexts !! j)
  ∧ (Z.of_nat (length contexts) < num_thread →
     populate_context contexts num_thread
     = OutOfBounds (Z.of_nat (length contexts)) (length contexts)).
Proof.
  intros Hn. unfold populate_context, for_range. split.
  - intros Hle.
    destruct (for_each_fill (λ i, mkContext i 0) (Z.to_nat num_thread) 0 contexts)
      as (l' & Hrun & Hlen & Hget); [lia|].
    rewrite Z2Nat.id in Hrun by lia. change (Z.of_nat 0) with 0 in Hrun.
    exists l'. split; [done|]. split; [done|].
    intros j. rewrite Hget.
    destruct (decide (0 ≤ j < 0 + Z.to_nat num_thread)%nat),
      (decide (Z.of_nat j < num_thread)); try done; lia.
  - intros Hlt.
    replace num_thread
      with (Z.of_nat (length contexts) + (num_thread - Z.of_nat (length contexts)))
      by lia.
    rewrite seqZ_app by lia. rewrite for_each_app.
    destruct (for_each_fill (λ i, mkContext i 0) (length contexts) 0 contexts)
      as (l' & Hrun & Hlen & _); [lia|].
    change (Z.of_nat 0) with 0 in Hrun. rewrite Hrun. simpl.
    rewrite Z.add_0_l, seqZ_cons by lia. simpl.
    unfold update_at, lookupZ.
    destruct (Z.leb_spec 0 (Z.of_nat (length contexts))); [|lia].
    rewrite Nat2Z.id.
    rewrite (proj2 (lookup_ge_None l' (length contexts))) by lia.
    simpl. by rewrite Hlen.
Qed.

Lemma populate_context_fills_prefix_witness :
  (∃ ctxs, populate_context (replicate 3 demo_junk_ctx) 2 = Ok ctxs
     ∧ length ctxs = length (replicate 3 demo_junk_ctx)
     ∧ ∀ j : nat, ctxs !! j =
         if decide (Z.of_nat j < 2) then Some (mkContext (Z.of_nat j) 0)
         else replicate 3 demo_junk_ctx !! j)
  ∧ populate_context (replicate 3 demo_junk_ctx) 5 = OutOfBounds 3 3.
Proof.
  split.
  - apply (proj1 (populate_context_fills_prefix (replicate 3 demo_junk_ctx) 2
                    ltac:(lia))).
    simpl. lia.
  - apply (proj2 (populate_context_fills_prefix (replicate 3 demo_junk_ctx) 5
                    ltac:(lia))).
    simpl. lia.
Defined.

(** X14. With a thread count in [1, INT_MAX] the dispatcher's setup
    faults exactly on the empty batch, whatever the thread count: for
    [N = 0] the store to [workqueues[num_thread - 1]] goes to index -1 of
    an array of length zero, and for [N >= 1] the setup succeeds and
    starts [min(T, N)] workers with one queue each. *)
Theorem dispatcher_faults_exactly_on_empty {V : Type}
    (T N : Z) (a d s : list Z) (dat : Z) (junk_wq : WorkQueue)
    (junk_ctx : Context) (m0 : Z → V) :
  1 ≤ T ≤ int_max → 0 ≤ N ≤ intp_max → d !! 0%nat = Some N →
  (N = 0 → body T a d s dat junk_wq junk_ctx m0 = OutOfBounds (-1) 0)
  ∧ (1 ≤ N →
       ∃ st0, body T a d s dat junk_wq junk_ctx m0 = Ok st0
         ∧ length (st_threads st0) = Z.to_nat (Z.min T N)
         ∧ length (st_workqueues st0) = Z.to_nat (Z.min T N)).
Proof.
  intros HT HN Hd. split.
  - intros ->. by apply body_empty.
  - intros H1.
    destruct (body_spec T N a d s dat junk_wq junk_ctx m0) as (Hb & Hok & _);
      [lia..|done|].
    eexists. split; [exact Hb|].
    assert ((if N <? T then N else T) = Z.min T N) as Hmin
      by (destruct (Z.ltb_spec N T); lia).
    rewrite Hmin in *. simpl. split.
    + unfold initial_contexts. by rewrite !length_fmap, length_seqZ.
    + apply initial_queues_length. lia.
Qed.

Lemma dispatcher_faults_exactly_on_empty_witness :
  (0 = 0 → body 7 demo_args [0] demo_steps 0 demo_junk_wq demo_junk_ctx demo_mem
           = OutOfBounds (-1) 0)
  ∧ (1 ≤ 0 →
       ∃ st0, body 7 demo_args [0] demo_steps 0 demo_junk_wq demo_junk_ctx demo_mem
              = Ok st0
         ∧ length (st_threads st0) = Z.to_nat (Z.min 7 0)
         ∧ length (st_workqueues st0) = Z.to_nat (Z.min 7 0)).
Proof.
  apply (dispatcher_faults_exactly_on_empty 7 0 demo_args [0] demo_steps 0
           demo_junk_wq demo_junk_ctx demo_mem); [closed_bounds..|reflexivity].
Defined.

(** * Creating and joining the workers: [_dispatch_worker] with pthreads *)

(** The calls [ParallelUFuncPosixMixin._dispatch_worker] makes into the
    thread library, with the index of the thread they are made for. *)
Inductive ApiCall : Type :=
| pthread_create (i : Z)
| pthread_join (i : Z).

(** How the dispatch ends: it falls through to the audit, or it reaches
    [unreachable] after a call that returned a non-zero status. *)
Inductive Outcome : Type :=
| Returned
| Unreachable (call : ApiCall) (status : Z).

(** One of the two loops: the call for each index in turn, with the
    status test after each call. [status i] is what the library returns
    for the call at index [i]. *)
Fixpoint checked_loop (call : Z → ApiCall) (status : Z → Z) (idx : list Z)
  : list ApiCall * Outcome :=
  match idx with
  | [] => ([], Returned)
  | i :: rest =>
      if negb (status i =? 0) then ([call i], Unreachable (call i) (status i))
      else let '(calls, out) := checked_loop call status rest in (call i :: calls, out)
  end.

(** [_dispatch_worker]: the calls made, in order, and how it ends. *)
Definition dispatch_worker (create_status join_status : Z → Z) (num_thread : Z)
  : list ApiCall * Outcome :=
  match checked_loop pthread_create create_status (for_range num_thread) with
  | (created, Returned) =>
      let '(joined, out) :=
        checked_loop pthread_join join_status (for_range num_thread) in
      (created ++ joined, out)
  | (created, out) => (created, out)
  end.

Lemma checked_loop_ok (call : Z → ApiCall) (status : Z → Z) (idx : list Z) :
  (∀ i, i ∈ idx → status i = 0) →
  checked_loop call status idx = (call <$> idx, Returned).
Proof.
  induction idx as [|i idx IH]; intros Hall; simpl; [done|].
  rewrite (Hall i) by left. simpl. rewrite IH; [done|].
  intros j Hj. apply Hall. by right.
Qed.

Lemma checked_loop_fail (call : Z → ApiCall) (status : Z → Z)
    (pre : list Z) (i : Z) (post : list Z) :
  (∀ j, j ∈ pre → status j = 0) → status i ≠ 0 →
  checked_loop call status (pre ++ i :: post)
  = (call <$> (pre ++ [i]), Unreachable (call i) (status i)).
Proof.
  intros Hpre Hi. induction pre as [|j pre IH]; simpl.
  - destruct (Z.eqb_spec (status i) 0); [done|]. done.
  - rewrite (Hpre j) by left. simpl. rewrite IH; [done|].
    intros k Hk. apply Hpre. by right.
Qed.

Lemma checked_loop_returned (call : Z → ApiCall) (status : Z → Z) (idx : list Z) :
  snd (checked_loop call status idx) = Returned → ∀ i, i ∈ idx → status i = 0.
Proof.
  induction idx as [|j idx IH]; simpl; intros Hret i Hi.
  - by apply elem_of_nil in Hi.
  - destruct (Z.eqb_spec (status j) 0) as [Hz|Hnz]; simpl in Hret; [|done].
    destruct (checked_loop call status idx) as [calls out]. simpl in *.
    apply elem_of_cons in Hi as [->|Hi]; [done|]. by apply IH.
Qed.

Lemma for_range_split (i n : Z) :
  0 ≤ i < n → for_range n = for_range i ++ i :: seqZ (i + 1) (n - i - 1).
Proof.
  intros Hi. unfold for_range.
  replace n with (i + (n - i)) at 1 by lia.
  rewrite seqZ_app by lia. rewrite Z.add_0_l, (seqZ_cons i) by lia.
  do 3 f_equal; lia.
Qed.

Lemma for_range_snoc (i : Z) : 0 ≤ i → for_range (i + 1) = for_range i ++ [i].
Proof. intros Hi. unfold for_range. by rewrite seqZ_app by lia. Qed.

Lemma elem_of_for_range (i n : Z) : i ∈ for_range n ↔ 0 ≤ i < n.
Proof. unfold for_range. rewrite elem_of_seqZ. lia. Qed.

(** X15. The pthread dispatch falls through to the audit exactly when
    every [pthread_create] and every [pthread_join] returns 0; it has
    then created threads 0, 1, ..., [num_thread - 1] in this order, each
    once, and after all of them joined the same threads in the same
    order. *)
Theorem dispatch_returns_iff_all_calls_succeed
    (create_status join_status : Z → Z) (num_thread : Z) :
  (snd (dispatch_worker create_status join_status num_thread) = Returned
   ↔ ∀ i, 0 ≤ i < num_thread → create_status i = 0 ∧ join_status i = 0)
  ∧ (snd (dispatch_worker create_status join_status num_thread) = Returned →
     fst (dispatch_worker create_status join_status num_thread)
     = (pthread_create <$> for_range num_thread)
       ++ (pthread_join <$> for_range num_thread)).
Proof.
  assert (Hall : (∀ i, 0 ≤ i < num_thread → create_status i = 0 ∧ join_status i = 0) →
                 dispatch_worker create_status join_status num_thread
                 = ((pthread_create <$> for_range num_thread)
                      ++ (pthread_join <$> for_range num_thread), Returned)).
  { intros Hz. unfold dispatch_worker.
    rewrite checked_loop_ok by (intros i Hi%elem_of_for_range; by apply Hz).
    rewrite checked_loop_ok by (intros i Hi%elem_of_for_range; by apply Hz).
    done. }
  assert (Hinv : snd (dispatch_worker create_status join_status num_thread) = Returned →
                 ∀ i, 0 ≤ i < num_thread → create_status i = 0 ∧ join_status i = 0).
  { unfold dispatch_worker. intros Hret i Hi%elem_of_for_range.
    pose proof (checked_loop_returned pthread_create create_status
                  (for_range num_thread)) as Hc.
    pose proof (checked_loop_returned pthread_join join_status
                  (for_range num_thread)) as Hj.
    destruct (checked_loop pthread_create create_status (for_range num_thread))
      as [created [|call st]]; simpl in *; [|done].
    destruct (checked_loop pthread_join join_status (for_range num_thread))
      as [joined out]; simpl in *.
    split; [by apply Hc|by apply Hj]. }
  split; [split; [done|]|].
  - intros Hz. by rewrite Hall.
  - intros Hret. by rewrite Hall by (by apply Hinv).
Qed.

(** X16. When a [pthread_create] fails, the dispatch stops there: if the
    call for thread [i] is the first to return a non-zero status, the
    dispatch has created threads 0, ..., [i - 1], made the failing call,
    and reaches [unreachable] with no [pthread_join] made, so the threads
    already running are never joined. *)
Theorem create_failure_joins_nothing
    (create_status join_status : Z → Z) (num_thread i : Z) :
  0 ≤ i < num_thread →
  (∀ j, 0 ≤ j < i → create_status j = 0) →
  create_status i ≠ 0 →
  dispatch_worker create_status join_status num_thread
  = (pthread_create <$> for_range (i + 1),
     Unreachable (pthread_create i) (create_status i))
  ∧ ∀ j, pthread_join j ∉ fst (dispatch_worker create_status join_status num_thread).
Proof.
  intros Hi Hpre Hfail.
  assert (Heq : dispatch_worker create_status join_status num_thread
                = (pthread_create <$> for_range (i + 1),
                   Unreachable (pthread_create i) (create_status i))).
  { unfold dispatch_worker. rewrite (for_range_split i num_thread Hi).
    rewrite checked_loop_fail;
      [|intros j Hj%elem_of_for_range; by apply Hpre|done].
    by rewrite for_range_snoc by lia. }
  split; [done|]. rewrite Heq. simpl.
  intros j (k & Hk & _)%list_elem_of_fmap. done.
Qed.

Lemma create_failure_joins_nothing_witness :
  dispatch_worker (λ i, if i =? 2 then 11 else 0) (λ _, 0) 4
  = (pthread_create <$> for_range (2 + 1),
     Unreachable (pthread_create 2) ((λ i, if i =? 2 then 11 else 0) 2))
  ∧ ∀ j, pthread_join j
         ∉ fst (dispatch_worker (λ i, if i =? 2 then 11 else 0) (λ _, 0) 4).
Proof.
  apply (create_failure_joins_nothing (λ i, if i =? 2 then 11 else 0) (λ _, 0) 4 2).
  - lia.
  - intros j Hj. destruct (Z.eqb_spec j 2); [lia|reflexivity].
  - simpl. lia.
Defined.

(** X17. When every [pthread_create] succeeds and a [pthread_join]
    fails, the dispatch has created all threads, joined threads
    0, ..., [i - 1] where [i] is the first failing join, and reaches
    [unreachable] after that call; the threads after [i] are not
    joined. *)
Theorem join_failure_stops_at_first
    (create_status join_status : Z → Z) (num_thread i : Z) :
  (∀ j, 0 ≤ j < num_thread → create_status j = 0) →
  0 ≤ i < num_thread →
  (∀ j, 0 ≤ j < i → join_status j = 0) →
  join_status i ≠ 0 →
  dispatch_worker create_status join_status num_thread
  = ((pthread_create <$> for_range num_thread) ++ (pthread_join <$> for_range (i + 1)),
     Unreachable (pthread_join i) (join_status i))
  ∧ ∀ j, i < j → pthread_join j
                 ∉ fst (dispatch_worker create_status join_status num_thread).
Proof.
  intros Hcreate Hi Hpre Hfail.
  assert (Heq : dispatch_worker create_status join_status num_thread
                = ((pthread_create <$> for_range num_thread)
                     ++ (pthread_join <$> for_range (i + 1)),
                   Unreachable (pthread_join i) (join_status i))).
  { unfold dispatch_worker.
    rewrite checked_loop_ok by (intros j Hj%elem_of_for_range; by apply Hcreate).
    rewrite (for_range_split i num_thread Hi) at 1.
    rewrite checked_loop_fail;
      [|intros j Hj%elem_of_for_range; by apply Hpre|done].
    by rewrite for_range_snoc by lia. }
  split; [done|]. rewrite Heq. simpl.
  intros j Hj [(k & Hk & _)%list_elem_of_fmap|(k & Hk & Hin)%list_elem_of_fmap]%elem_of_app;
    [done|].
  apply elem_of_for_range in Hin. simplify_eq. lia.
Qed.

Lemma join_failure_stops_at_first_witness :
  dispatch_worker (λ _, 0) (λ i, if i =? 1 then 3 else 0) 4
  = ((pthread_create <$> for_range 4) ++ (pthread_join <$> for_range (1 + 1)),
     Unreachable (pthread_join 1) ((λ i, if i =? 1 then 3 else 0) 1))
  ∧ ∀ j, 1 < j →
         pthread_join j
         ∉ fst (dispatch_worker (λ _, 0) (λ i, if i =? 1 then 3 else 0) 4).
Proof.
  apply (join_failure_stops_at_first (λ _, 0) (λ i, if i =? 1 then 3 else 0) 4 1).
  - intros j _. reflexivity.
  - lia.
  - intros j Hj. destruct (Z.eqb_spec j 1); [lia|reflexivity].
  - simpl. lia.
Defined.

(** * What each worker has counted at the join *)

(** Blocks thread [t] stole, blocks stolen from queue [j], and elements
    thread [t] drained from its own queue. *)
Definition stolen_by (t : nat) (log : list Event) : Z :=
  sumZ (λ e, match e with
             | EvSteal tid _ _ => ind (tid =? Z.of_nat t)
             | EvDrain _ _ _ => 0
             end) log.

Definition stolen_from (j : nat) (log : list Event) : Z :=
  sumZ (λ e, match e with
             | EvSteal _ peer _ => ind (peer =? Z.of_nat j)
             | EvDrain _ _ _ => 0
             end) log.

Definition drained_by (t : nat) (log : list Event) : Z :=
  sumZ (λ e, match e with
             | EvDrain tid _ amt => if tid =? Z.of_nat t then amt else 0
             | EvSteal _ _ _ => 0
             end) log.

Lemma claimed_by_split (t : nat) (log : list Event) :
  claimed_by t log = drained_by t log + GRANULARITY * stolen_by t log.
Proof.
  unfold claimed_by, drained_by, stolen_by.
  induction log as [|e log IH]; cbn [sumZ]; [lia|]. rewrite IH.
  destruct e as [tid item amt|tid peer item]; simpl; unfold ind;
    destruct (Z.eqb_spec tid (Z.of_nat t)); unfold GRANULARITY; lia.
Qed.

Section Shares.

Context {V : Type}.
Variable A : nat.
Variable kernel : Kernel V.
#[local] Abbreviation State := (@State V).

(** Queue [j] has moved from its initial range by exactly what its owner
    drained and what was stolen from it. *)
Definition PerQueue (qs0 : list WorkQueue) (st : State) : Prop :=
  ∀ j q0 q, qs0 !! j = Some q0 → st_workqueues st !! j = Some q →
    next q = next q0 + drained_by j (st_log st)
    ∧ last q = last q0 - GRANULARITY * stolen_from j (st_log st).

Lemma trans_per_queue cm t m c pc touch c' pc' w evs (N n : Z) (j : nat) :
  Trans A kernel cm t m c pc touch c' pc' w evs →
  pc_ok A cm N n pc →
  match touch with
  | Some (i, q, q') =>
      if decide (i = j)
      then next q' = next q + drained_by j evs
           ∧ last q' = last q - GRANULARITY * stolen_from j evs
      else drained_by j evs = 0 ∧ stolen_from j evs = 0
  | None => drained_by j evs = 0 ∧ stolen_from j evs = 0
  end.
Proof.
  destruct 1; simpl; intros Hpc; unfold drained_by, stolen_from, ind, GRANULARITY;
    simpl; try done;
    try (destruct (decide (_ = j)); simpl; (split; lia)).
  - destruct (decide (t = j)) as [->|Hne].
    + rewrite Z.eqb_refl. lia.
    + destruct (Z.eqb_spec (Z.of_nat t) (Z.of_nat j)); [lia|done].
  - destruct (decide (Z.to_nat i = j)) as [<-|Hne].
    + rewrite Z2Nat.id by lia. rewrite Z.eqb_refl. simpl. lia.
    + destruct (Z.eqb_spec i (Z.of_nat j)); [|done]. subst i.
      rewrite Nat2Z.id in Hne. done.
Qed.

Lemma step_PerQueue (qs0 : list WorkQueue) (t : nat) (st st' : State) :
  WF A st → PerQueue qs0 st → Step A kernel t st st' → PerQueue qs0 st'.
Proof.
  intros Hwf Hpq [c pc touch c' pc' w evs Hth Hreads Htr] j q0 q' Hq0.
  pose proof (wf_pc _ _ Hwf _ _ Hth) as Hpc. simpl in Hpc.
  pose proof (trans_per_queue _ _ _ _ _ _ _ _ _ _ _ _ j Htr Hpc) as Hloc.
  unfold after; cbn [st_common st_workqueues st_threads st_mem st_log].
  unfold drained_by, stolen_from, GRANULARITY in *. rewrite !sumZ_app.
  destruct touch as [[[i q] q1]|]; simpl.
  - simpl in Hreads. destruct (decide (i = j)) as [->|Hne]; destruct Hloc.
    + intros Hq'. rewrite list_lookup_insert_eq in Hq' by (by eapply lookup_lt_Some).
      simplify_eq. destruct (Hpq _ _ _ Hq0 Hreads).
      unfold drained_by, stolen_from, GRANULARITY in *. lia.
    + intros Hq'. rewrite list_lookup_insert_ne in Hq' by done.
      destruct (Hpq _ _ _ Hq0 Hq').
      unfold drained_by, stolen_from, GRANULARITY in *. lia.
  - intros Hq'. destruct Hloc. destruct (Hpq _ _ _ Hq0 Hq').
    unfold drained_by, stolen_from, GRANULARITY in *. lia.
Qed.

Lemma run_PerQueue (qs0 : list WorkQueue) (sched : list nat) (st : State) :
  WF A st → PerQueue qs0 st → PerQueue qs0 (run A kernel sched st).
Proof.
  revert st. induction sched as [|t sched IH]; intros st Hwf Hpq; [done|].
  simpl. destruct (tick_cases A kernel t st Hwf) as [Heq|Hs].
  - rewrite Heq. by apply IH.
  - apply IH; [by apply tick_WF|]. by apply (step_PerQueue qs0 t st).
Qed.

Lemma spawn_PerQueue (su : Setup) (m0 : Z → V) :
  PerQueue (su_workqueues su) (spawn su m0).
Proof.
  intros j q0 q Hq0 Hq. simpl in Hq. simplify_eq.
  unfold drained_by, stolen_from. simpl. lia.
Qed.

End Shares.

(** X18. What a worker has counted when all have returned: its initial
    share, less 256 for every block stolen from its queue, plus 256 for
    every block it stole. During the batch, queue [t] has [next] at its
    initial value plus what thread [t] drained, and [last] at its initial
    value less 256 per block stolen from it. *)
Theorem share_at_join {V : Type} (A : nat) (kernel : Kernel V)
    (T N : Z) (a d s : list Z) (dat : Z) (junk_wq : WorkQueue)
    (junk_ctx : Context) (m0 : Z → V) (st0 : State) (sched : list nat)
    (t : nat) (th : Thread) (q0 q : WorkQueue) :
  started T N a d s dat junk_wq junk_ctx m0 st0 →
  let st := run A kernel sched st0 in
  st_threads st !! t = Some th →
  st_workqueues st0 !! t = Some q0 →
  st_workqueues st !! t = Some q →
  next q = next q0 + drained_by t (st_log st)
  ∧ last q = last q0 - GRANULARITY * stolen_from t (st_log st)
  ∧ (all_done st = true →
     completed (th_ctx th)
     = (last q0 - next q0) - GRANULARITY * stolen_from t (st_log st)
       + GRANULARITY * stolen_by t (st_log st)).
Proof.
  intros Hst. cbv zeta. intros Hth Hq0 Hq.
  destruct (started_inv A _ _ _ _ _ _ _ _ _ _ Hst)
    as (HN & Hwf0 & Hac0 & Hb0 & chunk & Heq & _ & _).
  assert (Hown0 : Own st0) by (rewrite Heq; apply spawn_Own).
  assert (Hpq0 : PerQueue (st_workqueues st0) st0)
    by (rewrite Heq; apply spawn_PerQueue).
  pose proof (run_WF A kernel sched st0 Hwf0) as Hwf.
  pose proof (run_Own A kernel sched st0 Hwf0 Hac0 Hown0 t th Hth) as Hown.
  destruct (run_PerQueue A kernel _ sched st0 Hwf0 Hpq0 t q0 q Hq0 Hq) as [Hn Hl].
  split; [done|]. split; [done|]. intros Hdone.
  unfold progress in Hown.
  rewrite (all_done_lookup _ _ _ Hdone Hth) in Hown. simpl in Hown.
  rewrite claimed_by_split in Hown.
  assert (drained (th_pc th) = true) as Hdr
    by (by rewrite (all_done_lookup _ _ _ Hdone Hth)).
  pose proof (wf_drained _ _ Hwf _ _ _ Hth Hq Hdr). lia.
Qed.

Lemma share_at_join_witness :
  next (mkWorkQueue 344 344 0)
  = next (mkWorkQueue 300 600 0)
    + drained_by 1 (st_log (run 1 demo_kernel steal_sched steal_start))
  ∧ last (mkWorkQueue 344 344 0)
    = last (mkWorkQueue 300 600 0)
      - GRANULARITY * stolen_from 1 (st_log (run 1 demo_kernel steal_sched steal_start))
  ∧ (all_done (run 1 demo_kernel steal_sched steal_start) = true →
     completed (th_ctx (mkThread (mkContext 1 44) Done))
     = (last (mkWorkQueue 300 600 0) - next (mkWorkQueue 300 600 0))
       - GRANULARITY * stolen_from 1 (st_log (run 1 demo_kernel steal_sched steal_start))
       + GRANULARITY * stolen_by 1 (st_log (run 1 demo_kernel steal_sched steal_start))).
Proof.
  apply (share_at_join 1 demo_kernel 2 600 demo_args [600] demo_steps 0
           demo_junk_wq demo_junk_ctx demo_mem steal_start steal_sched
           1%nat (mkThread (mkContext 1 44) Done)
           (mkWorkQueue 300 600 0) (mkWorkQueue 344 344 0) steal_started).
  - vm_compute. reflexivity.
  - vm_compute. reflexivity.
  - vm_compute. reflexivity.
Defined.
